(** * rocWMMA: the LDS-staged GEMM kernel [mmaSyncLds] and its validation helpers

    A shallow embedding of
      - the device kernel [mmaSyncLds] (one wave computing one output tile,
        staging its operands through the workgroup's shared memory),
      - the host reference [gemm_cpu_h] and the comparator [compareEqual]
        of [samples/common.hpp].

    Conventions of the embedding.
      - Unsigned integers, element offsets and addresses are [N].
      - Matrix elements are [Z] in the first model of the kernel: the three
        element types (InputT, OutputT, ComputeT) are embedded exactly, so
        the casts between them are the identity and no rounding takes place.
        The module [Typed] gives the same kernel for abstract element types,
        with the integers and IEEE binary64 as instances.
      - A buffer is a total map from element offsets to elements; the four
        global buffers a, b, c, d and the shared memory of a workgroup are
        separate address spaces.  The source never checks an offset against
        the extent of a buffer, and neither does the model.
      - A fragment is the register tile of one wave, indexed by a flat
        position [p]; its two views (native tile and register file) are two
        ways of indexing the same storage. *)

From Stdlib Require Import String NArith ZArith List Bool Lia Floats
  FunctionalExtensionality.
Import ListNotations.

Local Open Scope N_scope.

(** ** Memory and fragments *)

Inductive layout : Type := row_major | col_major.

Definition Mem (T : Type) : Type := N -> T.
Definition Frag (T : Type) : Type := N -> T.

Definition mem_write {T : Type} (mem : Mem T) (addr : N) (v : T) : Mem T :=
  fun x => if x =? addr then v else mem x.

(** [store_elems f frag cnt mem] performs [mem[f p] = frag[p]] for
    [p = 0, 1, ..., cnt-1], in this order. *)
Fixpoint store_elems {T : Type} (f : N -> N) (frag : Frag T) (cnt : nat)
  (mem : Mem T) : Mem T :=
  match cnt with
  | O => mem
  | S c => mem_write (store_elems f frag c mem) (f (N.of_nat c)) (frag (N.of_nat c))
  end.

(** Sum of [f 0 + ... + f (cnt-1)], accumulated upwards from zero. *)
Fixpoint sum_upto (f : N -> Z) (cnt : nat) : Z :=
  match cnt with
  | O => 0%Z
  | S c => (sum_upto f c + f (N.of_nat c))%Z
  end.

(** ** Hardware indices and the coordinate mapper *)

Record HwIdx : Type := mkHwIdx {
  blockIdx_x : N;  blockIdx_y : N;
  threadIdx_x : N; threadIdx_y : N;
  blockDim_x : N;  blockDim_y : N
}.

Module MappingUtil.

(** Modelled from the spec: the class MappingUtil is not part of the given
    sources; section 4.1 of the specification describes its functions.
    [W] is the hardware group width (AMDGCN_WAVE_SIZE). *)
Definition workgroupDim (W : N) (hw : HwIdx) : N * N :=
  (blockDim_x hw / W, blockDim_y hw).

(** Modelled from the spec: position of the wave in the wave grid of its
    workgroup, from the thread index (MappingUtil is not in the sources). *)
Definition waveCoord (W : N) (hw : HwIdx) : N * N :=
  (threadIdx_x hw / W, threadIdx_y hw).

(** Modelled from the spec: grid position plus the wave coordinate offset
    (MappingUtil is not in the sources). *)
Definition blockCoord (W : N) (hw : HwIdx) : N * N :=
  (blockIdx_x hw * fst (workgroupDim W hw) + fst (waveCoord W hw),
   blockIdx_y hw * snd (workgroupDim W hw) + snd (waveCoord W hw)).

(** Modelled from the spec: top-left element of a block
    (MappingUtil is not in the sources). *)
Definition matrixCoord (BlockRows BlockCols : N) (blk : N * N) : N * N :=
  (fst blk * BlockRows, snd blk * BlockCols).

(** Modelled from the spec: layout-aware linear offset of an element
    displacement (MappingUtil is not in the sources). *)
Definition dataOffset (l : layout) (ld : N) (coord : N * N) : N :=
  match l with
  | row_major => fst coord * ld + snd coord
  | col_major => snd coord * ld + fst coord
  end.

(** Modelled from the spec: [basePointer + layout-aware offset]
    (MappingUtil is not in the sources). *)
Definition dataCoord (l : layout) (base : N) (ld : N) (coord : N * N) : N :=
  base + dataOffset l ld coord.

End MappingUtil.

(** ** Fragment operations *)

Module wmma.

(** Modelled from the spec: the fragment library (WMMA.h) is not part of the
    given sources; section 4.2 of the specification lists its operations.
    How a tile is spread over the lanes is opaque there; the model keeps
    tile element [(i, j)] of a [rows x cols] fragment at flat position
    [i * cols + j]. *)
Definition tileCoord (cols : N) (p : N) : N * N := (p / cols, p mod cols).

(** Modelled from the spec: a default-constructed fragment (WMMA.h is not in
    the sources); its registers hold no meaningful data. *)
Definition fragment {T : Type} (dflt : T) : Frag T := fun _ => dflt.

(** Modelled from the spec: fill(value) (WMMA.h is not in the sources). *)
Definition fill_fragment {T : Type} (frag : Frag T) (v : T) : Frag T :=
  fun _ => v.

(** Modelled from the spec: loadFromMemory(address, leadingDimension,
    layout) (WMMA.h is not in the sources).  The [rows * cols] elements of
    the view are overwritten, the others are kept. *)
Definition load_matrix_sync {T : Type} (rows cols : N) (l : layout)
  (frag : Frag T) (mem : Mem T) (addr ld : N) : Frag T :=
  fun p =>
    if p <? rows * cols
    then mem (MappingUtil.dataCoord l addr ld (tileCoord cols p))
    else frag p.

(** Modelled from the spec: storeToMemory(address, fragment,
    leadingDimension, layout) (WMMA.h is not in the sources). *)
Definition store_matrix_sync {T : Type} (rows cols : N) (l : layout)
  (mem : Mem T) (addr : N) (frag : Frag T) (ld : N) : Mem T :=
  store_elems (fun p => MappingUtil.dataCoord l addr ld (tileCoord cols p))
              frag (N.to_nat (rows * cols)) mem.

(** Modelled from the spec: fusedMultiplyAccumulate, [acc(i,j) += sum over
    kk < BK of A(i,kk) * B(kk,j)] (WMMA.h is not in the sources). *)
Definition mma_sync (BM BN BK : N) (a b acc : Frag Z) : Frag Z :=
  fun p =>
    if p <? BM * BN
    then (acc p +
          sum_upto (fun kk => a (p / BN * BK + kk)%N * b (kk * BN + p mod BN)%N)%Z
                   (N.to_nat BK))%Z
    else acc p.

End wmma.

(** ** Kernel configuration (the template parameters) *)

(** The per-lane element counts [FragA::size()] ... come from the fragment
    library, which is not part of the sources: they are parameters here. *)
Record Config : Type := mkConfig {
  BlockM : N; BlockN : N; BlockK : N;
  LayoutA : layout; LayoutB : layout; LayoutC : layout; LayoutD : layout;
  AMDGCN_WAVE_SIZE : N;
  FragA_size : N; FragB_size : N;
  FragLdsA_size : N; FragLdsB_size : N
}.

(** The four [static_assert]s of the kernel. *)
Definition static_asserts (cfg : Config) : bool :=
  (FragA_size cfg * 64 =? BlockM cfg * BlockK cfg) &&
  (FragLdsA_size cfg =? FragA_size cfg) &&
  (FragB_size cfg * 64 =? BlockK cfg * BlockN cfg) &&
  (FragLdsB_size cfg =? FragB_size cfg).

(** What a wave does that can be observed from outside its registers. *)
Inductive event : Type :=
| EvLoadA (addr : N)      (* load_matrix_sync of a block of A from global memory *)
| EvLoadB (addr : N)      (* load_matrix_sync of a block of B from global memory *)
| EvLoadC (addr : N)      (* load_matrix_sync of the C tile *)
| EvStoreLds (addr : N)   (* store_matrix_sync of a register file to shared memory *)
| EvLoadLds (addr : N)    (* load_matrix_sync of a register file from shared memory *)
| EvMma                   (* mma_sync *)
| EvSync                  (* synchronize_workgroup *)
| EvStoreD (addr : N).    (* store_matrix_sync of the result tile *)

Definition is_mma (e : event) : bool :=
  match e with EvMma => true | _ => false end.
Definition is_sync (e : event) : bool :=
  match e with EvSync => true | _ => false end.
Definition is_load_ab (e : event) : bool :=
  match e with EvLoadA _ | EvLoadB _ => true | _ => false end.
Definition is_store_d (e : event) : bool :=
  match e with EvStoreD _ => true | _ => false end.

Definition count (P : event -> bool) (tr : list event) : nat :=
  length (filter P tr).

(** ** The kernel [mmaSyncLds] *)

(** The run-time arguments of the kernel; the output pointer [d] is the
    buffer [dmem] of the shared state. *)
Record Args : Type := mkArgs {
  arg_m : N; arg_n : N; arg_k : N;
  arg_a : Mem Z; arg_b : Mem Z; arg_c : Mem Z;
  arg_lda : N; arg_ldb : N; arg_ldc : N; arg_ldd : N;
  arg_alpha : Z; arg_beta : Z
}.

(** Program points of one wave: one per statement (or group of statements
    that touch only registers and read-only inputs) of the kernel body. *)
Inductive pc : Type :=
| PcEntry       (* matrixCoordC, the bounds test, fill of the accumulator, if(alpha) *)
| PcPrefetch0   (* start addresses, first loads of A and B from global memory *)
| PcStageA0     (* store_matrix_sync(addrLdsA, fragA as register file) *)
| PcStageB0     (* store_matrix_sync(addrLdsB, fragB as register file) *)
| PcSetup       (* incrA, incrB, endA, first advance of addrA and addrB *)
| PcLoopTest    (* while(addrA != endA) *)
| PcSync        (* synchronize_workgroup() *)
| PcUnstageA    (* load_matrix_sync(fragA as register file, addrLdsA) *)
| PcUnstageB    (* load_matrix_sync(fragB as register file, addrLdsB) *)
| PcPrefetch    (* fragANext, fragBNext loaded from global memory *)
| PcMma         (* mma_sync(fragAcc, fragA, fragB, fragAcc) *)
| PcStageA      (* store_matrix_sync(addrLdsA, fragANext as register file) *)
| PcStageB      (* store_matrix_sync(addrLdsB, fragBNext as register file) *)
| PcAdvance     (* addrA += incrA; addrB += incrB *)
| PcDrainA      (* after the loop: load_matrix_sync(fragA as register file) *)
| PcDrainB      (* after the loop: load_matrix_sync(fragB as register file) *)
| PcDrainMma    (* after the loop: mma_sync *)
| PcLoadC       (* fragC filled with zero, loaded from c if(beta) *)
| PcCombine     (* fragC.x[i] = OutputT(alpha * acc + beta * fragC.x[i]) *)
| PcStoreD      (* store_matrix_sync(addrD, fragC, ldd) *)
| PcDone.       (* end of the kernel body *)

(** Registers of one wave. *)
Record Wave : Type := mkWave {
  w_pc : pc;
  fragA : Frag Z; fragB : Frag Z;
  fragANext : Frag Z; fragBNext : Frag Z;
  fragAcc : Frag Z; fragC : Frag Z;
  addrA : N; addrB : N; endA : N;
  trace : list event
}.

(** Memory that a wave can change: the shared memory of its workgroup and
    the output buffer. *)
Record Shared : Type := mkShared {
  lds : Mem Z;
  dmem : Mem Z
}.

Definition goto (p : pc) (w : Wave) : Wave :=
  mkWave p (fragA w) (fragB w) (fragANext w) (fragBNext w) (fragAcc w)
         (fragC w) (addrA w) (addrB w) (endA w) (trace w).
Definition log (e : event) (w : Wave) : Wave :=
  mkWave (w_pc w) (fragA w) (fragB w) (fragANext w) (fragBNext w) (fragAcc w)
         (fragC w) (addrA w) (addrB w) (endA w) (trace w ++ [e]).
Definition log_when (b : bool) (e : event) (w : Wave) : Wave :=
  mkWave (w_pc w) (fragA w) (fragB w) (fragANext w) (fragBNext w) (fragAcc w)
         (fragC w) (addrA w) (addrB w) (endA w)
         (trace w ++ if b then [e] else []).
Definition set_fragA (f : Frag Z) (w : Wave) : Wave :=
  mkWave (w_pc w) f (fragB w) (fragANext w) (fragBNext w) (fragAcc w)
         (fragC w) (addrA w) (addrB w) (endA w) (trace w).
Definition set_fragB (f : Frag Z) (w : Wave) : Wave :=
  mkWave (w_pc w) (fragA w) f (fragANext w) (fragBNext w) (fragAcc w)
         (fragC w) (addrA w) (addrB w) (endA w) (trace w).
Definition set_fragANext (f : Frag Z) (w : Wave) : Wave :=
  mkWave (w_pc w) (fragA w) (fragB w) f (fragBNext w) (fragAcc w)
         (fragC w) (addrA w) (addrB w) (endA w) (trace w).
Definition set_fragBNext (f : Frag Z) (w : Wave) : Wave :=
  mkWave (w_pc w) (fragA w) (fragB w) (fragANext w) f (fragAcc w)
         (fragC w) (addrA w) (addrB w) (endA w) (trace w).
Definition set_fragAcc (f : Frag Z) (w : Wave) : Wave :=
  mkWave (w_pc w) (fragA w) (fragB w) (fragANext w) (fragBNext w) f
         (fragC w) (addrA w) (addrB w) (endA w) (trace w).
Definition set_fragC (f : Frag Z) (w : Wave) : Wave :=
  mkWave (w_pc w) (fragA w) (fragB w) (fragANext w) (fragBNext w) (fragAcc w)
         f (addrA w) (addrB w) (endA w) (trace w).
Definition set_addrA (x : N) (w : Wave) : Wave :=
  mkWave (w_pc w) (fragA w) (fragB w) (fragANext w) (fragBNext w) (fragAcc w)
         (fragC w) x (addrB w) (endA w) (trace w).
Definition set_addrB (x : N) (w : Wave) : Wave :=
  mkWave (w_pc w) (fragA w) (fragB w) (fragANext w) (fragBNext w) (fragAcc w)
         (fragC w) (addrA w) x (endA w) (trace w).
Definition set_endA (x : N) (w : Wave) : Wave :=
  mkWave (w_pc w) (fragA w) (fragB w) (fragANext w) (fragBNext w) (fragAcc w)
         (fragC w) (addrA w) (addrB w) x (trace w).

Definition set_lds (mem : Mem Z) (sh : Shared) : Shared := mkShared mem (dmem sh).
Definition set_dmem (mem : Mem Z) (sh : Shared) : Shared := mkShared (lds sh) mem.

(** The casts between the element types; exact in this embedding. *)
Definition ComputeT (x : Z) : Z := x.
Definition OutputT (x : Z) : Z := x.

(** A scalar used as a condition, as in [if(alpha)]. *)
Definition nonzero (x : Z) : bool := negb (x =? 0)%Z.

Section Kernel.

Variable cfg : Config.
Variable hw : HwIdx.
Variable args : Args.

Definition registerFileWidth : N := AMDGCN_WAVE_SIZE cfg.

(** [MappingC::matrixCoord()]: the top-left element of the wave's tile. *)
Definition matrixCoordC : N * N :=
  MappingUtil.matrixCoord (BlockM cfg) (BlockN cfg)
    (MappingUtil.blockCoord registerFileWidth hw).

(** The test that guards the whole kernel body. *)
Definition in_bounds : bool :=
  (fst matrixCoordC <? arg_m args) && (snd matrixCoordC <? arg_n args)
  && (BlockK cfg <? arg_k args).

(** Start addresses in a and b (the buffers start at offset 0). *)
Definition addrA0 : N :=
  MappingUtil.dataCoord (LayoutA cfg) 0 (arg_lda args) (fst matrixCoordC, 0).
Definition addrB0 : N :=
  MappingUtil.dataCoord (LayoutB cfg) 0 (arg_ldb args) (0, snd matrixCoordC).

(** The register file in shared memory. *)
Definition workgroupDim : N * N := MappingUtil.workgroupDim registerFileWidth hw.
Definition ldLds : N := registerFileWidth * snd workgroupDim.
Definition baseAddrLdsA : N := 0.
Definition baseAddrLdsB : N :=
  baseAddrLdsA + fst workgroupDim * FragLdsA_size cfg * ldLds.
Definition matrixCoordLdsA : N * N :=
  MappingUtil.matrixCoord (FragA_size cfg) registerFileWidth
    (MappingUtil.waveCoord registerFileWidth hw).
Definition matrixCoordLdsB : N * N :=
  MappingUtil.matrixCoord (FragB_size cfg) registerFileWidth
    (MappingUtil.waveCoord registerFileWidth hw).
Definition addrLdsA : N :=
  MappingUtil.dataCoord row_major baseAddrLdsA ldLds matrixCoordLdsA.
Definition addrLdsB : N :=
  MappingUtil.dataCoord row_major baseAddrLdsB ldLds matrixCoordLdsB.

(** Loads and stores through the register-file view [FragLdsA], [FragLdsB]:
    [FragLds*_size] rows of [registerFileWidth] elements, row major. *)
Definition load_lds (size : N) (frag : Frag Z) (mem : Mem Z) (addr : N) : Frag Z :=
  wmma.load_matrix_sync size registerFileWidth row_major frag mem addr ldLds.
Definition store_lds (size : N) (mem : Mem Z) (addr : N) (frag : Frag Z) : Mem Z :=
  wmma.store_matrix_sync size registerFileWidth row_major mem addr frag ldLds.

(** Loads of the native fragments from global memory. *)
Definition load_a (addr : N) : Frag Z :=
  wmma.load_matrix_sync (BlockM cfg) (BlockK cfg) (LayoutA cfg)
    (wmma.fragment 0%Z) (arg_a args) addr (arg_lda args).
Definition load_b (addr : N) : Frag Z :=
  wmma.load_matrix_sync (BlockK cfg) (BlockN cfg) (LayoutB cfg)
    (wmma.fragment 0%Z) (arg_b args) addr (arg_ldb args).

Definition incrA : N :=
  MappingUtil.dataOffset (LayoutA cfg) (arg_lda args) (0, BlockK cfg).
Definition incrB : N :=
  MappingUtil.dataOffset (LayoutB cfg) (arg_ldb args) (BlockK cfg, 0).

Definition addrC : N :=
  MappingUtil.dataCoord (LayoutC cfg) 0 (arg_ldc args) matrixCoordC.
Definition addrD : N :=
  MappingUtil.dataCoord (LayoutD cfg) 0 (arg_ldd args) matrixCoordC.

(** [fragC.num_elements]: the elements of the output tile. *)
Definition num_elements : N := BlockM cfg * BlockN cfg.

(** One statement of the wave.  [sync] tells whether
    [synchronize_workgroup] is issued or replaced by nothing. *)
Definition step (sync : bool) (w : Wave) (sh : Shared) : Wave * Shared :=
  match w_pc w with
  | PcEntry =>
      if in_bounds then
        let w1 := set_fragAcc (wmma.fill_fragment (fragAcc w) (ComputeT 0)) w in
        if nonzero (arg_alpha args) then (goto PcPrefetch0 w1, sh)
        else (goto PcLoadC w1, sh)
      else (goto PcDone w, sh)
  | PcPrefetch0 =>
      let w1 := set_addrB addrB0 (set_addrA addrA0 w) in
      let w2 := log (EvLoadA addrA0) (set_fragA (load_a addrA0) w1) in
      let w3 := log (EvLoadB addrB0) (set_fragB (load_b addrB0) w2) in
      (goto PcStageA0 w3, sh)
  | PcStageA0 =>
      (goto PcStageB0 (log (EvStoreLds addrLdsA) w),
       set_lds (store_lds (FragLdsA_size cfg) (lds sh) addrLdsA (fragA w)) sh)
  | PcStageB0 =>
      (goto PcSetup (log (EvStoreLds addrLdsB) w),
       set_lds (store_lds (FragLdsB_size cfg) (lds sh) addrLdsB (fragB w)) sh)
  | PcSetup =>
      let w1 := set_endA (addrA w + incrA * (arg_k args / BlockK cfg)) w in
      let w2 := set_addrB (addrB w + incrB) (set_addrA (addrA w + incrA) w1) in
      (goto PcLoopTest w2, sh)
  | PcLoopTest =>
      if negb (addrA w =? endA w) then (goto PcSync w, sh)
      else (goto PcDrainA w, sh)
  | PcSync =>
      (goto PcUnstageA (log_when sync EvSync w), sh)
  | PcUnstageA =>
      (goto PcUnstageB
         (log (EvLoadLds addrLdsA)
            (set_fragA (load_lds (FragLdsA_size cfg) (fragA w) (lds sh) addrLdsA) w)),
       sh)
  | PcUnstageB =>
      (goto PcPrefetch
         (log (EvLoadLds addrLdsB)
            (set_fragB (load_lds (FragLdsB_size cfg) (fragB w) (lds sh) addrLdsB) w)),
       sh)
  | PcPrefetch =>
      let w1 := log (EvLoadA (addrA w)) (set_fragANext (load_a (addrA w)) w) in
      let w2 := log (EvLoadB (addrB w)) (set_fragBNext (load_b (addrB w)) w1) in
      (goto PcMma w2, sh)
  | PcMma =>
      (goto PcStageA
         (log EvMma
            (set_fragAcc
               (wmma.mma_sync (BlockM cfg) (BlockN cfg) (BlockK cfg)
                  (fragA w) (fragB w) (fragAcc w)) w)),
       sh)
  | PcStageA =>
      (goto PcStageB (log (EvStoreLds addrLdsA) w),
       set_lds (store_lds (FragLdsA_size cfg) (lds sh) addrLdsA (fragANext w)) sh)
  | PcStageB =>
      (goto PcAdvance (log (EvStoreLds addrLdsB) w),
       set_lds (store_lds (FragLdsB_size cfg) (lds sh) addrLdsB (fragBNext w)) sh)
  | PcAdvance =>
      (goto PcLoopTest (set_addrB (addrB w + incrB) (set_addrA (addrA w + incrA) w)),
       sh)
  | PcDrainA =>
      (goto PcDrainB
         (log (EvLoadLds addrLdsA)
            (set_fragA (load_lds (FragLdsA_size cfg) (fragA w) (lds sh) addrLdsA) w)),
       sh)
  | PcDrainB =>
      (goto PcDrainMma
         (log (EvLoadLds addrLdsB)
            (set_fragB (load_lds (FragLdsB_size cfg) (fragB w) (lds sh) addrLdsB) w)),
       sh)
  | PcDrainMma =>
      (goto PcLoadC
         (log EvMma
            (set_fragAcc
               (wmma.mma_sync (BlockM cfg) (BlockN cfg) (BlockK cfg)
                  (fragA w) (fragB w) (fragAcc w)) w)),
       sh)
  | PcLoadC =>
      let w1 := set_fragC (wmma.fill_fragment (fragC w) (OutputT 0)) w in
      if nonzero (arg_beta args) then
        (goto PcCombine
           (log (EvLoadC addrC)
              (set_fragC
                 (wmma.load_matrix_sync (BlockM cfg) (BlockN cfg) (LayoutC cfg)
                    (fragC w1) (arg_c args) addrC (arg_ldc args)) w1)),
         sh)
      else (goto PcCombine w1, sh)
  | PcCombine =>
      (goto PcStoreD
         (set_fragC
            (fun i =>
               if i <? num_elements
               then OutputT (arg_alpha args * ComputeT (fragAcc w i)
                             + arg_beta args * ComputeT (fragC w i))%Z
               else fragC w i) w),
       sh)
  | PcStoreD =>
      (goto PcDone (log (EvStoreD addrD) w),
       set_dmem
         (wmma.store_matrix_sync (BlockM cfg) (BlockN cfg) (LayoutD cfg)
            (dmem sh) addrD (fragC w) (arg_ldd args)) sh)
  | PcDone => (w, sh)
  end.

(** A wave runs its statements one after the other until the end of the
    kernel body; [fuel] bounds the number of statements. *)
Fixpoint run (sync : bool) (fuel : nat) (w : Wave) (sh : Shared)
  : option (Wave * Shared) :=
  match w_pc w with
  | PcDone => Some (w, sh)
  | _ =>
      match fuel with
      | O => None
      | S f => run sync f (fst (step sync w sh)) (snd (step sync w sh))
      end
  end.

(** The registers of a wave when the kernel starts. *)
Definition wave_init : Wave :=
  mkWave PcEntry (wmma.fragment 0%Z) (wmma.fragment 0%Z) (wmma.fragment 0%Z)
         (wmma.fragment 0%Z) (wmma.fragment 0%Z) (wmma.fragment 0%Z) 0 0 0 [].

(** One wave executing the kernel on its own. *)
Definition mmaSyncLds (fuel : nat) (sh : Shared) : option (Wave * Shared) :=
  run true fuel wave_init sh.

End Kernel.

(** [exec n]: the state of a wave after [n] statements. *)
Fixpoint exec (cfg : Config) (hw : HwIdx) (args : Args) (sync : bool) (n : nat)
  (w : Wave) (sh : Shared) : Wave * Shared :=
  match n with
  | O => (w, sh)
  | S n' => exec cfg hw args sync n' (fst (step cfg hw args sync w sh))
                 (snd (step cfg hw args sync w sh))
  end.

(** * The kernel for any element types *)

(** The kernel is a template over three element types.  The model above
    fixes them to exact integers; the one below keeps them abstract, with
    the operations that the kernel body applies to them, so that it can
    be read at IEEE binary64 (the instantiation InputT = OutputT =
    ComputeT = double) as well as at the integers. *)
Module Typed.

(** The template parameters InputT, OutputT and ComputeT with the
    conversions and the arithmetic of the kernel body. *)
Record ElemTypes : Type := mkElemTypes {
  InputT : Type;
  OutputT : Type;
  ComputeT : Type;
  (** what the registers of a default-constructed fragment hold *)
  InputT_default : InputT;
  OutputT_default : OutputT;
  ComputeT_default : ComputeT;
  (** [static_cast<ComputeT>(0)] and [static_cast<OutputT>(0)] *)
  ComputeT_0 : ComputeT;
  OutputT_0 : OutputT;
  (** a scalar used as a condition, as in [if(alpha)] *)
  as_bool : ComputeT -> bool;
  (** the casts [ComputeT(x)] of an output or an input element, [OutputT(x)] *)
  ComputeT_of_OutputT : OutputT -> ComputeT;
  ComputeT_of_InputT : InputT -> ComputeT;
  OutputT_of_ComputeT : ComputeT -> OutputT;
  (** [x * y] and [x + y] on ComputeT *)
  times : ComputeT -> ComputeT -> ComputeT;
  plus : ComputeT -> ComputeT -> ComputeT
}.

(** Registers of one wave. *)
Record Wave (E : ElemTypes) : Type := mkWave {
  w_pc : pc;
  fragA : Frag (InputT E); fragB : Frag (InputT E);
  fragANext : Frag (InputT E); fragBNext : Frag (InputT E);
  fragAcc : Frag (ComputeT E); fragC : Frag (OutputT E);
  addrA : N; addrB : N; endA : N;
  trace : list event
}.

(** The shared memory of the workgroup (an array of InputT) and the output
    buffer. *)
Record Shared (E : ElemTypes) : Type := mkShared {
  lds : Mem (InputT E);
  dmem : Mem (OutputT E)
}.

(** The run-time arguments of the kernel. *)
Record Args (E : ElemTypes) : Type := mkArgs {
  arg_m : N; arg_n : N; arg_k : N;
  arg_a : Mem (InputT E); arg_b : Mem (InputT E); arg_c : Mem (OutputT E);
  arg_lda : N; arg_ldb : N; arg_ldc : N; arg_ldd : N;
  arg_alpha : ComputeT E; arg_beta : ComputeT E
}.

Arguments mkWave {E}.
Arguments w_pc {E}.
Arguments fragA {E}.
Arguments fragB {E}.
Arguments fragANext {E}.
Arguments fragBNext {E}.
Arguments fragAcc {E}.
Arguments fragC {E}.
Arguments addrA {E}.
Arguments addrB {E}.
Arguments endA {E}.
Arguments trace {E}.
Arguments mkShared {E}.
Arguments lds {E}.
Arguments dmem {E}.
Arguments mkArgs {E}.
Arguments arg_m {E}.
Arguments arg_n {E}.
Arguments arg_k {E}.
Arguments arg_a {E}.
Arguments arg_b {E}.
Arguments arg_c {E}.
Arguments arg_lda {E}.
Arguments arg_ldb {E}.
Arguments arg_ldc {E}.
Arguments arg_ldd {E}.
Arguments arg_alpha {E}.
Arguments arg_beta {E}.

Section Kernel.

Context {E : ElemTypes}.
Variable cfg : Config.
Variable hw : HwIdx.
Variable args : Args E.

Definition goto (p : pc) (w : Wave E) : Wave E :=
  mkWave p (fragA w) (fragB w) (fragANext w) (fragBNext w) (fragAcc w)
         (fragC w) (addrA w) (addrB w) (endA w) (trace w).
Definition log (e : event) (w : Wave E) : Wave E :=
  mkWave (w_pc w) (fragA w) (fragB w) (fragANext w) (fragBNext w) (fragAcc w)
         (fragC w) (addrA w) (addrB w) (endA w) (trace w ++ [e]).
Definition log_when (b : bool) (e : event) (w : Wave E) : Wave E :=
  mkWave (w_pc w) (fragA w) (fragB w) (fragANext w) (fragBNext w) (fragAcc w)
         (fragC w) (addrA w) (addrB w) (endA w)
         (trace w ++ if b then [e] else []).
Definition set_fragA (f : Frag (InputT E)) (w : Wave E) : Wave E :=
  mkWave (w_pc w) f (fragB w) (fragANext w) (fragBNext w) (fragAcc w)
         (fragC w) (addrA w) (addrB w) (endA w) (trace w).
Definition set_fragB (f : Frag (InputT E)) (w : Wave E) : Wave E :=
  mkWave (w_pc w) (fragA w) f (fragANext w) (fragBNext w) (fragAcc w)
         (fragC w) (addrA w) (addrB w) (endA w) (trace w).
Definition set_fragANext (f : Frag (InputT E)) (w : Wave E) : Wave E :=
  mkWave (w_pc w) (fragA w) (fragB w) f (fragBNext w) (fragAcc w)
         (fragC w) (addrA w) (addrB w) (endA w) (trace w).
Definition set_fragBNext (f : Frag (InputT E)) (w : Wave E) : Wave E :=
  mkWave (w_pc w) (fragA w) (fragB w) (fragANext w) f (fragAcc w)
         (fragC w) (addrA w) (addrB w) (endA w) (trace w).
Definition set_fragAcc (f : Frag (ComputeT E)) (w : Wave E) : Wave E :=
  mkWave (w_pc w) (fragA w) (fragB w) (fragANext w) (fragBNext w) f
         (fragC w) (addrA w) (addrB w) (endA w) (trace w).
Definition set_fragC (f : Frag (OutputT E)) (w : Wave E) : Wave E :=
  mkWave (w_pc w) (fragA w) (fragB w) (fragANext w) (fragBNext w) (fragAcc w)
         f (addrA w) (addrB w) (endA w) (trace w).
Definition set_addrA (x : N) (w : Wave E) : Wave E :=
  mkWave (w_pc w) (fragA w) (fragB w) (fragANext w) (fragBNext w) (fragAcc w)
         (fragC w) x (addrB w) (endA w) (trace w).
Definition set_addrB (x : N) (w : Wave E) : Wave E :=
  mkWave (w_pc w) (fragA w) (fragB w) (fragANext w) (fragBNext w) (fragAcc w)
         (fragC w) (addrA w) x (endA w) (trace w).
Definition set_endA (x : N) (w : Wave E) : Wave E :=
  mkWave (w_pc w) (fragA w) (fragB w) (fragANext w) (fragBNext w) (fragAcc w)
         (fragC w) (addrA w) (addrB w) x (trace w).

Definition set_lds (mem : Mem (InputT E)) (sh : Shared E) : Shared E :=
  mkShared mem (dmem sh).
Definition set_dmem (mem : Mem (OutputT E)) (sh : Shared E) : Shared E :=
  mkShared (lds sh) mem.

(** [x_0 + ... + x_(cnt-1)] in ComputeT, accumulated upwards from zero. *)
Fixpoint sum_upto (f : N -> ComputeT E) (cnt : nat) : ComputeT E :=
  match cnt with
  | O => ComputeT_0 E
  | S c => plus E (sum_upto f c) (f (N.of_nat c))
  end.

(** Modelled from the spec: fusedMultiplyAccumulate, [acc(i,j) += sum over
    kk < BK of A(i,kk) * B(kk,j)] (WMMA.h is not in the sources); the
    products are formed in ComputeT and summed in the order of kk. *)
Definition mma_sync (BM BN BK : N) (a b : Frag (InputT E)) (acc : Frag (ComputeT E))
  : Frag (ComputeT E) :=
  fun p =>
    if p <? BM * BN
    then plus E (acc p)
           (sum_upto
              (fun kk => times E (ComputeT_of_InputT E (a (p / BN * BK + kk)))
                                 (ComputeT_of_InputT E (b (kk * BN + p mod BN))))
              (N.to_nat BK))
    else acc p.

(** The test that guards the whole kernel body. *)
Definition in_bounds : bool :=
  (fst (matrixCoordC cfg hw) <? arg_m args)
  && (snd (matrixCoordC cfg hw) <? arg_n args)
  && (BlockK cfg <? arg_k args).

(** Start addresses in a and b (the buffers start at offset 0). *)
Definition addrA0 : N :=
  MappingUtil.dataCoord (LayoutA cfg) 0 (arg_lda args) (fst (matrixCoordC cfg hw), 0).
Definition addrB0 : N :=
  MappingUtil.dataCoord (LayoutB cfg) 0 (arg_ldb args) (0, snd (matrixCoordC cfg hw)).

(** Loads and stores through the register-file view [FragLdsA], [FragLdsB]:
    [FragLds*_size] rows of [registerFileWidth] elements, row major. *)
Definition load_lds (size : N) (frag : Frag (InputT E)) (mem : Mem (InputT E))
  (addr : N) : Frag (InputT E) :=
  wmma.load_matrix_sync size (registerFileWidth cfg) row_major frag mem addr
    (ldLds cfg hw).
Definition store_lds (size : N) (mem : Mem (InputT E)) (addr : N)
  (frag : Frag (InputT E)) : Mem (InputT E) :=
  wmma.store_matrix_sync size (registerFileWidth cfg) row_major mem addr frag
    (ldLds cfg hw).

(** Loads of the native fragments from global memory. *)
Definition load_a (addr : N) : Frag (InputT E) :=
  wmma.load_matrix_sync (BlockM cfg) (BlockK cfg) (LayoutA cfg)
    (wmma.fragment (InputT_default E)) (arg_a args) addr (arg_lda args).
Definition load_b (addr : N) : Frag (InputT E) :=
  wmma.load_matrix_sync (BlockK cfg) (BlockN cfg) (LayoutB cfg)
    (wmma.fragment (InputT_default E)) (arg_b args) addr (arg_ldb args).

Definition incrA : N :=
  MappingUtil.dataOffset (LayoutA cfg) (arg_lda args) (0, BlockK cfg).
Definition incrB : N :=
  MappingUtil.dataOffset (LayoutB cfg) (arg_ldb args) (BlockK cfg, 0).

Definition addrC : N :=
  MappingUtil.dataCoord (LayoutC cfg) 0 (arg_ldc args) (matrixCoordC cfg hw).
Definition addrD : N :=
  MappingUtil.dataCoord (LayoutD cfg) 0 (arg_ldd args) (matrixCoordC cfg hw).

(** One statement of the wave.  [sync] tells whether
    [synchronize_workgroup] is issued or replaced by nothing. *)
Definition step (sync : bool) (w : Wave E) (sh : Shared E) : Wave E * Shared E :=
  match w_pc w with
  | PcEntry =>
      if in_bounds then
        let w1 := set_fragAcc (wmma.fill_fragment (fragAcc w) (ComputeT_0 E)) w in
        if as_bool E (arg_alpha args) then (goto PcPrefetch0 w1, sh)
        else (goto PcLoadC w1, sh)
      else (goto PcDone w, sh)
  | PcPrefetch0 =>
      let w1 := set_addrB addrB0 (set_addrA addrA0 w) in
      let w2 := log (EvLoadA addrA0) (set_fragA (load_a addrA0) w1) in
      let w3 := log (EvLoadB addrB0) (set_fragB (load_b addrB0) w2) in
      (goto PcStageA0 w3, sh)
  | PcStageA0 =>
      (goto PcStageB0 (log (EvStoreLds (addrLdsA cfg hw)) w),
       set_lds (store_lds (FragLdsA_size cfg) (lds sh) (addrLdsA cfg hw) (fragA w)) sh)
  | PcStageB0 =>
      (goto PcSetup (log (EvStoreLds (addrLdsB cfg hw)) w),
       set_lds (store_lds (FragLdsB_size cfg) (lds sh) (addrLdsB cfg hw) (fragB w)) sh)
  | PcSetup =>
      let w1 := set_endA (addrA w + incrA * (arg_k args / BlockK cfg)) w in
      let w2 := set_addrB (addrB w + incrB) (set_addrA (addrA w + incrA) w1) in
      (goto PcLoopTest w2, sh)
  | PcLoopTest =>
      if negb (addrA w =? endA w) then (goto PcSync w, sh)
      else (goto PcDrainA w, sh)
  | PcSync =>
      (goto PcUnstageA (log_when sync EvSync w), sh)
  | PcUnstageA =>
      (goto PcUnstageB
         (log (EvLoadLds (addrLdsA cfg hw))
            (set_fragA
               (load_lds (FragLdsA_size cfg) (fragA w) (lds sh) (addrLdsA cfg hw)) w)),
       sh)
  | PcUnstageB =>
      (goto PcPrefetch
         (log (EvLoadLds (addrLdsB cfg hw))
            (set_fragB
               (load_lds (FragLdsB_size cfg) (fragB w) (lds sh) (addrLdsB cfg hw)) w)),
       sh)
  | PcPrefetch =>
      let w1 := log (EvLoadA (addrA w)) (set_fragANext (load_a (addrA w)) w) in
      let w2 := log (EvLoadB (addrB w)) (set_fragBNext (load_b (addrB w)) w1) in
      (goto PcMma w2, sh)
  | PcMma =>
      (goto PcStageA
         (log EvMma
            (set_fragAcc
               (mma_sync (BlockM cfg) (BlockN cfg) (BlockK cfg)
                  (fragA w) (fragB w) (fragAcc w)) w)),
       sh)
  | PcStageA =>
      (goto PcStageB (log (EvStoreLds (addrLdsA cfg hw)) w),
       set_lds
         (store_lds (FragLdsA_size cfg) (lds sh) (addrLdsA cfg hw) (fragANext w)) sh)
  | PcStageB =>
      (goto PcAdvance (log (EvStoreLds (addrLdsB cfg hw)) w),
       set_lds
         (store_lds (FragLdsB_size cfg) (lds sh) (addrLdsB cfg hw) (fragBNext w)) sh)
  | PcAdvance =>
      (goto PcLoopTest (set_addrB (addrB w + incrB) (set_addrA (addrA w + incrA) w)),
       sh)
  | PcDrainA =>
      (goto PcDrainB
         (log (EvLoadLds (addrLdsA cfg hw))
            (set_fragA
               (load_lds (FragLdsA_size cfg) (fragA w) (lds sh) (addrLdsA cfg hw)) w)),
       sh)
  | PcDrainB =>
      (goto PcDrainMma
         (log (EvLoadLds (addrLdsB cfg hw))
            (set_fragB
               (load_lds (FragLdsB_size cfg) (fragB w) (lds sh) (addrLdsB cfg hw)) w)),
       sh)
  | PcDrainMma =>
      (goto PcLoadC
         (log EvMma
            (set_fragAcc
               (mma_sync (BlockM cfg) (BlockN cfg) (BlockK cfg)
                  (fragA w) (fragB w) (fragAcc w)) w)),
       sh)
  | PcLoadC =>
      let w1 := set_fragC (wmma.fill_fragment (fragC w) (OutputT_0 E)) w in
      if as_bool E (arg_beta args) then
        (goto PcCombine
           (log (EvLoadC addrC)
              (set_fragC
                 (wmma.load_matrix_sync (BlockM cfg) (BlockN cfg) (LayoutC cfg)
                    (fragC w1) (arg_c args) addrC (arg_ldc args)) w1)),
         sh)
      else (goto PcCombine w1, sh)
  | PcCombine =>
      (goto PcStoreD
         (set_fragC
            (fun i =>
               if i <? num_elements cfg
               then OutputT_of_ComputeT E
                      (plus E (times E (arg_alpha args) (fragAcc w i))
                              (times E (arg_beta args)
                                       (ComputeT_of_OutputT E (fragC w i))))
               else fragC w i) w),
       sh)
  | PcStoreD =>
      (goto PcDone (log (EvStoreD addrD) w),
       set_dmem
         (wmma.store_matrix_sync (BlockM cfg) (BlockN cfg) (LayoutD cfg)
            (dmem sh) addrD (fragC w) (arg_ldd args)) sh)
  | PcDone => (w, sh)
  end.

(** A wave runs its statements one after the other until the end of the
    kernel body; [fuel] bounds the number of statements. *)
Fixpoint run (sync : bool) (fuel : nat) (w : Wave E) (sh : Shared E)
  : option (Wave E * Shared E) :=
  match w_pc w with
  | PcDone => Some (w, sh)
  | _ =>
      match fuel with
      | O => None
      | S f => run sync f (fst (step sync w sh)) (snd (step sync w sh))
      end
  end.

(** [exec n]: the state of a wave after [n] statements. *)
Fixpoint exec (sync : bool) (n : nat) (w : Wave E) (sh : Shared E)
  : Wave E * Shared E :=
  match n with
  | O => (w, sh)
  | S n' => exec sync n' (fst (step sync w sh)) (snd (step sync w sh))
  end.

(** The registers of a wave when the kernel starts. *)
Definition wave_init : Wave E :=
  mkWave PcEntry (wmma.fragment (InputT_default E)) (wmma.fragment (InputT_default E))
         (wmma.fragment (InputT_default E)) (wmma.fragment (InputT_default E))
         (wmma.fragment (ComputeT_default E)) (wmma.fragment (OutputT_default E))
         0 0 0 [].

(** One wave executing the kernel on its own. *)
Definition mmaSyncLds (fuel : nat) (sh : Shared E) : option (Wave E * Shared E) :=
  run true fuel wave_init sh.

End Kernel.

(** The same call with other contents of the buffers a and b. *)
Definition set_ab {E : ElemTypes} (a b : Mem (InputT E)) (args : Args E) : Args E :=
  mkArgs (arg_m args) (arg_n args) (arg_k args) a b (arg_c args)
         (arg_lda args) (arg_ldb args) (arg_ldc args) (arg_ldd args)
         (arg_alpha args) (arg_beta args).

(** Exact integers for the three types: the instantiation of the model of
    the first part. *)
Definition Zexact : ElemTypes :=
  mkElemTypes Z Z Z 0%Z 0%Z 0%Z 0%Z 0%Z nonzero
              (fun x => x) (fun x => x) (fun x => x) Z.mul Z.add.

(** InputT = OutputT = ComputeT = double (IEEE binary64): the casts are the
    identity, a scalar is true when it differs from zero (a NaN is true). *)
Definition float64 : ElemTypes :=
  mkElemTypes float float float 0%float 0%float 0%float 0%float 0%float
              (fun x => negb (x =? 0)%float)
              (fun x => x) (fun x => x) (fun x => x) PrimFloat.mul PrimFloat.add.

End Typed.

(** The same call with another buffer c. *)
Definition typed_set_c {E : Typed.ElemTypes} (c : Mem (Typed.OutputT E))
  (args : Typed.Args E) : Typed.Args E :=
  Typed.mkArgs (Typed.arg_m args) (Typed.arg_n args) (Typed.arg_k args)
    (Typed.arg_a args) (Typed.arg_b args) c
    (Typed.arg_lda args) (Typed.arg_ldb args) (Typed.arg_ldc args) (Typed.arg_ldd args)
    (Typed.arg_alpha args) (Typed.arg_beta args).

Definition is_load_c (e : event) : bool :=
  match e with EvLoadC _ => true | _ => false end.

(** ** Launching the kernel *)

Definition Nrange (n : N) : list N := map N.of_nat (seq 0 (N.to_nat n)).

(** Modelled from the spec: the launch of a grid is host code that is not part
    of the kernel source; sections 5 and 6 of the specification describe it.
    A workgroup of [blockDim_x x blockDim_y] threads holds
    [blockDim_x / W] by [blockDim_y] waves; a wave is named by the thread
    indices of its first lane. *)
Definition workgroup_waves (W : N) (bx by_ bdx bdy : N) : list HwIdx :=
  map (fun wc => mkHwIdx bx by_ (fst wc * W) (snd wc) bdx bdy)
      (list_prod (Nrange (bdx / W)) (Nrange bdy)).

(** The waves of a list run the kernel one after the other on the same
    shared state. *)
Fixpoint run_waves (cfg : Config) (args : Args) (fuel : nat)
  (hws : list HwIdx) (sh : Shared) : option Shared :=
  match hws with
  | [] => Some sh
  | hw :: rest =>
      match mmaSyncLds cfg hw args fuel sh with
      | Some (_, sh') => run_waves cfg args fuel rest sh'
      | None => None
      end
  end.

(** Modelled from the spec: a launch runs every workgroup of the grid; each
    workgroup starts with its own shared memory, whose content [lds0] is not
    initialised (host launch code is not part of the kernel source). *)
Fixpoint run_workgroups (cfg : Config) (args : Args) (fuel : nat)
  (bdx bdy : N) (lds0 : Mem Z) (wgs : list (N * N)) (d : Mem Z)
  : option (Mem Z) :=
  match wgs with
  | [] => Some d
  | wg :: rest =>
      match run_waves cfg args fuel
              (workgroup_waves (AMDGCN_WAVE_SIZE cfg) (fst wg) (snd wg) bdx bdy)
              (mkShared lds0 d) with
      | Some sh' => run_workgroups cfg args fuel bdx bdy lds0 rest (dmem sh')
      | None => None
      end
  end.

Definition launch (cfg : Config) (args : Args) (fuel : nat)
  (gdx gdy bdx bdy : N) (lds0 : Mem Z) (d : Mem Z) : option (Mem Z) :=
  run_workgroups cfg args fuel bdx bdy lds0
    (list_prod (Nrange gdx) (Nrange gdy)) d.

(** ** The host reference [gemm_cpu_h] *)

Definition wrap32 (x : N) : N := x mod 2 ^ 32.

(** The index lambdas of [gemm_cpu_h]; their arithmetic is on uint32_t. *)
Definition rowMjr (row col ld : N) : N := wrap32 (row * ld + col).
Definition colMjr (row col ld : N) : N := wrap32 (col * ld + row).

Definition index_of (l : layout) : N -> N -> N -> N :=
  match l with row_major => rowMjr | col_major => colMjr end.

(** [for(i = 0; i < cnt; ++i) s = body i s]. *)
Fixpoint for_upto {S : Type} (cnt : nat) (body : N -> S -> S) (s : S) : S :=
  match cnt with
  | O => s
  | S c => body (N.of_nat c) (for_upto c body s)
  end.

Definition gemm_cpu_h (la lb lc ld : layout) (m n k : N)
  (a b c : Mem Z) (d : Mem Z) (lda ldb ldc ldd : N) (alpha beta : Z) : Mem Z :=
  let aIndex := index_of la in
  let bIndex := index_of lb in
  let cIndex := index_of lc in
  let dIndex := index_of ld in
  for_upto (N.to_nat m) (fun i d =>
    for_upto (N.to_nat n) (fun j d =>
      let accum :=
        sum_upto (fun h => ComputeT (a (aIndex i h lda))
                           * ComputeT (b (bIndex h j ldb)))%Z
                 (N.to_nat k) in
      mem_write d (dIndex i j ldd)
        (OutputT (alpha * accum + beta * ComputeT (c (cIndex i j ldc)))%Z)) d) d.

(** ** The comparator [compareEqual] of [samples/common.hpp]

    [double] is the binary64 type of the machine ([float] below).  The
    element type [DataT] is a template parameter: it is given by the lambda
    [toDouble] (through [float], then [double]), by the implicit conversion
    of a [DataT] value into the [double] result, and by the three values of
    [std::numeric_limits<DataT>] the function reads.

    The loop is an OpenMP parallel loop.  Its iterations are handed out to
    threads; a thread runs its iterations in order, and [i = size] at the end
    of an iteration makes it leave the loop or not, as the compiler has it
    ([exits] below).  The shared variables are the
    two flags, raised atomically, and the maximum, raised under the mutex
    after the second test, so that a body acts on them in one step; the
    threads interleave between a body and the exit test that follows it. *)

Record DataType (T : Type) : Type := mkDataType
  { toDouble : T -> float;
    as_double : T -> float;
    limits_epsilon : T;
    limits_infinity : T;
    limits_signaling_NaN : T }.

Arguments toDouble {T} _ _.
Arguments as_double {T} _ _.
Arguments limits_epsilon {T} _.
Arguments limits_infinity {T} _.
Arguments limits_signaling_NaN {T} _.

(** The three variables shared by the iterations of the loop. *)
Record CompareState : Type := mkCompareState
  { isInf : bool; isNaN : bool; max_relative_error : float }.

(** One thread of the parallel loop: the iterations it still has to run, in
    the order of its loop, and whether it stands between the body of an
    iteration and the test [if(isInf || isNaN)] that closes it. *)
Record OmpThread : Type := mkOmpThread {
  at_exit_test : bool;
  iterations : list N
}.

Definition thread_done (th : OmpThread) : bool :=
  negb (at_exit_test th) && match iterations th with [] => true | _ => false end.

Definition upd_thread (ths : nat -> OmpThread) (t : nat) (th : OmpThread)
  : nat -> OmpThread :=
  fun u => if Nat.eqb u t then th else ths u.

Section CompareEqual.
Context {T : Type} (D : DataType T).

(** Whether the assignment [i = size] ends the loop of the thread that
    executes it.  It does when the pragma is ignored (a build without
    OpenMP) and when the OpenMP runtime iterates on [i] itself; it does not
    when the runtime keeps a counter of its own and sets [i] from it at the
    start of each iteration.  The source leaves this to the compiler. *)
Variable exits : bool.

Definition numerator (valA valB : T) : float :=
  abs (toDouble D valA - toDouble D valB).

Definition divisor (valA valB : T) : float :=
  (abs (toDouble D valA) + abs (toDouble D valB) + 1)%float.

Definition relative_error (valA valB : T) : float :=
  (numerator valA valB / divisor valA valB)%float.

(** The body of one iteration, up to the exit test [if(isInf || isNaN)]. *)
Definition compare_body (st : CompareState) (valA valB : T) : CompareState :=
  if is_infinity (numerator valA valB) || is_infinity (divisor valA valB)
  then mkCompareState true (isNaN st) (max_relative_error st)
  else
    if is_nan (relative_error valA valB)
    then mkCompareState (isInf st) true (max_relative_error st)
    else
      if (max_relative_error st <? relative_error valA valB)%float
      then mkCompareState (isInf st) (isNaN st) (relative_error valA valB)
      else st.

(** Thread [t] moves on: it runs the body of its next iteration on the
    shared variables, or it runs the exit test, where [i = size] drops what
    is left of its iterations when [exits] holds. *)
Definition omp_step (a b : Mem T) (n : nat) (t : nat)
  (ths : nat -> OmpThread) (st : CompareState) : (nat -> OmpThread) * CompareState :=
  if (t <? n)%nat then
    if at_exit_test (ths t) then
      (upd_thread ths t
         (mkOmpThread false
            (if exits && (isInf st || isNaN st) then [] else iterations (ths t))),
       st)
    else
      match iterations (ths t) with
      | [] => (ths, st)
      | i :: rest =>
          (upd_thread ths t (mkOmpThread true rest), compare_body st (a i) (b i))
      end
  else (ths, st).

(** A schedule is the list of the threads picked, in order. *)
Fixpoint omp_run (a b : Mem T) (n : nat) (schedule : list nat)
  (ths : nat -> OmpThread) (st : CompareState) : (nat -> OmpThread) * CompareState :=
  match schedule with
  | [] => (ths, st)
  | t :: rest =>
      omp_run a b n rest (fst (omp_step a b n t ths st)) (snd (omp_step a b n t ths st))
  end.

Definition omp_done (n : nat) (ths : nat -> OmpThread) : bool :=
  forallb (fun t => thread_done (ths t)) (seq 0 n).

(** [#pragma omp parallel for] hands the iterations out in [chunks], one
    list per thread; the loop test [i < size] guards each of them. *)
Definition omp_start (size : N) (chunks : list (list N)) : nat -> OmpThread :=
  fun t => mkOmpThread false (filter (fun i => i <? size) (nth t chunks [])).

(** The statements after the loop. *)
Definition compare_result (st : CompareState) (tolerance : float) : bool * float :=
  let eps := toDouble D (limits_epsilon D) in
  if isInf st then (false, as_double D (limits_infinity D))
  else if isNaN st then (false, as_double D (limits_signaling_NaN D))
  else if (eps * tolerance <? max_relative_error st)%float
       then (false, max_relative_error st)
       else (true, max_relative_error st).

(** [compareEqual] under one distribution of the iterations and one
    schedule of the threads; [None] when the schedule ends before the
    threads do. *)
Definition compareEqual (a b : Mem T) (size : N) (tolerance : float)
  (chunks : list (list N)) (schedule : list nat) : option (bool * float) :=
  let run := omp_run a b (length chunks) schedule (omp_start size chunks)
               (mkCompareState false false 0) in
  if omp_done (length chunks) (fst run)
  then Some (compare_result (snd run) tolerance)
  else None.

(** The default argument [tolerance = 10.0]. *)
Definition compareEqual_default (a b : Mem T) (size : N)
  (chunks : list (list N)) (schedule : list nat) : option (bool * float) :=
  compareEqual a b size 10 chunks schedule.

(** The two ways in which a pair of elements raises a flag, the update of
    the maximum, and the values a [double] comparison cannot order. *)
Definition pair_inf (valA valB : T) : bool :=
  is_infinity (numerator valA valB) || is_infinity (divisor valA valB).

Definition pair_bad (valA valB : T) : bool :=
  pair_inf valA valB || is_nan (relative_error valA valB).

Definition raise_max (m r : float) : float := if (m <? r)%float then r else m.

Definition nonfinite (x : float) : bool := is_infinity x || is_nan x.

End CompareEqual.

(** An order embedding of the binary64 values that are not NaN: sign class,
    then exponent, then mantissa, both reversed below zero. *)
Definition SFrank (x : spec_float) : Z * Z * Z :=
  match x with
  | S754_zero _ => (0, 0, 0)%Z
  | S754_infinity s => (if s then (-2) else 2, 0, 0)%Z
  | S754_nan => (0, 0, 0)%Z
  | S754_finite s m e => if s then (-1, - e, Z.neg m)%Z else (1, e, Z.pos m)%Z
  end.

Definition lex_compare (p q : Z * Z * Z) : comparison :=
  let '(a, b, c) := p in
  let '(a', b', c') := q in
  match (a ?= a')%Z with
  | Eq => match (b ?= b')%Z with
          | Eq => (c ?= c')%Z
          | r => r
          end
  | r => r
  end.

(* ================================================================== *)
(** ** [fillRand]

    [fillRand] writes [mat[i * n + j]] for [i < m] and [j < n].  Its rows
    are the iterations of an OpenMP parallel loop: the source does not fix
    the order in which the cells are written, and the model takes that
    order as a list of cells.  [rand_row i] is what [rand()] returns for row
    [i]; [is_signed] is [std::is_signed<DataT>::value].  The values written
    are the integers 0 to 4 and their opposites, which every element type
    holds exactly; they are integers here (the opposite of 0 is 0). *)
Definition fillRand_value (is_signed : bool) (rand_row : N -> N) (i j : N) : Z :=
  let rando := rand_row i mod 5 in
  let value := wrap32 (rando + j) mod 5 in
  if (value mod 3 =? 0) && is_signed then (- Z.of_N value)%Z else Z.of_N value.

Definition fillRand_cell (is_signed : bool) (rand_row : N -> N) (n : N)
  (mat : Mem Z) (ij : N * N) : Mem Z :=
  mem_write mat (wrap32 (fst ij * n + snd ij))
    (fillRand_value is_signed rand_row (fst ij) (snd ij)).

Definition fillRand (is_signed : bool) (rand_row : N -> N) (n : N)
  (cells : list (N * N)) (mat : Mem Z) : Mem Z :=
  fold_left (fillRand_cell is_signed rand_row n) cells mat.

(** The cells in the order of a run on one thread. *)
Definition fillRand_cells (m n : N) : list (N * N) := list_prod (Nrange m) (Nrange n).

(** ** Device queries and [canRun]

    [hipGetDeviceProperties] is the environment: the two properties that
    the helpers read, [warpSize] and [gcnArchName], are arguments here, and
    the calls are taken to succeed ([CHECK_HIP_ERROR] exits otherwise). *)
Module Host.

(** [deviceName.find(s) != std::string::npos] *)
Definition find (s deviceName : string) : bool :=
  match String.index 0 s deviceName with Some _ => true | None => false end.

Definition isGfx9 (gcnArchName : string) : bool :=
  find "gfx908" gcnArchName || find "gfx90a" gcnArchName || find "gfx940" gcnArchName
  || find "gfx941" gcnArchName || find "gfx942" gcnArchName.

(** [enum hipWarpSize_t : uint32_t]: the enumerator after [Wave64 = 64]
    has the value 65. *)
Definition Wave32 : N := 32.
Definition Wave64 : N := 64.
Definition UNSUPPORTED_WARP_SIZE : N := 65.

(** [None] stands for [exit(EXIT_FAILURE)]. *)
Definition getWarpSize (warpSize : N) : option N :=
  let mWarpSize :=
    if (warpSize =? Wave32) || (warpSize =? Wave64) then warpSize
    else UNSUPPORTED_WARP_SIZE in
  if mWarpSize =? UNSUPPORTED_WARP_SIZE then None else Some mWarpSize.

(** [rocwmma::Constants::AMDGCN_ARCH_ID_*]; the constants are distinct. *)
Inductive ArchId : Type :=
| AMDGCN_ARCH_ID_NONE
| AMDGCN_ARCH_ID_GFX908 | AMDGCN_ARCH_ID_GFX90A
| AMDGCN_ARCH_ID_GFX940 | AMDGCN_ARCH_ID_GFX941 | AMDGCN_ARCH_ID_GFX942
| AMDGCN_ARCH_ID_GFX1100 | AMDGCN_ARCH_ID_GFX1101 | AMDGCN_ARCH_ID_GFX1102.

Definition ArchId_eqb (x y : ArchId) : bool :=
  match x, y with
  | AMDGCN_ARCH_ID_NONE, AMDGCN_ARCH_ID_NONE
  | AMDGCN_ARCH_ID_GFX908, AMDGCN_ARCH_ID_GFX908
  | AMDGCN_ARCH_ID_GFX90A, AMDGCN_ARCH_ID_GFX90A
  | AMDGCN_ARCH_ID_GFX940, AMDGCN_ARCH_ID_GFX940
  | AMDGCN_ARCH_ID_GFX941, AMDGCN_ARCH_ID_GFX941
  | AMDGCN_ARCH_ID_GFX942, AMDGCN_ARCH_ID_GFX942
  | AMDGCN_ARCH_ID_GFX1100, AMDGCN_ARCH_ID_GFX1100
  | AMDGCN_ARCH_ID_GFX1101, AMDGCN_ARCH_ID_GFX1101
  | AMDGCN_ARCH_ID_GFX1102, AMDGCN_ARCH_ID_GFX1102 => true
  | _, _ => false
  end.

Definition getGCNArchId (gcnArchName : string) : ArchId :=
  if find "gfx908" gcnArchName then AMDGCN_ARCH_ID_GFX908
  else if find "gfx90a" gcnArchName then AMDGCN_ARCH_ID_GFX90A
  else if find "gfx940" gcnArchName then AMDGCN_ARCH_ID_GFX940
  else if find "gfx941" gcnArchName then AMDGCN_ARCH_ID_GFX941
  else if find "gfx942" gcnArchName then AMDGCN_ARCH_ID_GFX942
  else if find "gfx1100" gcnArchName then AMDGCN_ARCH_ID_GFX1100
  else if find "gfx1101" gcnArchName then AMDGCN_ARCH_ID_GFX1101
  else if find "gfx1102" gcnArchName then AMDGCN_ARCH_ID_GFX1102
  else AMDGCN_ARCH_ID_NONE.

(** The types that [canRun] tells apart by [std::is_same_v]; [other_t] is
    any other type. *)
Inductive elem_type : Type :=
| int8_t | float8_t | bfloat8_t | float16_t | hfloat16_t | bfloat16_t
| float32_t | xfloat32_t | float64_t | other_t.

Definition is_same_v (x y : elem_type) : bool :=
  match x, y with
  | int8_t, int8_t | float8_t, float8_t | bfloat8_t, bfloat8_t
  | float16_t, float16_t | hfloat16_t, hfloat16_t | bfloat16_t, bfloat16_t
  | float32_t, float32_t | xfloat32_t, xfloat32_t | float64_t, float64_t => true
  | _, _ => false
  end.

Definition AMDGCN_WAVE_SIZE_32 : N := 32.
Definition AMDGCN_WAVE_SIZE_64 : N := 64.

(** [canRun]; its arguments are uint32_t, so [TBlockX * TBlockY] is the
    product modulo 2^32.  OutputT and ComputeT are not read, nor are
    BlocksX and BlocksY. *)
Definition canRun (warpSize : N) (gcnArchName : string) (InputT : elem_type)
  (BlockM BlockN BlockK TBlockX TBlockY BlocksX BlocksY : N) : option bool :=
  match getWarpSize warpSize with
  | None => None
  | Some WaveSize =>
      let ArchId := getGCNArchId gcnArchName in
      let IsWave32 := WaveSize =? AMDGCN_WAVE_SIZE_32 in
      let IsWave64 := WaveSize =? AMDGCN_WAVE_SIZE_64 in
      let IsGfx908 := ArchId_eqb ArchId AMDGCN_ARCH_ID_GFX908 in
      let IsGfx90A := ArchId_eqb ArchId AMDGCN_ARCH_ID_GFX90A in
      let IsGfx940 := ArchId_eqb ArchId AMDGCN_ARCH_ID_GFX940 in
      let IsGfx941 := ArchId_eqb ArchId AMDGCN_ARCH_ID_GFX941 in
      let IsGfx942 := ArchId_eqb ArchId AMDGCN_ARCH_ID_GFX942 in
      let IsGfx1100 := ArchId_eqb ArchId AMDGCN_ARCH_ID_GFX1100 in
      let IsGfx1101 := ArchId_eqb ArchId AMDGCN_ARCH_ID_GFX1101 in
      let IsGfx1102 := ArchId_eqb ArchId AMDGCN_ARCH_ID_GFX1102 in
      let IsGfx9 := IsGfx908 || IsGfx90A || IsGfx940 || IsGfx941 || IsGfx942 in
      let IsGfx11 := IsGfx1100 || IsGfx1101 || IsGfx1102 in
      let IsInputTInt8 := is_same_v InputT int8_t in
      let IsInputTFloat8 := is_same_v InputT float8_t in
      let IsInputTBFloat8 := is_same_v InputT bfloat8_t in
      let IsInputTFloat16 := is_same_v InputT float16_t || is_same_v InputT hfloat16_t in
      let IsInputTBFloat16 := is_same_v InputT bfloat16_t in
      let IsInputTFloat32 := is_same_v InputT float32_t in
      let IsInputTXFloat32 := is_same_v InputT xfloat32_t in
      let IsInputTFloat64 := is_same_v InputT float64_t in
      let isBlockMN16 := (BlockM =? 16) && (BlockN =? 16) in
      let isBlockMN32 := (BlockM =? 32) && (BlockN =? 32) in
      let TBlockXTest := TBlockX mod WaveSize =? 0 in
      let MinTBlockTest := (WaveSize <=? TBlockX) && (1 <=? TBlockY) in
      let ArchTest := IsGfx9 || IsGfx11 in
      let EnableRun := TBlockXTest && MinTBlockTest && ArchTest in
      let EnableGfx9 :=
        let ArchTestGfx9 := IsGfx9 in
        let WaveSizeTest := IsWave64 in
        let TBlockTest :=
          (AMDGCN_WAVE_SIZE_64 <=? wrap32 (TBlockX * TBlockY))
          && (wrap32 (TBlockX * TBlockY) <=? 1024) in
        let InputTypesTest :=
          IsInputTFloat8 || IsInputTBFloat8 || IsInputTInt8 || IsInputTFloat16
          || IsInputTBFloat16 || IsInputTFloat32 || IsInputTXFloat32 || IsInputTFloat64 in
        let F8XF32ArchTest :=
          negb (IsInputTFloat8 || IsInputTBFloat8 || IsInputTXFloat32)
          || IsGfx940 || IsGfx941 || IsGfx942 in
        let F64ArchTest := negb IsInputTFloat64 || negb IsGfx908 in
        let I8BlockSizeTest :=
          negb IsInputTInt8
          || (isBlockMN16 && (16 <=? BlockK) && (BlockK mod 16 =? 0))
          || (isBlockMN32 && (8 <=? BlockK) && (BlockK mod 8 =? 0)) in
        let Gfx940I8BlockSizeTest :=
          negb (IsInputTInt8 && (IsGfx940 || IsGfx941 || IsGfx942))
          || (isBlockMN16 && (32 <=? BlockK) && (BlockK mod 32 =? 0))
          || (isBlockMN32 && (16 <=? BlockK) && (BlockK mod 16 =? 0)) in
        let F8BlockSizeTest :=
          negb (IsInputTFloat8 || IsInputTBFloat8)
          || (isBlockMN16 && (32 <=? BlockK) && (BlockK mod 32 =? 0))
          || (isBlockMN32 && (16 <=? BlockK) && (BlockK mod 16 =? 0)) in
        let F16BlockSizeTest :=
          negb (IsInputTFloat16 || IsInputTBFloat16)
          || (isBlockMN16 && (16 <=? BlockK) && (BlockK mod 16 =? 0))
          || (isBlockMN32 && (8 <=? BlockK) && (BlockK mod 8 =? 0)) in
        let Gfx908BF16BlockSizeTest :=
          negb (IsInputTBFloat16 && IsGfx908)
          || (isBlockMN16 && (8 <=? BlockK) && (BlockK mod 8 =? 0))
          || (isBlockMN32 && (4 <=? BlockK) && (BlockK mod 4 =? 0)) in
        let F32BlockSizeTest :=
          negb IsInputTFloat32
          || (isBlockMN16 && (4 <=? BlockK) && (BlockK mod 4 =? 0))
          || (isBlockMN32 && (2 <=? BlockK) && (BlockK mod 2 =? 0)) in
        let XF32BlockSizeTest :=
          negb IsInputTXFloat32
          || (isBlockMN16 && (8 <=? BlockK) && (BlockK mod 8 =? 0))
          || (isBlockMN32 && (4 <=? BlockK) && (BlockK mod 4 =? 0)) in
        let F64BlockSizeTest :=
          negb IsInputTFloat64
          || (isBlockMN16 && (4 <=? BlockK) && (BlockK mod 4 =? 0)) in
        ArchTestGfx9 && WaveSizeTest && TBlockTest && InputTypesTest && F8XF32ArchTest
        && F64ArchTest && I8BlockSizeTest && Gfx940I8BlockSizeTest && F8BlockSizeTest
        && F16BlockSizeTest && Gfx908BF16BlockSizeTest && F32BlockSizeTest
        && XF32BlockSizeTest && F64BlockSizeTest in
      let EnableGfx11 :=
        let ArchTestGfx11 := IsGfx11 in
        let WaveSizeTest := IsWave32 in
        let TBlockTest :=
          (AMDGCN_WAVE_SIZE_32 <=? wrap32 (TBlockX * TBlockY))
          && (wrap32 (TBlockX * TBlockY) <=? 1024) in
        let InputTypesTest := IsInputTInt8 || IsInputTFloat16 || IsInputTBFloat16 in
        let I8BlockSizeTest :=
          negb IsInputTInt8
          || (isBlockMN16 && (16 <=? BlockK) && (BlockK mod 16 =? 0)) in
        let F16BlockSizeTest :=
          negb (IsInputTFloat16 || IsInputTBFloat16)
          || (isBlockMN16 && (16 <=? BlockK) && (BlockK mod 16 =? 0)) in
        ArchTestGfx11 && WaveSizeTest && TBlockTest && InputTypesTest && I8BlockSizeTest
        && F16BlockSizeTest in
      Some (EnableRun && (EnableGfx9 || EnableGfx11))
  end.

End Host.

(** * Properties *)

(** ** Buffers *)

Lemma divmod_spec (p c : N) :
  0 < c -> p = c * (p / c) + p mod c /\ p mod c < c.
Proof.
  intros Hc. split.
  - apply N.div_mod. lia.
  - apply N.mod_lt. lia.
Qed.

Lemma mem_write_same {T : Type} (mem : Mem T) (addr : N) (v : T) :
  mem_write mem addr v addr = v.
Proof. unfold mem_write. now rewrite N.eqb_refl. Qed.

Lemma mem_write_other {T : Type} (mem : Mem T) (addr x : N) (v : T) :
  x <> addr -> mem_write mem addr v x = mem x.
Proof.
  intros H. unfold mem_write. destruct (N.eqb_spec x addr); congruence.
Qed.

Lemma store_elems_outside {T : Type} (f : N -> N) (frag : Frag T) (cnt : nat)
  (mem : Mem T) (x : N) :
  (forall p, p < N.of_nat cnt -> f p <> x) ->
  store_elems f frag cnt mem x = mem x.
Proof.
  induction cnt as [|c IH]; intros H; cbn [store_elems]; [reflexivity|].
  rewrite mem_write_other.
  - apply IH. intros p Hp. apply H. lia.
  - intros E. apply (H (N.of_nat c)); [lia | congruence].
Qed.

Lemma store_elems_inside {T : Type} (f : N -> N) (frag : Frag T) (cnt : nat)
  (mem : Mem T) (p : N) :
  (forall q q', q < N.of_nat cnt -> q' < N.of_nat cnt -> f q = f q' -> q = q') ->
  p < N.of_nat cnt ->
  store_elems f frag cnt mem (f p) = frag p.
Proof.
  induction cnt as [|c IH]; intros Hinj Hp; [lia|].
  cbn [store_elems].
  destruct (N.eq_dec p (N.of_nat c)) as [->|Hne].
  - apply mem_write_same.
  - rewrite mem_write_other.
    + apply IH; [|lia]. intros q q' Hq Hq'. apply Hinj; lia.
    + intros E. apply Hne. apply Hinj; [lia | lia | exact E].
Qed.

(** A store never reads the buffer it writes: every cell is either left as
    it was or receives a value that does not depend on the old content. *)
Lemma store_elems_cases {T : Type} (f : N -> N) (frag : Frag T) (cnt : nat) (x : N) :
  (forall mem, store_elems f frag cnt mem x = mem x) \/
  (exists v, forall mem, store_elems f frag cnt mem x = v).
Proof.
  induction cnt as [|c IH]; [left; reflexivity|].
  destruct (N.eq_dec x (f (N.of_nat c))) as [->|Hne].
  - right. exists (frag (N.of_nat c)). intros mem. cbn [store_elems].
    apply mem_write_same.
  - destruct IH as [IH|[v IH]].
    + left. intros mem. cbn [store_elems]. now rewrite mem_write_other.
    + right. exists v. intros mem. cbn [store_elems]. now rewrite mem_write_other.
Qed.

(** Two stores of the same fragment at the same place agree wherever the two
    buffers agreed before. *)
Lemma store_elems_agree {T : Type} (f : N -> N) (frag : Frag T) (cnt : nat)
  (mem mem' : Mem T) (x : N) :
  mem x = mem' x ->
  store_elems f frag cnt mem x = store_elems f frag cnt mem' x.
Proof.
  intros H. destruct (store_elems_cases f frag cnt x) as [E|[v E]].
  - now rewrite !E.
  - now rewrite !E.
Qed.

(** ** Addresses inside a tile *)

(** A leading dimension that keeps the lines of a [rows x cols] matrix
    apart. *)
Definition ld_ok (l : layout) (rows cols ld : N) : Prop :=
  match l with
  | row_major => cols <= ld
  | col_major => rows <= ld
  end.

Lemma dataOffset_inj (l : layout) (ld rows cols : N) (i j i' j' : N) :
  ld_ok l rows cols ld ->
  i < rows -> j < cols -> i' < rows -> j' < cols ->
  MappingUtil.dataOffset l ld (i, j) = MappingUtil.dataOffset l ld (i', j') ->
  i = i' /\ j = j'.
Proof.
  unfold ld_ok, MappingUtil.dataOffset. cbn [fst snd].
  destruct l; intros Hld Hi Hj Hi' Hj' E.
  - assert (i = i') by nia. subst. split; [reflexivity | lia].
  - assert (j = j') by nia. subst. split; [lia | reflexivity].
Qed.

Lemma tileCoord_lt (rows cols p : N) :
  0 < cols -> p < rows * cols ->
  fst (wmma.tileCoord cols p) < rows /\ snd (wmma.tileCoord cols p) < cols.
Proof.
  intros Hc Hp. unfold wmma.tileCoord. cbn [fst snd].
  destruct (divmod_spec p cols Hc) as [E L].
  split; [|exact L].
  apply N.Div0.div_lt_upper_bound; lia.
Qed.

Lemma tileCoord_flat (cols i j : N) :
  j < cols -> wmma.tileCoord cols (i * cols + j) = (i, j).
Proof.
  intros Hj. unfold wmma.tileCoord. f_equal.
  - rewrite N.div_add_l by lia. rewrite N.div_small by lia. lia.
  - rewrite N.add_comm, N.Div0.mod_add. now apply N.mod_small.
Qed.

Lemma tileCoord_inj (cols p q : N) :
  0 < cols -> wmma.tileCoord cols p = wmma.tileCoord cols q -> p = q.
Proof.
  intros Hc E. unfold wmma.tileCoord in E. injection E as E1 E2.
  destruct (divmod_spec p cols Hc) as [Ep _], (divmod_spec q cols Hc) as [Eq _].
  rewrite Ep, Eq, E1, E2. reflexivity.
Qed.

(** The addresses of the elements of a tile are pairwise different. *)
Lemma tile_addr_inj (l : layout) (base ld rows cols p q : N) :
  0 < cols -> ld_ok l rows cols ld ->
  p < rows * cols -> q < rows * cols ->
  MappingUtil.dataCoord l base ld (wmma.tileCoord cols p)
  = MappingUtil.dataCoord l base ld (wmma.tileCoord cols q) ->
  p = q.
Proof.
  intros Hc Hld Hp Hq E. unfold MappingUtil.dataCoord in E.
  apply N.add_cancel_l in E.
  destruct (tileCoord_lt rows cols p Hc Hp) as [Hp1 Hp2].
  destruct (tileCoord_lt rows cols q Hc Hq) as [Hq1 Hq2].
  apply (tileCoord_inj cols p q Hc).
  destruct (wmma.tileCoord cols p) as [i j], (wmma.tileCoord cols q) as [i' j'].
  cbn [fst snd] in *.
  destruct (dataOffset_inj l ld rows cols _ _ _ _ Hld Hp1 Hp2 Hq1 Hq2 E). congruence.
Qed.

(** Reading back what [store_matrix_sync] wrote. *)
Lemma store_matrix_sync_inside {T : Type} (rows cols : N) (l : layout)
  (mem : Mem T) (addr : N) (frag : Frag T) (ld p : N) :
  0 < cols -> ld_ok l rows cols ld -> p < rows * cols ->
  wmma.store_matrix_sync rows cols l mem addr frag ld
    (MappingUtil.dataCoord l addr ld (wmma.tileCoord cols p)) = frag p.
Proof.
  intros Hc Hld Hp. unfold wmma.store_matrix_sync.
  apply (store_elems_inside
           (fun p => MappingUtil.dataCoord l addr ld (wmma.tileCoord cols p))).
  - intros q q' Hq Hq'. rewrite N2Nat.id in Hq, Hq'.
    now apply tile_addr_inj with (rows := rows).
  - now rewrite N2Nat.id.
Qed.

Lemma store_matrix_sync_outside {T : Type} (rows cols : N) (l : layout)
  (mem : Mem T) (addr : N) (frag : Frag T) (ld x : N) :
  (forall p, p < rows * cols ->
             MappingUtil.dataCoord l addr ld (wmma.tileCoord cols p) <> x) ->
  wmma.store_matrix_sync rows cols l mem addr frag ld x = mem x.
Proof.
  intros H. unfold wmma.store_matrix_sync. apply store_elems_outside.
  intros p Hp. rewrite N2Nat.id in Hp. now apply H.
Qed.

(** ** Sums *)

Lemma sum_upto_ext (f g : N -> Z) (cnt : nat) :
  (forall h, h < N.of_nat cnt -> f h = g h) -> sum_upto f cnt = sum_upto g cnt.
Proof.
  induction cnt as [|c IH]; intros H; cbn [sum_upto]; [reflexivity|].
  rewrite IH, H; [reflexivity | lia |]. intros h Hh. apply H. lia.
Qed.

Lemma sum_upto_add (f : N -> Z) (c1 c2 : nat) :
  sum_upto f (c1 + c2)
  = (sum_upto f c1 + sum_upto (fun h => f (N.of_nat c1 + h)%N) c2)%Z.
Proof.
  induction c2 as [|c IH].
  - rewrite Nat.add_0_r. cbn [sum_upto]. lia.
  - rewrite Nat.add_succ_r. cbn [sum_upto]. rewrite IH.
    rewrite Nat2N.inj_add. lia.
Qed.

Lemma sum_upto_shift (f : N -> Z) (acc : Z) (c1 c2 : nat) :
  acc = sum_upto f c1 ->
  (acc + sum_upto (fun h => f (N.of_nat c1 + h)%N) c2)%Z = sum_upto f (c1 + c2).
Proof. intros ->. now rewrite sum_upto_add. Qed.

(** ** Counting events *)

Lemma count_app (P : event -> bool) (tr1 tr2 : list event) :
  count P (tr1 ++ tr2) = (count P tr1 + count P tr2)%nat.
Proof. unfold count. now rewrite filter_app, length_app. Qed.

Lemma count_snoc (P : event -> bool) (tr : list event) (e : event) :
  count P (tr ++ [e]) = (count P tr + (if P e then 1 else 0))%nat.
Proof. rewrite count_app. unfold count. cbn. now destruct (P e). Qed.

(** ** The view of the buffers as matrices *)

Section Matrices.

Variable cfg : Config.
Variable args : Args.

Definition matA (i h : N) : Z :=
  arg_a args (MappingUtil.dataOffset (LayoutA cfg) (arg_lda args) (i, h)).
Definition matB (h j : N) : Z :=
  arg_b args (MappingUtil.dataOffset (LayoutB cfg) (arg_ldb args) (h, j)).
Definition matC (i j : N) : Z :=
  arg_c args (MappingUtil.dataOffset (LayoutC cfg) (arg_ldc args) (i, j)).

(** The first [cnt] terms of the inner product of row [i] of A and column
    [j] of B. *)
Definition dot (i j : N) (cnt : nat) : Z :=
  sum_upto (fun h => matA i h * matB h j)%Z cnt.

(** The value of element [(i, j)] of [alpha * A.B + beta * C], the
    reduction being over the first [kk] columns of A. *)
Definition gemm_elem (kk : N) (i j : N) : Z :=
  (arg_alpha args * dot i j (N.to_nat kk) + arg_beta args * matC i j)%Z.

End Matrices.

(** ** The shared-memory slots of a wave *)

Section Slots.

Variable cfg : Config.
Variable hw : HwIdx.

(** Address of element [p] of the wave's register file of A (of B) in
    shared memory. *)
Definition ldsA_addr (p : N) : N :=
  MappingUtil.dataCoord row_major (addrLdsA cfg hw) (ldLds cfg hw)
    (wmma.tileCoord (registerFileWidth cfg) p).
Definition ldsB_addr (p : N) : N :=
  MappingUtil.dataCoord row_major (addrLdsB cfg hw) (ldLds cfg hw)
    (wmma.tileCoord (registerFileWidth cfg) p).

(** A workgroup shape that the mapping supports: the wave belongs to the
    workgroup and the x extent is a whole number of waves. *)
Definition hw_ok : Prop :=
  threadIdx_x hw < blockDim_x hw /\
  threadIdx_y hw < blockDim_y hw /\
  blockDim_x hw mod registerFileWidth cfg = 0.

Hypothesis HW : 0 < registerFileWidth cfg.
Hypothesis Hhw : hw_ok.

Lemma waveCoord_lt :
  fst (MappingUtil.waveCoord (registerFileWidth cfg) hw) < fst (workgroupDim cfg hw) /\
  snd (MappingUtil.waveCoord (registerFileWidth cfg) hw) < snd (workgroupDim cfg hw).
Proof.
  destruct Hhw as (Hx & Hy & Hm).
  unfold MappingUtil.waveCoord, workgroupDim, MappingUtil.workgroupDim.
  cbn [fst snd]. split; [|exact Hy].
  apply N.Div0.div_lt_upper_bound.
  destruct (divmod_spec (blockDim_x hw) (registerFileWidth cfg) HW) as [E _].
  rewrite Hm in E. lia.
Qed.

Lemma ldLds_ge : registerFileWidth cfg <= ldLds cfg hw.
Proof.
  destruct waveCoord_lt as [_ Hy]. unfold ldLds.
  assert (1 <= snd (workgroupDim cfg hw)) by lia. nia.
Qed.

(** Both slots are read back as they were written. *)
Lemma lds_addr_inj (base size p q : N) :
  p < size * registerFileWidth cfg -> q < size * registerFileWidth cfg ->
  MappingUtil.dataCoord row_major base (ldLds cfg hw)
    (wmma.tileCoord (registerFileWidth cfg) p)
  = MappingUtil.dataCoord row_major base (ldLds cfg hw)
      (wmma.tileCoord (registerFileWidth cfg) q) ->
  p = q.
Proof.
  intros Hp Hq. apply tile_addr_inj with (rows := size); auto.
  exact ldLds_ge.
Qed.

(** Row and column of an element of a slot inside its region. *)
Lemma slot_bounds (size rows0 p : N) :
  p < size * registerFileWidth cfg ->
  let wc := MappingUtil.waveCoord (registerFileWidth cfg) hw in
  let row := fst wc * rows0 + p / registerFileWidth cfg in
  let col := snd wc * registerFileWidth cfg + p mod registerFileWidth cfg in
  MappingUtil.dataOffset row_major (ldLds cfg hw)
    (MappingUtil.matrixCoord rows0 (registerFileWidth cfg) wc)
  + MappingUtil.dataOffset row_major (ldLds cfg hw)
      (wmma.tileCoord (registerFileWidth cfg) p)
  = row * ldLds cfg hw + col
  /\ row < fst wc * rows0 + size /\ col < ldLds cfg hw.
Proof.
  intros Hp wc row col. subst row col.
  destruct waveCoord_lt as [Hx Hy]. fold wc in Hx, Hy.
  destruct (tileCoord_lt size _ p HW Hp) as [H1 H2].
  unfold MappingUtil.dataOffset, MappingUtil.matrixCoord, wmma.tileCoord in *.
  cbn [fst snd] in *. unfold ldLds.
  split; [lia|]. split; [lia|].
  assert (snd wc + 1 <= snd (workgroupDim cfg hw)) by lia. nia.
Qed.

Hypothesis Hasrt : static_asserts cfg = true.

Lemma asserts_eqs :
  FragA_size cfg * 64 = BlockM cfg * BlockK cfg /\
  FragLdsA_size cfg = FragA_size cfg /\
  FragB_size cfg * 64 = BlockK cfg * BlockN cfg /\
  FragLdsB_size cfg = FragB_size cfg.
Proof.
  unfold static_asserts in Hasrt.
  apply andb_prop in Hasrt as [H H4]. apply andb_prop in H as [H H3].
  apply andb_prop in H as [H1 H2].
  apply N.eqb_eq in H1, H2, H3, H4. auto.
Qed.

(** The A slot of the wave lies inside the A region ... *)
Lemma ldsA_addr_range (p : N) :
  p < FragLdsA_size cfg * registerFileWidth cfg ->
  baseAddrLdsA <= ldsA_addr p /\ ldsA_addr p < baseAddrLdsB cfg hw.
Proof.
  intros Hp. destruct asserts_eqs as (_ & E & _ & _).
  destruct waveCoord_lt as [Hx _].
  destruct (slot_bounds (FragLdsA_size cfg) (FragA_size cfg) p Hp) as (Ea & Hr & Hc).
  unfold ldsA_addr, addrLdsA, MappingUtil.dataCoord, matrixCoordLdsA,
    baseAddrLdsB, baseAddrLdsA in *.
  split; [lia|]. rewrite <- N.add_assoc, Ea.
  set (wc := MappingUtil.waveCoord (registerFileWidth cfg) hw) in *.
  assert (fst wc + 1 <= fst (workgroupDim cfg hw)) by lia.
  rewrite <- E in Hr.
  assert (fst wc * FragLdsA_size cfg + p / registerFileWidth cfg + 1
          <= fst (workgroupDim cfg hw) * FragLdsA_size cfg) by nia.
  nia.
Qed.

(** ... and its B slot inside the B region, which starts where the A
    region ends. *)
Lemma ldsB_addr_range (p : N) :
  p < FragLdsB_size cfg * registerFileWidth cfg ->
  baseAddrLdsB cfg hw <= ldsB_addr p /\
  ldsB_addr p < baseAddrLdsB cfg hw
                + fst (workgroupDim cfg hw) * FragLdsB_size cfg * ldLds cfg hw.
Proof.
  intros Hp. destruct asserts_eqs as (_ & _ & _ & E).
  destruct waveCoord_lt as [Hx _].
  destruct (slot_bounds (FragLdsB_size cfg) (FragB_size cfg) p Hp) as (Ea & Hr & Hc).
  unfold ldsB_addr, addrLdsB, MappingUtil.dataCoord, matrixCoordLdsB in *.
  split; [lia|]. rewrite <- N.add_assoc, Ea.
  set (wc := MappingUtil.waveCoord (registerFileWidth cfg) hw) in *.
  assert (fst wc + 1 <= fst (workgroupDim cfg hw)) by lia.
  rewrite <- E in Hr.
  assert (fst wc * FragLdsB_size cfg + p / registerFileWidth cfg + 1
          <= fst (workgroupDim cfg hw) * FragLdsB_size cfg) by nia.
  nia.
Qed.

Lemma ldsA_ldsB_disjoint (p q : N) :
  p < FragLdsA_size cfg * registerFileWidth cfg ->
  q < FragLdsB_size cfg * registerFileWidth cfg ->
  ldsA_addr p <> ldsB_addr q.
Proof.
  intros Hp Hq.
  pose proof (ldsA_addr_range p Hp). pose proof (ldsB_addr_range q Hq). lia.
Qed.

End Slots.

(** ** One wave, from the first statement to the last *)

Lemma exec_S (cfg : Config) (hw : HwIdx) (args : Args) (sync : bool) (n : nat)
  (w : Wave) (sh : Shared) :
  exec cfg hw args sync (S n) w sh
  = exec cfg hw args sync n (fst (step cfg hw args sync w sh))
         (snd (step cfg hw args sync w sh)).
Proof. reflexivity. Qed.

Ltac wave_cbn :=
  cbn [step fst snd w_pc fragA fragB fragANext fragBNext fragAcc fragC
       addrA addrB endA trace goto log log_when set_fragA set_fragB set_fragANext
       set_fragBNext set_fragAcc set_fragC set_addrA set_addrB set_endA
       lds dmem set_lds set_dmem negb].

(** Symbolic execution of one statement. *)
Ltac wave_step := rewrite exec_S; wave_cbn.
Ltac wave_stop := change (exec ?c ?h ?a ?s O ?w ?sh) with (w, sh); wave_cbn.

Lemma exec_add (cfg : Config) (hw : HwIdx) (args : Args) (sync : bool)
  (n1 n2 : nat) (w : Wave) (sh : Shared) :
  exec cfg hw args sync (n1 + n2) w sh
  = exec cfg hw args sync n2 (fst (exec cfg hw args sync n1 w sh))
         (snd (exec cfg hw args sync n1 w sh)).
Proof.
  revert w sh. induction n1 as [|n IH]; intros w sh; [reflexivity|].
  cbn [Nat.add]. rewrite !exec_S. apply IH.
Qed.

Lemma step_done (cfg : Config) (hw : HwIdx) (args : Args) (sync : bool)
  (w : Wave) (sh : Shared) :
  w_pc w = PcDone -> step cfg hw args sync w sh = (w, sh).
Proof. intros H. unfold step. now rewrite H. Qed.

Lemma exec_done (cfg : Config) (hw : HwIdx) (args : Args) (sync : bool)
  (n : nat) (w : Wave) (sh : Shared) :
  w_pc w = PcDone -> exec cfg hw args sync n w sh = (w, sh).
Proof.
  intros H. induction n as [|n IH]; [reflexivity|].
  rewrite exec_S, step_done by exact H. exact IH.
Qed.

(** A wave that reaches the end within [n] statements is run to its end by
    any fuel of at least [n]. *)
Lemma run_exec (cfg : Config) (hw : HwIdx) (args : Args) (sync : bool) (n : nat) :
  forall (fuel : nat) (w : Wave) (sh : Shared),
    w_pc (fst (exec cfg hw args sync n w sh)) = PcDone ->
    (n <= fuel)%nat ->
    run cfg hw args sync fuel w sh = Some (exec cfg hw args sync n w sh).
Proof.
  induction n as [|n IH]; intros fuel w sh Hpc Hle.
  - cbn [exec fst] in *. destruct fuel; cbn [run]; now rewrite Hpc.
  - destruct (w_pc w) eqn:E;
      try (destruct fuel as [|f]; [lia|]; cbn [run]; rewrite E;
           rewrite exec_S in *; apply IH; [exact Hpc | lia]).
    rewrite exec_done by exact E. destruct fuel; cbn [run]; now rewrite E.
Qed.

Lemma run_exec_pair (cfg : Config) (hw : HwIdx) (args : Args) (sync : bool) (n : nat)
  (fuel : nat) (w : Wave) (sh : Shared) :
  w_pc (fst (exec cfg hw args sync n w sh)) = PcDone ->
  (n <= fuel)%nat ->
  run cfg hw args sync fuel w sh
  = Some (fst (exec cfg hw args sync n w sh), snd (exec cfg hw args sync n w sh)).
Proof.
  intros Hpc Hle. rewrite (run_exec cfg hw args sync n fuel w sh Hpc Hle).
  now rewrite <- surjective_pairing.
Qed.

(** Conversely, the result of [run] is the state after some number of
    statements, and it is at the end of the kernel. *)
Lemma run_some (cfg : Config) (hw : HwIdx) (args : Args) (sync : bool) (fuel : nat) :
  forall (w w' : Wave) (sh sh' : Shared),
    run cfg hw args sync fuel w sh = Some (w', sh') ->
    w_pc w' = PcDone /\
    exists n, (n <= fuel)%nat /\ exec cfg hw args sync n w sh = (w', sh').
Proof.
  induction fuel as [|f IH]; intros w w' sh sh' H.
  - cbn [run] in H. destruct (w_pc w) eqn:E; try discriminate.
    injection H as <- <-. split; [exact E|]. exists O. split; [lia | reflexivity].
  - cbn [run] in H. destruct (w_pc w) eqn:E;
      try (apply IH in H as (Hd & n & Hn & He); split; [exact Hd|];
           exists (S n); split; [lia | rewrite exec_S; exact He]).
    injection H as <- <-. split; [exact E|]. exists O. split; [lia | reflexivity].
Qed.

Section WaveRun.

Variable cfg : Config.
Variable hw : HwIdx.
Variable args : Args.
Variable sync : bool.

Hypothesis HW : registerFileWidth cfg = 64.
Hypothesis Hhw : hw_ok cfg hw.
Hypothesis Hasrt : static_asserts cfg = true.
Hypothesis HBM : 0 < BlockM cfg.
Hypothesis HBN : 0 < BlockN cfg.
Hypothesis HBK : 0 < BlockK cfg.
Hypothesis HldA : LayoutA cfg = col_major -> 0 < arg_lda args.

Let r0 : N := fst (matrixCoordC cfg hw).
Let c0 : N := snd (matrixCoordC cfg hw).
Let q : N := arg_k args / BlockK cfg.

Lemma HW0 : 0 < registerFileWidth cfg.
Proof. rewrite HW. lia. Qed.

Lemma sizeA_eq : FragLdsA_size cfg * registerFileWidth cfg = BlockM cfg * BlockK cfg.
Proof. destruct (asserts_eqs cfg Hasrt) as (E1 & E2 & _ & _). rewrite HW. lia. Qed.

Lemma sizeB_eq : FragLdsB_size cfg * registerFileWidth cfg = BlockK cfg * BlockN cfg.
Proof. destruct (asserts_eqs cfg Hasrt) as (_ & _ & E1 & E2). rewrite HW. lia. Qed.

Lemma incrA_pos : 0 < incrA cfg args.
Proof.
  unfold incrA, MappingUtil.dataOffset. cbn [fst snd].
  destruct (LayoutA cfg) eqn:E; [lia|]. specialize (HldA eq_refl). nia.
Qed.

Lemma load_a_spec (addr p : N) :
  p < BlockM cfg * BlockK cfg ->
  load_a cfg args addr p
  = arg_a args (MappingUtil.dataCoord (LayoutA cfg) addr (arg_lda args)
                  (wmma.tileCoord (BlockK cfg) p)).
Proof using.
  clear HW Hhw Hasrt HBM HBN HBK HldA.
  intros Hp. unfold load_a, wmma.load_matrix_sync.
  apply N.ltb_lt in Hp. now rewrite Hp.
Qed.

Lemma load_b_spec (addr p : N) :
  p < BlockK cfg * BlockN cfg ->
  load_b cfg args addr p
  = arg_b args (MappingUtil.dataCoord (LayoutB cfg) addr (arg_ldb args)
                  (wmma.tileCoord (BlockN cfg) p)).
Proof using.
  clear HW Hhw Hasrt HBM HBN HBK HldA.
  intros Hp. unfold load_b, wmma.load_matrix_sync.
  apply N.ltb_lt in Hp. now rewrite Hp.
Qed.

(** The block of A that starts [t] steps after the first one. *)
Lemma a_block_elem (t i kk : N) :
  MappingUtil.dataCoord (LayoutA cfg) (addrA0 cfg hw args + t * incrA cfg args)
    (arg_lda args) (i, kk)
  = MappingUtil.dataOffset (LayoutA cfg) (arg_lda args)
      (r0 + i, t * BlockK cfg + kk).
Proof using.
  clear HW Hhw Hasrt HBM HBN HBK HldA.
  unfold addrA0, incrA, MappingUtil.dataCoord, MappingUtil.dataOffset.
  subst r0. cbn [fst snd]. destruct (LayoutA cfg); lia.
Qed.

Lemma b_block_elem (t kk j : N) :
  MappingUtil.dataCoord (LayoutB cfg) (addrB0 cfg hw args + t * incrB cfg args)
    (arg_ldb args) (kk, j)
  = MappingUtil.dataOffset (LayoutB cfg) (arg_ldb args)
      (t * BlockK cfg + kk, c0 + j).
Proof using.
  clear HW Hhw Hasrt HBM HBN HBK HldA.
  unfold addrB0, incrB, MappingUtil.dataCoord, MappingUtil.dataOffset.
  subst c0. cbn [fst snd]. destruct (LayoutB cfg); lia.
Qed.

(** Reading a slot back through the register-file view. *)
Lemma load_lds_spec (size : N) (frag : Frag Z) (mem : Mem Z) (addr p : N) :
  p < size * registerFileWidth cfg ->
  load_lds cfg hw size frag mem addr p
  = mem (MappingUtil.dataCoord row_major addr (ldLds cfg hw)
           (wmma.tileCoord (registerFileWidth cfg) p)).
Proof using.
  clear HW Hhw Hasrt HBM HBN HBK HldA.
  intros Hp. unfold load_lds, wmma.load_matrix_sync.
  apply N.ltb_lt in Hp. now rewrite Hp.
Qed.

Lemma store_lds_inside (size : N) (mem : Mem Z) (addr : N) (frag : Frag Z) (p : N) :
  p < size * registerFileWidth cfg ->
  store_lds cfg hw size mem addr frag
    (MappingUtil.dataCoord row_major addr (ldLds cfg hw)
       (wmma.tileCoord (registerFileWidth cfg) p))
  = frag p.
Proof.
  intros Hp. unfold store_lds. apply store_matrix_sync_inside; auto.
  - exact HW0.
  - exact (ldLds_ge cfg hw HW0 Hhw).
Qed.

Lemma store_lds_outside (size : N) (mem : Mem Z) (addr : N) (frag : Frag Z) (x : N) :
  (forall p, p < size * registerFileWidth cfg ->
             MappingUtil.dataCoord row_major addr (ldLds cfg hw)
               (wmma.tileCoord (registerFileWidth cfg) p) <> x) ->
  store_lds cfg hw size mem addr frag x = mem x.
Proof. intros H. unfold store_lds. now apply store_matrix_sync_outside. Qed.

(** After both stagings, slot A holds [fa] and slot B holds [fb]. *)
Lemma staged_A (mem : Mem Z) (fa fb : Frag Z) (p : N) :
  p < BlockM cfg * BlockK cfg ->
  store_lds cfg hw (FragLdsB_size cfg)
    (store_lds cfg hw (FragLdsA_size cfg) mem (addrLdsA cfg hw) fa)
    (addrLdsB cfg hw) fb (ldsA_addr cfg hw p)
  = fa p.
Proof.
  intros Hp. rewrite <- sizeA_eq in Hp.
  rewrite store_lds_outside.
  - unfold ldsA_addr. now apply store_lds_inside.
  - intros p' Hp' E. symmetry in E. revert E.
    apply (ldsA_ldsB_disjoint cfg hw HW0 Hhw Hasrt); assumption.
Qed.

Lemma staged_B (mem : Mem Z) (fa fb : Frag Z) (p : N) :
  p < BlockK cfg * BlockN cfg ->
  store_lds cfg hw (FragLdsB_size cfg)
    (store_lds cfg hw (FragLdsA_size cfg) mem (addrLdsA cfg hw) fa)
    (addrLdsB cfg hw) fb (ldsB_addr cfg hw p)
  = fb p.
Proof.
  intros Hp. rewrite <- sizeB_eq in Hp.
  unfold ldsB_addr. now apply store_lds_inside.
Qed.

(** Shared memory outside the two slots of the wave is left alone. *)
Definition outside_slots (x : N) : Prop :=
  (forall p, p < FragLdsA_size cfg * registerFileWidth cfg -> ldsA_addr cfg hw p <> x) /\
  (forall p, p < FragLdsB_size cfg * registerFileWidth cfg -> ldsB_addr cfg hw p <> x).

Lemma staged_outside (mem : Mem Z) (fa fb : Frag Z) (x : N) :
  outside_slots x ->
  store_lds cfg hw (FragLdsB_size cfg)
    (store_lds cfg hw (FragLdsA_size cfg) mem (addrLdsA cfg hw) fa)
    (addrLdsB cfg hw) fb x
  = mem x.
Proof.
  intros [HA HB]. rewrite store_lds_outside by exact HB.
  now rewrite store_lds_outside by exact HA.
Qed.

(** One product of blocks adds [BlockK] terms to every inner product. *)
Lemma mma_sync_spec (fa fb acc : Frag Z) (t : N) (p : N) :
  (forall p, p < BlockM cfg * BlockK cfg ->
     fa p = matA cfg args (r0 + p / BlockK cfg) (t * BlockK cfg + p mod BlockK cfg)) ->
  (forall p, p < BlockK cfg * BlockN cfg ->
     fb p = matB cfg args (t * BlockK cfg + p / BlockN cfg) (c0 + p mod BlockN cfg)) ->
  p < BlockM cfg * BlockN cfg ->
  acc p = dot cfg args (r0 + p / BlockN cfg) (c0 + p mod BlockN cfg)
            (N.to_nat (t * BlockK cfg)) ->
  wmma.mma_sync (BlockM cfg) (BlockN cfg) (BlockK cfg) fa fb acc p
  = dot cfg args (r0 + p / BlockN cfg) (c0 + p mod BlockN cfg)
        (N.to_nat ((t + 1) * BlockK cfg)).
Proof.
  intros Ha Hb Hp Hacc. unfold wmma.mma_sync.
  apply N.ltb_lt in Hp as Hp'. rewrite Hp'. clear Hp'.
  replace (N.to_nat ((t + 1) * BlockK cfg))
    with (N.to_nat (t * BlockK cfg) + N.to_nat (BlockK cfg))%nat by lia.
  unfold dot in *. rewrite <- (sum_upto_shift _ _ _ _ Hacc). f_equal.
  apply sum_upto_ext. intros h Hh. rewrite N2Nat.id in *.
  destruct (tileCoord_lt (BlockM cfg) (BlockN cfg) p HBN Hp) as [Hi Hj].
  unfold wmma.tileCoord in Hi, Hj. cbn [fst snd] in Hi, Hj.
  rewrite Ha by nia. rewrite Hb by nia.
  pose proof (tileCoord_flat (BlockK cfg) (p / BlockN cfg) h Hh) as E1.
  pose proof (tileCoord_flat (BlockN cfg) h (p mod BlockN cfg) Hj) as E2.
  unfold wmma.tileCoord in E1, E2. injection E1 as E1a E1b. injection E2 as E2a E2b.
  now rewrite E1a, E1b, E2a, E2b.
Qed.

(** Addresses of the elements of the C and D tiles. *)
Definition d_addr (p : N) : N :=
  MappingUtil.dataCoord (LayoutD cfg) (addrD cfg hw args) (arg_ldd args)
    (wmma.tileCoord (BlockN cfg) p).

Lemma c_tile_elem (p : N) :
  MappingUtil.dataCoord (LayoutC cfg) (addrC cfg hw args) (arg_ldc args)
    (wmma.tileCoord (BlockN cfg) p)
  = MappingUtil.dataOffset (LayoutC cfg) (arg_ldc args)
      (r0 + p / BlockN cfg, c0 + p mod BlockN cfg).
Proof using.
  clear HW Hhw Hasrt HBM HBN HBK HldA.
  unfold addrC, MappingUtil.dataCoord, MappingUtil.dataOffset, wmma.tileCoord.
  subst r0 c0. destruct (matrixCoordC cfg hw) as [r c]. cbn [fst snd].
  destruct (LayoutC cfg); lia.
Qed.

Lemma d_tile_elem (p : N) :
  d_addr p
  = MappingUtil.dataOffset (LayoutD cfg) (arg_ldd args)
      (r0 + p / BlockN cfg, c0 + p mod BlockN cfg).
Proof using.
  clear HW Hhw Hasrt HBM HBN HBK HldA.
  unfold d_addr, addrD, MappingUtil.dataCoord, MappingUtil.dataOffset, wmma.tileCoord.
  subst r0 c0. destruct (matrixCoordC cfg hw) as [r c]. cbn [fst snd].
  destruct (LayoutD cfg); lia.
Qed.

(** *** The epilogue: from [PcLoadC] to the end *)

Definition epilogue_events : list event :=
  (if nonzero (arg_beta args) then [EvLoadC (addrC cfg hw args)] else [])
  ++ [EvStoreD (addrD cfg hw args)].

Lemma epilogue_spec (w : Wave) (sh : Shared) :
  w_pc w = PcLoadC ->
  let r := exec cfg hw args sync 3 w sh in
  w_pc (fst r) = PcDone /\
  lds (snd r) = lds sh /\
  trace (fst r) = trace w ++ epilogue_events /\
  (ld_ok (LayoutD cfg) (BlockM cfg) (BlockN cfg) (arg_ldd args) ->
   forall p, p < BlockM cfg * BlockN cfg ->
     dmem (snd r) (d_addr p)
     = (arg_alpha args * fragAcc w p
        + arg_beta args * matC cfg args (r0 + p / BlockN cfg) (c0 + p mod BlockN cfg))%Z) /\
  (forall x, (forall p, p < BlockM cfg * BlockN cfg -> d_addr p <> x) ->
     dmem (snd r) x = dmem sh x).
Proof using HBN.
  clear HW Hhw Hasrt HBM HBK HldA.
  intros Hpc r. subst r. destruct w as [pc0 fA fB fAN fBN fAcc fC aA aB eA tr].
  cbn [w_pc] in Hpc. subst pc0. unfold epilogue_events.
  wave_step. destruct (nonzero (arg_beta args)) eqn:Hb; wave_cbn;
    do 2 wave_step; wave_stop.
  - repeat split.
    + now rewrite <- app_assoc.
    + intros Hld p Hp. unfold d_addr. rewrite store_matrix_sync_inside by auto.
      unfold num_elements. apply N.ltb_lt in Hp as Hp'. rewrite Hp'.
      unfold OutputT, ComputeT, wmma.load_matrix_sync. rewrite Hp'.
      now rewrite c_tile_elem.
    + intros x Hx. now apply store_matrix_sync_outside.
  - repeat split.
    + intros Hld p Hp. unfold d_addr. rewrite store_matrix_sync_inside by auto.
      unfold num_elements. apply N.ltb_lt in Hp as Hp'. rewrite Hp'.
      unfold OutputT, ComputeT, wmma.fill_fragment.
      unfold nonzero in Hb. apply negb_false_iff, Z.eqb_eq in Hb. rewrite Hb. lia.
    + intros x Hx. now apply store_matrix_sync_outside.
Qed.

(** *** The accumulation loop *)

Variable sh0 : Shared.

(** The state at the loop test, [t] iterations after the loop was
    entered: block [t] of A and of B is staged, the blocks before it are
    accumulated. *)
Definition LoopInv (t : nat) (w : Wave) (sh : Shared) : Prop :=
  w_pc w = PcLoopTest /\
  addrA w = addrA0 cfg hw args + (N.of_nat t + 1) * incrA cfg args /\
  addrB w = addrB0 cfg hw args + (N.of_nat t + 1) * incrB cfg args /\
  endA w = addrA0 cfg hw args + incrA cfg args * q /\
  (forall p, p < BlockM cfg * BlockK cfg ->
     lds sh (ldsA_addr cfg hw p)
     = matA cfg args (r0 + p / BlockK cfg)
         (N.of_nat t * BlockK cfg + p mod BlockK cfg)) /\
  (forall p, p < BlockK cfg * BlockN cfg ->
     lds sh (ldsB_addr cfg hw p)
     = matB cfg args (N.of_nat t * BlockK cfg + p / BlockN cfg)
         (c0 + p mod BlockN cfg)) /\
  (forall p, p < BlockM cfg * BlockN cfg ->
     fragAcc w p
     = dot cfg args (r0 + p / BlockN cfg) (c0 + p mod BlockN cfg)
         (N.to_nat (N.of_nat t * BlockK cfg))) /\
  (forall x, outside_slots x -> lds sh x = lds sh0 x) /\
  dmem sh = dmem sh0 /\
  count is_mma (trace w) = t /\
  count is_sync (trace w) = (if sync then t else 0%nat) /\
  count is_load_ab (trace w) = (2 * (t + 1))%nat /\
  count is_store_d (trace w) = 0%nat.

Lemma prologue_spec :
  in_bounds cfg hw args = true ->
  nonzero (arg_alpha args) = true ->
  LoopInv 0 (fst (exec cfg hw args sync 5 (wave_init) sh0))
            (snd (exec cfg hw args sync 5 (wave_init) sh0)).
Proof.
  intros Hin Ha. unfold wave_init. wave_step. rewrite Hin, Ha. wave_cbn.
  do 4 wave_step. wave_stop.
  unfold LoopInv. wave_cbn. cbn [N.of_nat].
  repeat split.
  - lia.
  - lia.
  - intros p Hp. rewrite staged_A by exact Hp. rewrite load_a_spec by exact Hp.
    replace (addrA0 cfg hw args) with (addrA0 cfg hw args + 0 * incrA cfg args) by lia.
    unfold wmma.tileCoord. rewrite a_block_elem. reflexivity.
  - intros p Hp. rewrite staged_B by exact Hp. rewrite load_b_spec by exact Hp.
    replace (addrB0 cfg hw args) with (addrB0 cfg hw args + 0 * incrB cfg args) by lia.
    unfold wmma.tileCoord. rewrite b_block_elem. reflexivity.
  - intros x Hx. rewrite staged_outside by exact Hx. reflexivity.
  - destruct sync; reflexivity.
Qed.

Lemma loop_iteration (t : nat) (w : Wave) (sh : Shared) :
  LoopInv t w sh -> N.of_nat t + 1 < q ->
  LoopInv (S t) (fst (exec cfg hw args sync 9 w sh))
                (snd (exec cfg hw args sync 9 w sh)).
Proof.
  intros (Hpc & HaA & HaB & HeA & HlA & HlB & Hacc & Hout & Hd & Hc1 & Hc2 & Hc3 & Hc4) Ht.
  destruct w as [pc0 fA fB fAN fBN fAcc fC aA aB eA tr].
  cbn [w_pc addrA addrB endA fragAcc trace] in *. subst pc0 aA aB eA.
  assert (Hne : (addrA0 cfg hw args + (N.of_nat t + 1) * incrA cfg args
                 =? addrA0 cfg hw args + incrA cfg args * q) = false).
  { apply N.eqb_neq. pose proof incrA_pos. nia. }
  wave_step. rewrite Hne. wave_cbn.
  do 8 wave_step. wave_stop.
  unfold LoopInv. wave_cbn.
  replace (N.of_nat (S t)) with (N.of_nat t + 1) by lia.
  split; [reflexivity|]. split; [lia|]. split; [lia|]. split; [reflexivity|].
  split; [|split; [|split; [|split; [|split]]]].
  - intros p Hp. rewrite staged_A by exact Hp. rewrite load_a_spec by exact Hp.
    unfold wmma.tileCoord. rewrite a_block_elem. reflexivity.
  - intros p Hp. rewrite staged_B by exact Hp. rewrite load_b_spec by exact Hp.
    unfold wmma.tileCoord. rewrite b_block_elem. reflexivity.
  - intros p Hp. apply mma_sync_spec; auto.
    + intros p' Hp'. rewrite load_lds_spec by (rewrite sizeA_eq; exact Hp').
      apply HlA. exact Hp'.
    + intros p' Hp'. rewrite load_lds_spec by (rewrite sizeB_eq; exact Hp').
      apply HlB. exact Hp'.
  - intros x Hx. rewrite staged_outside by exact Hx. apply Hout. exact Hx.
  - exact Hd.
  - rewrite !count_snoc, !count_app.
    cbn [is_mma is_sync is_load_ab is_store_d].
    destruct sync; cbn [count filter length is_mma is_sync is_load_ab is_store_d];
      repeat split; lia.
Qed.

Lemma loop_run (n : nat) (w : Wave) (sh : Shared) :
  LoopInv 0 w sh -> N.of_nat n + 1 <= q ->
  LoopInv n (fst (exec cfg hw args sync (9 * n) w sh))
            (snd (exec cfg hw args sync (9 * n) w sh)).
Proof.
  intros H0. induction n as [|n IH]; intros Hn.
  - exact H0.
  - replace (9 * S n)%nat with (9 * n + 9)%nat by lia.
    rewrite exec_add. apply loop_iteration; [apply IH|]; lia.
Qed.

(** *** After the loop: the last block *)

Lemma drain_spec (t : nat) (w : Wave) (sh : Shared) :
  LoopInv t w sh -> N.of_nat t + 1 = q ->
  let r := exec cfg hw args sync 4 w sh in
  w_pc (fst r) = PcLoadC /\
  (forall p, p < BlockM cfg * BlockN cfg ->
     fragAcc (fst r) p
     = dot cfg args (r0 + p / BlockN cfg) (c0 + p mod BlockN cfg)
         (N.to_nat (q * BlockK cfg))) /\
  (forall x, outside_slots x -> lds (snd r) x = lds sh0 x) /\
  dmem (snd r) = dmem sh0 /\
  count is_mma (trace (fst r)) = N.to_nat q /\
  count is_sync (trace (fst r)) = (if sync then N.to_nat q - 1 else 0)%nat /\
  count is_load_ab (trace (fst r)) = (2 * N.to_nat q)%nat /\
  count is_store_d (trace (fst r)) = 0%nat.
Proof.
  intros (Hpc & HaA & HaB & HeA & HlA & HlB & Hacc & Hout & Hd & Hc1 & Hc2 & Hc3 & Hc4) Ht r.
  subst r.
  destruct w as [pc0 fA fB fAN fBN fAcc fC aA aB eA tr].
  cbn [w_pc addrA addrB endA fragAcc trace] in *. subst pc0 aA aB eA.
  assert (He : (addrA0 cfg hw args + (N.of_nat t + 1) * incrA cfg args
                =? addrA0 cfg hw args + incrA cfg args * q) = true).
  { apply N.eqb_eq. rewrite Ht. lia. }
  wave_step. rewrite He. wave_cbn. do 3 wave_step. wave_stop.
  split; [reflexivity|]. split; [|split; [|split]].
  - intros p Hp. rewrite <- Ht. apply mma_sync_spec; auto.
    + intros p' Hp'. rewrite load_lds_spec by (rewrite sizeA_eq; exact Hp').
      apply HlA. exact Hp'.
    + intros p' Hp'. rewrite load_lds_spec by (rewrite sizeB_eq; exact Hp').
      apply HlB. exact Hp'.
  - exact Hout.
  - exact Hd.
  - rewrite !count_snoc. cbn [is_mma is_sync is_load_ab is_store_d].
    rewrite Hc1, Hc2, Hc3, Hc4. destruct sync; repeat split; lia.
Qed.

(** *** The whole kernel body *)

(** Number of statements that a wave executes when it passes the bounds
    test. *)
Definition wave_steps : nat :=
  if nonzero (arg_alpha args) then (12 + 9 * (N.to_nat q - 1))%nat else 4%nat.

(** What such a wave leaves behind. *)
Definition WaveDone (w' : Wave) (sh' : Shared) : Prop :=
  w_pc w' = PcDone /\
  (ld_ok (LayoutD cfg) (BlockM cfg) (BlockN cfg) (arg_ldd args) ->
   forall p, p < BlockM cfg * BlockN cfg ->
     dmem sh' (d_addr p)
     = gemm_elem cfg args (q * BlockK cfg)
         (r0 + p / BlockN cfg) (c0 + p mod BlockN cfg)) /\
  (forall x, (forall p, p < BlockM cfg * BlockN cfg -> d_addr p <> x) ->
     dmem sh' x = dmem sh0 x) /\
  (forall x, outside_slots x -> lds sh' x = lds sh0 x) /\
  count is_mma (trace w')
    = (if nonzero (arg_alpha args) then N.to_nat q else 0%nat) /\
  count is_sync (trace w')
    = (if nonzero (arg_alpha args) && sync then N.to_nat q - 1 else 0)%nat /\
  count is_load_ab (trace w')
    = (if nonzero (arg_alpha args) then 2 * N.to_nat q else 0)%nat /\
  count is_store_d (trace w') = 1%nat.

Lemma in_bounds_q : in_bounds cfg hw args = true -> 1 <= q.
Proof using HBK.
  clear HW Hhw Hasrt HBM HBN HldA.
  unfold in_bounds. intros H. apply andb_prop in H as [_ H].
  apply N.ltb_lt in H. subst q.
  apply N.div_le_lower_bound; lia.
Qed.

Lemma count_epilogue (P : event -> bool) (tr : list event) :
  (forall x, P (EvLoadC x) = false) ->
  count P (tr ++ epilogue_events)
  = (count P tr + if P (EvStoreD (addrD cfg hw args)) then 1 else 0)%nat.
Proof using.
  clear HW Hhw Hasrt HBM HBN HBK HldA.
  intros HP. unfold epilogue_events. rewrite app_assoc, count_snoc, count_app.
  destruct (nonzero (arg_beta args)); unfold count; cbn [filter length];
    rewrite ?HP; cbn [length]; lia.
Qed.

Theorem wave_spec :
  in_bounds cfg hw args = true ->
  WaveDone (fst (exec cfg hw args sync wave_steps wave_init sh0))
           (snd (exec cfg hw args sync wave_steps wave_init sh0)).
Proof.
  intros Hin. pose proof (in_bounds_q Hin) as Hq.
  unfold wave_steps, WaveDone.
  destruct (nonzero (arg_alpha args)) eqn:Ha.
  - replace (12 + 9 * (N.to_nat q - 1))%nat
      with (5 + (9 * (N.to_nat q - 1) + (4 + 3)))%nat by lia.
    rewrite !exec_add.
    pose proof (prologue_spec Hin Ha) as H0.
    set (w1 := fst (exec cfg hw args sync 5 wave_init sh0)) in *.
    set (s1 := snd (exec cfg hw args sync 5 wave_init sh0)) in *.
    assert (Hn : N.of_nat (N.to_nat q - 1) + 1 = q) by lia.
    pose proof (loop_run (N.to_nat q - 1) w1 s1 H0 ltac:(lia)) as H1.
    set (w2 := fst (exec cfg hw args sync (9 * (N.to_nat q - 1)) w1 s1)) in *.
    set (s2 := snd (exec cfg hw args sync (9 * (N.to_nat q - 1)) w1 s1)) in *.
    pose proof (drain_spec (N.to_nat q - 1) w2 s2 H1 Hn) as H2.
    cbv zeta in H2.
    set (w3 := fst (exec cfg hw args sync 4 w2 s2)) in *.
    set (s3 := snd (exec cfg hw args sync 4 w2 s2)) in *.
    destruct H2 as (Hpc & Hacc & Hout & Hd & Hc1 & Hc2 & Hc3 & Hc4).
    pose proof (epilogue_spec w3 s3 Hpc) as H3. cbv zeta in H3.
    destruct H3 as (Hpc' & Hl & Htr & Hin' & Hout').
    split; [exact Hpc'|]. split; [|split; [|split]].
    + intros Hld p Hp. rewrite Hin' by assumption. rewrite Hacc by exact Hp. reflexivity.
    + intros x Hx. rewrite Hout' by exact Hx. now rewrite Hd.
    + intros x Hx. rewrite Hl. apply Hout. exact Hx.
    + rewrite Htr, !count_epilogue by reflexivity.
      cbn [is_mma is_sync is_load_ab is_store_d andb].
      rewrite Hc1, Hc2, Hc3, Hc4. repeat split; lia.
  - unfold wave_init. wave_step. rewrite Hin, Ha. wave_cbn.
    match goal with
    | |- context [exec cfg hw args sync 3 ?w ?s] =>
        pose proof (epilogue_spec w s eq_refl) as H3
    end.
    cbv zeta in H3. destruct H3 as (Hpc' & Hl & Htr & Hin' & Hout').
    split; [exact Hpc'|]. split; [|split; [|split]].
    + intros Hld p Hp. rewrite Hin' by assumption. wave_cbn.
      unfold gemm_elem, wmma.fill_fragment, ComputeT.
      unfold nonzero in Ha. apply negb_false_iff, Z.eqb_eq in Ha. rewrite Ha. lia.
    + intros x Hx. rewrite Hout' by exact Hx. reflexivity.
    + intros x Hx. rewrite Hl. reflexivity.
    + rewrite Htr, !count_epilogue by reflexivity.
      cbn [is_mma is_sync is_load_ab is_store_d andb trace].
      unfold count. cbn [filter length]. repeat split; lia.
Qed.

End WaveRun.

(** ** The reference GEMM *)

(** A matrix of [rows x cols] elements with leading dimension [ld] whose
    lines do not overlap and whose offsets fit in 32 bits. *)
Definition matrix_ok (l : layout) (rows cols ld : N) : Prop :=
  ld_ok l rows cols ld /\
  match l with
  | row_major => rows * ld <= 2 ^ 32
  | col_major => cols * ld <= 2 ^ 32
  end.

Lemma index_of_nowrap (l : layout) (rows cols ld i j : N) :
  matrix_ok l rows cols ld -> i < rows -> j < cols ->
  index_of l i j ld = MappingUtil.dataOffset l ld (i, j).
Proof.
  unfold matrix_ok, ld_ok, index_of, rowMjr, colMjr, wrap32, MappingUtil.dataOffset.
  cbn [fst snd]. destruct l; intros [Hld Hfit] Hi Hj; apply N.mod_small; nia.
Qed.

Lemma for_upto_store {T : Type} (f : N -> N) (v : N -> T) (cnt : nat) (d : Mem T) :
  for_upto cnt (fun j d => mem_write d (f j) (v j)) d = store_elems f v cnt d.
Proof.
  induction cnt as [|c IH]; [reflexivity|]. cbn [for_upto store_elems]. now rewrite IH.
Qed.

(** Rows of stores: element [(i, j)] is read back when the addresses
    [g i j] are pairwise different. *)
Lemma for_upto_rows {T : Type} (g : N -> N -> N) (v : N -> N -> T)
  (rows cols : nat) (d : Mem T) (i j : N) :
  (forall i1 j1 i2 j2,
     i1 < N.of_nat rows -> j1 < N.of_nat cols ->
     i2 < N.of_nat rows -> j2 < N.of_nat cols ->
     g i1 j1 = g i2 j2 -> i1 = i2 /\ j1 = j2) ->
  i < N.of_nat rows -> j < N.of_nat cols ->
  for_upto rows (fun i d => store_elems (g i) (v i) cols d) d (g i j) = v i j.
Proof.
  intros Hinj. induction rows as [|r IH]; intros Hi Hj; [lia|].
  cbn [for_upto].
  destruct (N.eq_dec i (N.of_nat r)) as [->|Hne].
  - apply (store_elems_inside (g (N.of_nat r))); [|exact Hj].
    intros q1 q2 Hq1 Hq2 E. apply (Hinj _ _ _ _ Hi Hq1 Hi Hq2 E).
  - rewrite store_elems_outside.
    + apply IH; [|lia|exact Hj].
      intros i1 j1 i2 j2 H1 H2 H3 H4. apply Hinj; lia.
    + intros p Hp E. apply Hne. symmetry.
      apply (Hinj (N.of_nat r) p i j); [lia | exact Hp | exact Hi | exact Hj | exact E].
Qed.

Section Reference.

Variable cfg : Config.
Variable args : Args.

(** [gemm_cpu_h] called with the layouts and the arguments of the kernel,
    on the output buffer [d]. *)
Definition reference (d : Mem Z) : Mem Z :=
  gemm_cpu_h (LayoutA cfg) (LayoutB cfg) (LayoutC cfg) (LayoutD cfg)
    (arg_m args) (arg_n args) (arg_k args)
    (arg_a args) (arg_b args) (arg_c args) d
    (arg_lda args) (arg_ldb args) (arg_ldc args) (arg_ldd args)
    (arg_alpha args) (arg_beta args).

Hypothesis HA : matrix_ok (LayoutA cfg) (arg_m args) (arg_k args) (arg_lda args).
Hypothesis HB : matrix_ok (LayoutB cfg) (arg_k args) (arg_n args) (arg_ldb args).
Hypothesis HC : matrix_ok (LayoutC cfg) (arg_m args) (arg_n args) (arg_ldc args).
Hypothesis HD : matrix_ok (LayoutD cfg) (arg_m args) (arg_n args) (arg_ldd args).

Lemma reference_spec (d : Mem Z) (i j : N) :
  i < arg_m args -> j < arg_n args ->
  reference d (MappingUtil.dataOffset (LayoutD cfg) (arg_ldd args) (i, j))
  = gemm_elem cfg args (arg_k args) i j.
Proof.
  intros Hi Hj. unfold reference, gemm_cpu_h.
  erewrite <- (index_of_nowrap (LayoutD cfg)) by eauto.
  set (g := fun i j => index_of (LayoutD cfg) i j (arg_ldd args)).
  change (index_of (LayoutD cfg) i j (arg_ldd args)) with (g i j).
  match goal with
  | |- for_upto _ (fun i0 d0 => for_upto _ (fun j0 d1 => mem_write d1 _ (@?v i0 j0)) d0) _ _ = _ =>
      transitivity
        (for_upto (N.to_nat (arg_m args))
           (fun i0 d0 => store_elems (g i0) (v i0) (N.to_nat (arg_n args)) d0) d (g i j))
  end.
  - clear Hi Hj. induction (N.to_nat (arg_m args)) as [|r IH]; [reflexivity|].
    cbn [for_upto]. rewrite for_upto_store. apply store_elems_agree. exact IH.
  - rewrite for_upto_rows.
    + unfold gemm_elem, dot, matA, matB, matC, OutputT, ComputeT.
      rewrite (index_of_nowrap _ _ _ _ _ _ HC Hi Hj). f_equal. f_equal.
      apply sum_upto_ext. intros h Hh. rewrite N2Nat.id in Hh.
      rewrite (index_of_nowrap _ _ _ _ _ _ HA Hi Hh).
      rewrite (index_of_nowrap _ _ _ _ _ _ HB Hh Hj). reflexivity.
    + intros i1 j1 i2 j2 H1 H2 H3 H4. rewrite N2Nat.id in *. subst g. cbv beta.
      rewrite (index_of_nowrap _ _ _ _ _ _ HD H1 H2).
      rewrite (index_of_nowrap _ _ _ _ _ _ HD H3 H4).
      apply dataOffset_inj with (rows := arg_m args) (cols := arg_n args); auto.
      apply HD.
    + now rewrite N2Nat.id.
    + now rewrite N2Nat.id.
Qed.

End Reference.

(** ** A launch over a matrix made of whole tiles *)

Section Launch.

Variable cfg : Config.
Variable args : Args.
Variable fuel : nat.

Hypothesis HW : AMDGCN_WAVE_SIZE cfg = 64.
Hypothesis Hasrt : static_asserts cfg = true.
Hypothesis HBM : 0 < BlockM cfg.
Hypothesis HBN : 0 < BlockN cfg.
Hypothesis HBK : 0 < BlockK cfg.
Hypothesis Hm : arg_m args mod BlockM cfg = 0.
Hypothesis Hn : arg_n args mod BlockN cfg = 0.
Hypothesis Hk : arg_k args mod BlockK cfg = 0.
Hypothesis Hgt : BlockK cfg < arg_k args.
Hypothesis HA : matrix_ok (LayoutA cfg) (arg_m args) (arg_k args) (arg_lda args).
Hypothesis HD : matrix_ok (LayoutD cfg) (arg_m args) (arg_n args) (arg_ldd args).
Hypothesis Hfuel : (9 * N.to_nat (arg_k args / BlockK cfg) + 3 <= fuel)%nat.

(** Element [(i, j)] belongs to the tile of the wave. *)
Definition in_tile (hw : HwIdx) (i j : N) : Prop :=
  fst (matrixCoordC cfg hw) <= i < fst (matrixCoordC cfg hw) + BlockM cfg /\
  snd (matrixCoordC cfg hw) <= j < snd (matrixCoordC cfg hw) + BlockN cfg.

Definition idxD (i j : N) : N :=
  MappingUtil.dataOffset (LayoutD cfg) (arg_ldd args) (i, j).

Definition expected (i j : N) : Z := gemm_elem cfg args (arg_k args) i j.

Lemma k_blocks : arg_k args / BlockK cfg * BlockK cfg = arg_k args.
Proof using HBK Hk.
  clear - HBK Hk.
  destruct (divmod_spec (arg_k args) (BlockK cfg) HBK) as [E _].
  rewrite Hk in E. lia.
Qed.

Lemma tile_in_matrix (hw : HwIdx) :
  in_bounds cfg hw args = true ->
  fst (matrixCoordC cfg hw) + BlockM cfg <= arg_m args /\
  snd (matrixCoordC cfg hw) + BlockN cfg <= arg_n args.
Proof using HBM HBN Hm Hn.
  clear - HBM HBN Hm Hn.
  unfold in_bounds, matrixCoordC, MappingUtil.matrixCoord. cbn [fst snd].
  intros H. apply andb_prop in H as [H _]. apply andb_prop in H as [H1 H2].
  apply N.ltb_lt in H1, H2.
  destruct (divmod_spec (arg_m args) (BlockM cfg) HBM) as [E1 _].
  destruct (divmod_spec (arg_n args) (BlockN cfg) HBN) as [E2 _].
  rewrite Hm in E1. rewrite Hn in E2.
  set (bi := fst (MappingUtil.blockCoord (registerFileWidth cfg) hw)) in *.
  set (bj := snd (MappingUtil.blockCoord (registerFileWidth cfg) hw)) in *.
  assert (bi < arg_m args / BlockM cfg) by nia.
  assert (bj < arg_n args / BlockN cfg) by nia.
  split; nia.
Qed.

Lemma in_tile_in_bounds (hw : HwIdx) (i j : N) :
  i < arg_m args -> j < arg_n args -> in_tile hw i j ->
  in_bounds cfg hw args = true.
Proof using Hgt.
  clear - Hgt.
  intros Hi Hj [[H1 _] [H2 _]]. unfold in_bounds.
  rewrite !andb_true_iff, !N.ltb_lt. lia.
Qed.

Lemma in_tile_dec (hw : HwIdx) (i j : N) : in_tile hw i j \/ ~ in_tile hw i j.
Proof.
  unfold in_tile.
  destruct (N.le_gt_cases (fst (matrixCoordC cfg hw)) i);
    destruct (N.lt_ge_cases i (fst (matrixCoordC cfg hw) + BlockM cfg));
    destruct (N.le_gt_cases (snd (matrixCoordC cfg hw)) j);
    destruct (N.lt_ge_cases j (snd (matrixCoordC cfg hw) + BlockN cfg));
    try (left; lia); right; lia.
Qed.

(** One wave: it completes, it puts the expected values in its tile, and
    it keeps the expected values that are already in the matrix. *)
Lemma wave_writes_expected (hw : HwIdx) (sh : Shared) :
  hw_ok cfg hw ->
  exists w' sh',
    mmaSyncLds cfg hw args fuel sh = Some (w', sh') /\
    forall i j, i < arg_m args -> j < arg_n args ->
      in_tile hw i j \/ dmem sh (idxD i j) = expected i j ->
      dmem sh' (idxD i j) = expected i j.
Proof.
  intros Hhw. unfold mmaSyncLds.
  destruct (in_bounds cfg hw args) eqn:Hin.
  - destruct (tile_in_matrix hw Hin) as [Hr Hc].
    assert (HldD : ld_ok (LayoutD cfg) (BlockM cfg) (BlockN cfg) (arg_ldd args)).
    { destruct HD as [H _]. unfold ld_ok in *. destruct (LayoutD cfg); lia. }
    assert (HldA : LayoutA cfg = col_major -> 0 < arg_lda args).
    { intros E. destruct HA as [H _]. unfold ld_ok in H. rewrite E in H. lia. }
    pose proof (wave_spec cfg hw args true HW Hhw Hasrt HBM HBN HBK HldA sh Hin)
      as (Hpc & Hval & Hout & _).
    specialize (Hval HldD).
    exists (fst (exec cfg hw args true (wave_steps cfg args) wave_init sh)),
           (snd (exec cfg hw args true (wave_steps cfg args) wave_init sh)).
    split.
    + apply run_exec_pair.
      * exact Hpc.
      * assert (1 <= arg_k args / BlockK cfg)
          by (apply N.div_le_lower_bound; lia).
        unfold wave_steps. destruct (nonzero (arg_alpha args)); lia.
    + intros i j Hi Hj Hcase.
      destruct (in_tile_dec hw i j) as [Hin_t|Hnot].
      * destruct Hin_t as [[H1 H2] [H3 H4]].
        set (r0 := fst (matrixCoordC cfg hw)) in *.
        set (c0 := snd (matrixCoordC cfg hw)) in *.
        assert (Hp : (i - r0) * BlockN cfg + (j - c0) < BlockM cfg * BlockN cfg) by nia.
        specialize (Hval _ Hp). rewrite d_tile_elem in Hval.
        pose proof (tileCoord_flat (BlockN cfg) (i - r0) (j - c0) ltac:(lia)) as E.
        unfold wmma.tileCoord in E. injection E as E1 E2.
        rewrite E1, E2 in Hval. fold r0 c0 in Hval.
        replace (r0 + (i - r0)) with i in Hval by lia.
        replace (c0 + (j - c0)) with j in Hval by lia.
        unfold idxD, expected. rewrite Hval, k_blocks. reflexivity.
      * destruct Hcase as [Hc'|Hc']; [contradiction|].
        rewrite Hout; [exact Hc'|].
        intros p Hp E. apply Hnot. rewrite d_tile_elem in E.
        destruct (tileCoord_lt (BlockM cfg) (BlockN cfg) p HBN Hp) as [L1 L2].
        unfold wmma.tileCoord in L1, L2. cbn [fst snd] in L1, L2.
        destruct HD as [HldM _].
        apply (dataOffset_inj _ _ (arg_m args) (arg_n args)) in E;
          [| exact HldM | lia | lia | exact Hi | exact Hj].
        destruct E as [<- <-]. unfold in_tile. clear - L1 L2. revert L1 L2.
        generalize (p / BlockN cfg) (p mod BlockN cfg). intros; lia.
  - exists (goto PcDone wave_init), sh. split.
    + rewrite (run_exec cfg hw args true 1).
      * rewrite exec_S. unfold wave_init. wave_cbn. rewrite Hin. reflexivity.
      * rewrite exec_S. unfold wave_init. wave_cbn. rewrite Hin. reflexivity.
      * clear - Hfuel. revert Hfuel.
        generalize (N.to_nat (arg_k args / BlockK cfg)). intros; lia.
    + intros i j Hi Hj [Ht|Hc]; [|exact Hc].
      rewrite (in_tile_in_bounds hw i j Hi Hj Ht) in Hin. discriminate.
Qed.

Lemma run_waves_expected (hws : list HwIdx) :
  (forall hw, In hw hws -> hw_ok cfg hw) ->
  forall sh, exists sh',
    run_waves cfg args fuel hws sh = Some sh' /\
    forall i j, i < arg_m args -> j < arg_n args ->
      (exists hw, In hw hws /\ in_tile hw i j) \/ dmem sh (idxD i j) = expected i j ->
      dmem sh' (idxD i j) = expected i j.
Proof.
  induction hws as [|hw rest IH]; intros Hok sh.
  - exists sh. split; [reflexivity|]. intros i j _ _ [[hw [[] _]]|H]. exact H.
  - destruct (wave_writes_expected hw sh (Hok hw (or_introl eq_refl)))
      as (w1 & sh1 & E1 & P1).
    destruct (IH (fun h Hh => Hok h (or_intror Hh)) sh1) as (sh' & E2 & P2).
    exists sh'. split.
    + cbn [run_waves]. rewrite E1. exact E2.
    + intros i j Hi Hj Hcase. apply P2; [exact Hi | exact Hj |].
      destruct Hcase as [(h & [<-|Hh] & Ht)|Hd].
      * right. apply P1; auto.
      * left. exists h. auto.
      * right. apply P1; auto.
Qed.

(** *** The workgroups of a grid *)

Variable bdx bdy : N.
Hypothesis Hbdx : bdx mod 64 = 0.

Lemma In_Nrange (x n : N) : In x (Nrange n) <-> x < n.
Proof using.
  clear. unfold Nrange. rewrite in_map_iff. split.
  - intros (k & <- & Hk). apply in_seq in Hk. lia.
  - intros Hx. exists (N.to_nat x). split; [lia|]. apply in_seq. lia.
Qed.

Lemma workgroup_waves_ok (bx by_ : N) (hw : HwIdx) :
  In hw (workgroup_waves (AMDGCN_WAVE_SIZE cfg) bx by_ bdx bdy) -> hw_ok cfg hw.
Proof using HW Hbdx.
  clear - HW Hbdx. unfold workgroup_waves. rewrite in_map_iff.
  intros ([wx wy] & <- & Hin). apply in_prod_iff in Hin as [Hx Hy].
  apply In_Nrange in Hx, Hy. unfold hw_ok, registerFileWidth.
  cbn [threadIdx_x threadIdx_y blockDim_x blockDim_y fst snd].
  rewrite HW in *.
  destruct (divmod_spec bdx 64 eq_refl) as [E _]. rewrite Hbdx in E.
  revert Hx E. generalize (bdx / 64). intros; repeat split; lia.
Qed.

Variable lds0 : Mem Z.

Lemma run_workgroups_expected (wgs : list (N * N)) :
  forall d, exists d',
    run_workgroups cfg args fuel bdx bdy lds0 wgs d = Some d' /\
    forall i j, i < arg_m args -> j < arg_n args ->
      (exists wg hw,
         In wg wgs /\
         In hw (workgroup_waves (AMDGCN_WAVE_SIZE cfg) (fst wg) (snd wg) bdx bdy) /\
         in_tile hw i j)
      \/ d (idxD i j) = expected i j ->
      d' (idxD i j) = expected i j.
Proof.
  induction wgs as [|wg rest IH]; intros d.
  - exists d. split; [reflexivity|]. intros i j _ _ [(wg & hw & [] & _)|H]. exact H.
  - destruct (run_waves_expected
                (workgroup_waves (AMDGCN_WAVE_SIZE cfg) (fst wg) (snd wg) bdx bdy)
                (workgroup_waves_ok (fst wg) (snd wg)) (mkShared lds0 d))
      as (sh1 & E1 & P1).
    destruct (IH (dmem sh1)) as (d' & E2 & P2).
    exists d'. split.
    + cbn [run_workgroups]. rewrite E1. exact E2.
    + intros i j Hi Hj Hcase. apply P2; [exact Hi | exact Hj |].
      destruct Hcase as [(g & hw & [<-|Hg] & Hhw & Ht)|Hd].
      * right. apply P1; auto. left. exists hw. auto.
      * left. exists g, hw. auto.
      * right. apply P1; auto.
Qed.

(** *** Every element of the matrix has its wave *)

Variable gdx gdy : N.
Hypothesis Hcovx : arg_m args <= gdx * (bdx / 64) * BlockM cfg.
Hypothesis Hcovy : arg_n args <= gdy * bdy * BlockN cfg.

Lemma grid_covers (i j : N) :
  i < arg_m args -> j < arg_n args ->
  exists wg hw,
    In wg (list_prod (Nrange gdx) (Nrange gdy)) /\
    In hw (workgroup_waves (AMDGCN_WAVE_SIZE cfg) (fst wg) (snd wg) bdx bdy) /\
    in_tile hw i j.
Proof using HW HBM HBN Hcovx Hcovy.
  clear - HW HBM HBN Hcovx Hcovy. intros Hi Hj.
  set (wgx := bdx / 64) in *.
  assert (Hwgx : 0 < wgx) by nia.
  assert (Hbdy : 0 < bdy) by nia.
  destruct (divmod_spec i (BlockM cfg) HBM) as [Ei Li].
  destruct (divmod_spec j (BlockN cfg) HBN) as [Ej Lj].
  set (bi := i / BlockM cfg) in *. set (bj := j / BlockN cfg) in *.
  destruct (divmod_spec bi wgx Hwgx) as [Ebi Lbi].
  destruct (divmod_spec bj bdy Hbdy) as [Ebj Lbj].
  exists (bi / wgx, bj / bdy).
  exists (mkHwIdx (bi / wgx) (bj / bdy) (bi mod wgx * AMDGCN_WAVE_SIZE cfg)
                  (bj mod bdy) bdx bdy).
  cbn [fst snd]. split; [|split].
  - apply in_prod_iff. rewrite !In_Nrange. split.
    + apply N.Div0.div_lt_upper_bound.
      assert (bi < gdx * wgx); [|lia].
      revert Ei Li Hcovx Hi. generalize (i mod BlockM cfg).
      clearbody bi wgx. clear. intros. nia.
    + apply N.Div0.div_lt_upper_bound.
      assert (bj < gdy * bdy); [|lia].
      revert Ej Lj Hcovy Hj. generalize (j mod BlockN cfg).
      clearbody bj. clear. intros. nia.
  - unfold workgroup_waves. apply in_map_iff.
    exists (bi mod wgx, bj mod bdy). split; [reflexivity|].
    apply in_prod_iff. rewrite !In_Nrange. rewrite HW. fold wgx. auto.
  - unfold in_tile, matrixCoordC, MappingUtil.matrixCoord, MappingUtil.blockCoord,
      MappingUtil.workgroupDim, MappingUtil.waveCoord, registerFileWidth.
    cbn [fst snd blockIdx_x blockIdx_y threadIdx_x threadIdx_y blockDim_x blockDim_y].
    rewrite HW. fold wgx. rewrite N.div_mul by lia.
    replace (bi / wgx * wgx + bi mod wgx) with bi by lia.
    replace (bj / bdy * bdy + bj mod bdy) with bj by lia.
    revert Ei Li Ej Lj. generalize (i mod BlockM cfg) (j mod BlockN cfg).
    clearbody bi bj. clear. intros. lia.
Qed.

Lemma launch_expected (d : Mem Z) :
  exists d',
    launch cfg args fuel gdx gdy bdx bdy lds0 d = Some d' /\
    forall i j, i < arg_m args -> j < arg_n args -> d' (idxD i j) = expected i j.
Proof.
  unfold launch.
  destruct (run_workgroups_expected (list_prod (Nrange gdx) (Nrange gdy)) d)
    as (d' & E & P).
  exists d'. split; [exact E|]. intros i j Hi Hj. apply P; auto.
  left. apply grid_covers; assumption.
Qed.

End Launch.

(** ** Legal launches *)

Definition legal_config (cfg : Config) : Prop :=
  AMDGCN_WAVE_SIZE cfg = 64 /\ static_asserts cfg = true /\
  0 < BlockM cfg /\ 0 < BlockN cfg /\ 0 < BlockK cfg.

(** The problem is made of whole tiles, the reduction has more than one
    block, and the four matrices are laid out without overlap. *)
Definition legal_problem (cfg : Config) (args : Args) : Prop :=
  arg_m args mod BlockM cfg = 0 /\ arg_n args mod BlockN cfg = 0 /\
  arg_k args mod BlockK cfg = 0 /\ BlockK cfg < arg_k args /\
  matrix_ok (LayoutA cfg) (arg_m args) (arg_k args) (arg_lda args) /\
  matrix_ok (LayoutB cfg) (arg_k args) (arg_n args) (arg_ldb args) /\
  matrix_ok (LayoutC cfg) (arg_m args) (arg_n args) (arg_ldc args) /\
  matrix_ok (LayoutD cfg) (arg_m args) (arg_n args) (arg_ldd args).

(** The grid has a wave for every tile of the output. *)
Definition covering_launch (cfg : Config) (args : Args) (gdx gdy bdx bdy : N) : Prop :=
  bdx mod 64 = 0 /\
  arg_m args <= gdx * (bdx / 64) * BlockM cfg /\
  arg_n args <= gdy * bdy * BlockN cfg.

Definition enough_fuel (cfg : Config) (args : Args) (fuel : nat) : Prop :=
  (9 * N.to_nat (arg_k args / BlockK cfg) + 3 <= fuel)%nat.

(** C1 (amended): for a problem made of whole tiles whose reduction extent
    K is a multiple of BlockK and larger than BlockK, every layout
    combination and every launch that covers the output, the kernel
    terminates and every element of D equals the element that the reference
    [gemm_cpu_h] computes, exactly. *)
Theorem C1_launch_matches_reference
  (cfg : Config) (args : Args) (fuel : nat) (gdx gdy bdx bdy : N)
  (lds0 d0 dref0 : Mem Z) :
  legal_config cfg -> legal_problem cfg args ->
  covering_launch cfg args gdx gdy bdx bdy -> enough_fuel cfg args fuel ->
  exists d',
    launch cfg args fuel gdx gdy bdx bdy lds0 d0 = Some d' /\
    forall i j, i < arg_m args -> j < arg_n args ->
      d' (MappingUtil.dataOffset (LayoutD cfg) (arg_ldd args) (i, j))
      = reference cfg args dref0
          (MappingUtil.dataOffset (LayoutD cfg) (arg_ldd args) (i, j)).
Proof.
  intros (HW & Hasrt & HBM & HBN & HBK) (Hm & Hn & Hk & Hgt & HA & HB & HC & HD)
         (Hbdx & Hcx & Hcy) Hfuel.
  destruct (launch_expected cfg args fuel HW Hasrt HBM HBN HBK Hm Hn Hk Hgt HA HD
              Hfuel bdx bdy Hbdx lds0 gdx gdy Hcx Hcy d0) as (d' & E & P).
  exists d'. split; [exact E|]. intros i j Hi Hj.
  rewrite (reference_spec cfg args HA HB HC HD dref0 i j Hi Hj).
  apply P; assumption.
Qed.

(** ** Sample instances *)

(** A 16 x 16 x 16 instance; A row major, B column major, C and D row
    major; four registers per lane for A and for B. *)
Definition cfg16 : Config :=
  mkConfig 16 16 16 row_major col_major row_major row_major 64 4 4 4 4.

Definition sample_a : Mem Z := fun x => (Z.of_N (x mod 7) - 3)%Z.
Definition sample_b : Mem Z := fun x => (Z.of_N (x mod 5) - 2)%Z.
Definition sample_c : Mem Z := fun x => Z.of_N (x mod 3).
Definition sample_d : Mem Z := fun _ => 77%Z.
Definition sample_lds : Mem Z := fun _ => 99%Z.

(** Dense matrices: [lda = k], [ldb = k], [ldc = ldd = n]. *)
Definition sample_args (m n k : N) (alpha beta : Z) : Args :=
  mkArgs m n k sample_a sample_b sample_c k k n n alpha beta.

Lemma C1_witness :
  legal_config cfg16 /\ legal_problem cfg16 (sample_args 32 32 32 2 3) /\
  covering_launch cfg16 (sample_args 32 32 32 2 3) 1 2 128 1 /\
  enough_fuel cfg16 (sample_args 32 32 32 2 3) 100 /\
  exists d',
    launch cfg16 (sample_args 32 32 32 2 3) 100 1 2 128 1 sample_lds sample_d = Some d' /\
    forall i j, i < 32 -> j < 32 ->
      d' (MappingUtil.dataOffset row_major 32 (i, j))
      = reference cfg16 (sample_args 32 32 32 2 3) sample_d
          (MappingUtil.dataOffset row_major 32 (i, j)).
Proof.
  assert (H1 : legal_config cfg16) by (repeat split).
  assert (H2 : legal_problem cfg16 (sample_args 32 32 32 2 3))
    by (unfold legal_problem, matrix_ok, ld_ok; cbn; repeat split; discriminate).
  assert (H3 : covering_launch cfg16 (sample_args 32 32 32 2 3) 1 2 128 1)
    by (unfold covering_launch; cbn; repeat split; discriminate).
  assert (H4 : enough_fuel cfg16 (sample_args 32 32 32 2 3) 100)
    by (unfold enough_fuel; cbn; lia).
  split; [exact H1|]. split; [exact H2|]. split; [exact H3|]. split; [exact H4|].
  exact (C1_launch_matches_reference cfg16 (sample_args 32 32 32 2 3) 100 1 2 128 1
           sample_lds sample_d sample_d H1 H2 H3 H4).
Defined.

(** C1 as stated fails when K is exactly one block: K = BlockK = 16 is a
    multiple of BlockK, but the bounds test [BlockK < k] is false, no wave
    writes anything, and D keeps its old content. *)
Lemma C1_counterexample :
  arg_k (sample_args 16 16 16 1 0) mod BlockK cfg16 = 0 /\
  legal_config cfg16 /\
  covering_launch cfg16 (sample_args 16 16 16 1 0) 1 1 64 1 /\
  ~ (exists d',
       launch cfg16 (sample_args 16 16 16 1 0) 100 1 1 64 1 sample_lds sample_d = Some d' /\
       forall i j, i < 16 -> j < 16 ->
         d' (MappingUtil.dataOffset row_major 16 (i, j))
         = reference cfg16 (sample_args 16 16 16 1 0) sample_d
             (MappingUtil.dataOffset row_major 16 (i, j))).
Proof.
  split; [reflexivity|]. split; [repeat split|].
  split; [unfold covering_launch; cbn; repeat split; discriminate|].
  intros (d' & E & H).
  assert (E' : launch cfg16 (sample_args 16 16 16 1 0) 100 1 1 64 1 sample_lds sample_d
               = Some sample_d) by reflexivity.
  rewrite E' in E. injection E as <-.
  specialize (H 0 0 eq_refl eq_refl). vm_compute in H. discriminate.
Qed.


(** ** One wave, in terms of [mmaSyncLds] *)

Lemma enough_fuel_ge (cfg : Config) (args : Args) (fuel : nat) :
  enough_fuel cfg args fuel -> (3 <= fuel)%nat.
Proof.
  unfold enough_fuel. generalize (N.to_nat (arg_k args / BlockK cfg)). intros; lia.
Qed.

Lemma wave_result (cfg : Config) (hw : HwIdx) (args : Args) (fuel : nat) (sh : Shared) :
  legal_config cfg -> hw_ok cfg hw ->
  (LayoutA cfg = col_major -> 0 < arg_lda args) ->
  in_bounds cfg hw args = true ->
  enough_fuel cfg args fuel ->
  exists w' sh',
    mmaSyncLds cfg hw args fuel sh = Some (w', sh') /\
    WaveDone cfg hw args true sh w' sh'.
Proof.
  intros (HW & Hasrt & HBM & HBN & HBK) Hhw HldA Hin Hfuel.
  pose proof (wave_spec cfg hw args true HW Hhw Hasrt HBM HBN HBK HldA sh Hin) as H.
  exists (fst (exec cfg hw args true (wave_steps cfg args) wave_init sh)),
         (snd (exec cfg hw args true (wave_steps cfg args) wave_init sh)).
  split; [|exact H]. unfold mmaSyncLds.
  apply run_exec_pair.
  - apply H.
  - pose proof (in_bounds_q cfg hw args HBK Hin) as Hq.
    unfold enough_fuel in Hfuel. unfold wave_steps.
    destruct (nonzero (arg_alpha args)); lia.
Qed.

Lemma wave_idle (cfg : Config) (hw : HwIdx) (args : Args) (fuel : nat) (sh : Shared) :
  in_bounds cfg hw args = false -> (1 <= fuel)%nat ->
  mmaSyncLds cfg hw args fuel sh = Some (goto PcDone wave_init, sh).
Proof.
  intros Hin Hfuel. unfold mmaSyncLds. rewrite (run_exec cfg hw args true 1).
  - rewrite exec_S. unfold wave_init. wave_cbn. rewrite Hin. reflexivity.
  - rewrite exec_S. unfold wave_init. wave_cbn. rewrite Hin. reflexivity.
  - exact Hfuel.
Qed.

(** The tile of a wave, element by element: position [r * BlockN + c] of the
    output fragment goes to element [(r, c)] of the tile. *)
Lemma d_addr_at (cfg : Config) (hw : HwIdx) (args : Args) (r c : N) :
  c < BlockN cfg ->
  d_addr cfg hw args (r * BlockN cfg + c)
  = MappingUtil.dataOffset (LayoutD cfg) (arg_ldd args)
      (fst (matrixCoordC cfg hw) + r, snd (matrixCoordC cfg hw) + c).
Proof.
  intros Hc. rewrite d_tile_elem.
  replace ((r * BlockN cfg + c) / BlockN cfg) with r.
  - replace ((r * BlockN cfg + c) mod BlockN cfg) with c; [reflexivity|].
    pose proof (tileCoord_flat (BlockN cfg) r c Hc) as E.
    unfold wmma.tileCoord in E. now injection E.
  - pose proof (tileCoord_flat (BlockN cfg) r c Hc) as E.
    unfold wmma.tileCoord in E. now injection E.
Qed.

Lemma tile_flat_lt (rows cols r c : N) :
  r < rows -> c < cols -> r * cols + c < rows * cols.
Proof. intros Hr Hc. nia. Qed.

Lemma d_addr_elem (cfg : Config) (hw : HwIdx) (args : Args) (p : N) :
  0 < BlockN cfg -> p < BlockM cfg * BlockN cfg ->
  exists r c, r < BlockM cfg /\ c < BlockN cfg /\
    d_addr cfg hw args p
    = MappingUtil.dataOffset (LayoutD cfg) (arg_ldd args)
        (fst (matrixCoordC cfg hw) + r, snd (matrixCoordC cfg hw) + c).
Proof.
  intros HBN Hp. exists (p / BlockN cfg), (p mod BlockN cfg).
  destruct (tileCoord_lt (BlockM cfg) (BlockN cfg) p HBN Hp) as [H1 H2].
  unfold wmma.tileCoord in H1, H2. cbn [fst snd] in H1, H2.
  split; [exact H1|]. split; [exact H2|]. apply d_tile_elem.
Qed.

Lemma matrixCoordC_eq (cfg : Config) (hw : HwIdx) :
  matrixCoordC cfg hw
  = ((blockIdx_x hw * (blockDim_x hw / AMDGCN_WAVE_SIZE cfg)
      + threadIdx_x hw / AMDGCN_WAVE_SIZE cfg) * BlockM cfg,
     (blockIdx_y hw * blockDim_y hw + threadIdx_y hw) * BlockN cfg).
Proof. reflexivity. Qed.

Lemma in_bounds_iff (cfg : Config) (hw : HwIdx) (args : Args) :
  in_bounds cfg hw args = true <->
  fst (matrixCoordC cfg hw) < arg_m args /\
  snd (matrixCoordC cfg hw) < arg_n args /\
  BlockK cfg < arg_k args.
Proof.
  unfold in_bounds. rewrite !andb_true_iff, !N.ltb_lt. tauto.
Qed.

(** C2 (amended): the tile of a wave starts at row
    (blockIdx.x * (blockDim.x / 64) + threadIdx.x / 64) * BlockM and column
    (blockIdx.y * blockDim.y + threadIdx.y) * BlockN.  The wave proceeds
    exactly when that top-left element is inside the output matrix and
    BlockK < K (strictly).  A wave that does not proceed logs no event and
    leaves D and the shared memory as they were.  A wave that proceeds
    stores once: element (r, c) of its tile receives alpha * A.B + beta * C
    with the product taken over the first K/BlockK * BlockK columns of A
    (over all of K when K is a multiple of BlockK), and no address of D
    outside the BlockM x BlockN elements of the tile changes.  When M and N
    are multiples of BlockM and BlockN, the tile of a wave that proceeds
    lies fully inside the matrix. *)
Theorem C2_bounds_test_and_frame
  (cfg : Config) (hw : HwIdx) (args : Args) (fuel : nat) (sh : Shared) :
  legal_config cfg -> hw_ok cfg hw ->
  (LayoutA cfg = col_major -> 0 < arg_lda args) ->
  ld_ok (LayoutD cfg) (BlockM cfg) (BlockN cfg) (arg_ldd args) ->
  enough_fuel cfg args fuel ->
  let r0 := (blockIdx_x hw * (blockDim_x hw / 64) + threadIdx_x hw / 64) * BlockM cfg in
  let c0 := (blockIdx_y hw * blockDim_y hw + threadIdx_y hw) * BlockN cfg in
  let passes := r0 < arg_m args /\ c0 < arg_n args /\ BlockK cfg < arg_k args in
  let value := fun (kk i j : N) =>
    (arg_alpha args
     * sum_upto
         (fun h =>
            arg_a args (MappingUtil.dataOffset (LayoutA cfg) (arg_lda args) (i, h))
            * arg_b args (MappingUtil.dataOffset (LayoutB cfg) (arg_ldb args) (h, j)))
         (N.to_nat kk)
     + arg_beta args
       * arg_c args (MappingUtil.dataOffset (LayoutC cfg) (arg_ldc args) (i, j)))%Z in
  (~ passes ->
     exists w', mmaSyncLds cfg hw args fuel sh = Some (w', sh) /\ trace w' = []) /\
  (passes ->
     exists w' sh',
       mmaSyncLds cfg hw args fuel sh = Some (w', sh') /\
       count is_store_d (trace w') = 1%nat /\
       (forall r c, r < BlockM cfg -> c < BlockN cfg ->
          dmem sh' (MappingUtil.dataOffset (LayoutD cfg) (arg_ldd args) (r0 + r, c0 + c))
          = value (arg_k args / BlockK cfg * BlockK cfg) (r0 + r) (c0 + c)) /\
       (arg_k args mod BlockK cfg = 0 ->
        forall r c, r < BlockM cfg -> c < BlockN cfg ->
          dmem sh' (MappingUtil.dataOffset (LayoutD cfg) (arg_ldd args) (r0 + r, c0 + c))
          = value (arg_k args) (r0 + r) (c0 + c)) /\
       (forall x,
          (forall r c, r < BlockM cfg -> c < BlockN cfg ->
             MappingUtil.dataOffset (LayoutD cfg) (arg_ldd args) (r0 + r, c0 + c) <> x) ->
          dmem sh' x = dmem sh x)) /\
  (passes ->
     arg_m args mod BlockM cfg = 0 -> arg_n args mod BlockN cfg = 0 ->
     r0 + BlockM cfg <= arg_m args /\ c0 + BlockN cfg <= arg_n args).
Proof.
  intros Hcfg Hhw HldA HldD Hfuel r0 c0 passes value.
  assert (HW : AMDGCN_WAVE_SIZE cfg = 64) by apply Hcfg.
  assert (Hmc : matrixCoordC cfg hw = (r0, c0)).
  { rewrite matrixCoordC_eq, HW. reflexivity. }
  assert (Hiff : in_bounds cfg hw args = true <-> passes).
  { rewrite in_bounds_iff, Hmc. reflexivity. }
  assert (Hres : passes ->
            exists w' sh',
              mmaSyncLds cfg hw args fuel sh = Some (w', sh') /\
              count is_store_d (trace w') = 1%nat /\
              (forall r c, r < BlockM cfg -> c < BlockN cfg ->
                 dmem sh' (MappingUtil.dataOffset (LayoutD cfg) (arg_ldd args)
                             (r0 + r, c0 + c))
                 = value (arg_k args / BlockK cfg * BlockK cfg) (r0 + r) (c0 + c)) /\
              (forall x,
                 (forall r c, r < BlockM cfg -> c < BlockN cfg ->
                    MappingUtil.dataOffset (LayoutD cfg) (arg_ldd args) (r0 + r, c0 + c)
                    <> x) ->
                 dmem sh' x = dmem sh x)).
  { intros Hp. apply Hiff in Hp as Hin.
    destruct (wave_result cfg hw args fuel sh Hcfg Hhw HldA Hin Hfuel)
      as (w' & sh' & E & _ & Hval & Hout & _ & _ & _ & _ & Hst).
    assert (HBN : 0 < BlockN cfg) by apply Hcfg.
    exists w', sh'. split; [exact E|]. split; [exact Hst|]. split.
    - intros r c Hr Hc.
      pose proof (d_addr_at cfg hw args r c Hc) as Ea. rewrite Hmc in Ea.
      cbn [fst snd] in Ea. rewrite <- Ea.
      rewrite (Hval HldD _ (tile_flat_lt _ _ r c Hr Hc)).
      pose proof (tileCoord_flat (BlockN cfg) r c Hc) as Et.
      unfold wmma.tileCoord in Et. injection Et as Et1 Et2.
      rewrite Et1, Et2, Hmc. reflexivity.
    - intros x Hx. apply Hout. intros p Hp'.
      destruct (d_addr_elem cfg hw args p HBN Hp') as (r & c & Hr & Hc & Ea).
      rewrite Ea, Hmc. apply Hx; assumption. }
  split; [|split].
  - intros Hn. exists (goto PcDone wave_init). split; [|reflexivity].
    apply wave_idle.
    + destruct (in_bounds cfg hw args) eqn:Hin; [|reflexivity].
      exfalso. apply Hn, Hiff. reflexivity.
    + apply enough_fuel_ge in Hfuel. lia.
  - intros Hp. destruct (Hres Hp) as (w' & sh' & E & Hst & Hval & Hout).
    exists w', sh'. split; [exact E|]. split; [exact Hst|]. split; [exact Hval|].
    split; [|exact Hout].
    intros Hk r c Hr Hc. rewrite (Hval r c Hr Hc).
    assert (HBK : 0 < BlockK cfg) by apply Hcfg.
    replace (arg_k args / BlockK cfg * BlockK cfg) with (arg_k args); [reflexivity|].
    apply N.Div0.div_exact in Hk. lia.
  - intros Hp Hm Hn. apply Hiff in Hp. destruct Hcfg as (_ & _ & HBM & HBN & _).
    pose proof (tile_in_matrix cfg args HBM HBN Hm Hn hw Hp) as H.
    rewrite Hmc in H. exact H.
Qed.

(** The wave of block (0, 0) in a workgroup of one wave. *)
Definition hw00 : HwIdx := mkHwIdx 0 0 0 0 64 1.
(** The wave of block (0, 1): second workgroup along y. *)
Definition hw01 : HwIdx := mkHwIdx 0 1 0 0 64 1.
(** The second wave of a workgroup of two waves, the workgroup being the
    second one along y: its tile starts at row 16 and column 16. *)
Definition hw11 : HwIdx := mkHwIdx 0 1 64 0 128 1.
(** A wave whose tile would start at row 32. *)
Definition hw20 : HwIdx := mkHwIdx 2 0 0 0 64 1.

Lemma legal_cfg16 : legal_config cfg16.
Proof. repeat split. Defined.

Lemma hw_ok_cfg16 (bx by_ : N) : hw_ok cfg16 (mkHwIdx bx by_ 0 0 64 1).
Proof. repeat split. Defined.

Lemma hw_ok_hw11 : hw_ok cfg16 hw11.
Proof. repeat split. Defined.

Lemma C2_witness :
  legal_config cfg16 /\ hw_ok cfg16 hw11 /\ hw_ok cfg16 hw20 /\
  (LayoutA cfg16 = col_major -> 0 < arg_lda (sample_args 32 32 32 2 3)) /\
  ld_ok (LayoutD cfg16) (BlockM cfg16) (BlockN cfg16) (arg_ldd (sample_args 32 32 32 2 3)) /\
  enough_fuel cfg16 (sample_args 32 32 32 2 3) 100 /\
  arg_k (sample_args 32 32 32 2 3) mod BlockK cfg16 = 0 /\
  (exists w' sh',
     mmaSyncLds cfg16 hw11 (sample_args 32 32 32 2 3) 100
       (mkShared sample_lds sample_d) = Some (w', sh') /\
     count is_store_d (trace w') = 1%nat /\
     (forall r c, r < 16 -> c < 16 ->
        dmem sh' (MappingUtil.dataOffset row_major 32 (16 + r, 16 + c))
        = (2 * sum_upto
                 (fun h =>
                    sample_a (MappingUtil.dataOffset row_major 32 (16 + r, h)%N)
                    * sample_b (MappingUtil.dataOffset col_major 32 (h, 16 + c)%N))
                 32
           + 3 * sample_c (MappingUtil.dataOffset row_major 32 (16 + r, 16 + c)%N))%Z) /\
     (forall x,
        (forall r c, r < 16 -> c < 16 ->
           MappingUtil.dataOffset row_major 32 (16 + r, 16 + c) <> x) ->
        dmem sh' x = sample_d x)) /\
  (exists w',
     mmaSyncLds cfg16 hw20 (sample_args 32 32 32 2 3) 100 (mkShared sample_lds sample_d)
     = Some (w', mkShared sample_lds sample_d) /\ trace w' = []).
Proof.
  assert (H1 : LayoutA cfg16 = col_major -> 0 < arg_lda (sample_args 32 32 32 2 3))
    by (intros _; reflexivity).
  assert (H2 : ld_ok (LayoutD cfg16) (BlockM cfg16) (BlockN cfg16)
                 (arg_ldd (sample_args 32 32 32 2 3)))
    by (cbn; discriminate).
  assert (H3 : enough_fuel cfg16 (sample_args 32 32 32 2 3) 100)
    by (unfold enough_fuel; cbn; lia).
  assert (H4 : arg_k (sample_args 32 32 32 2 3) mod BlockK cfg16 = 0) by reflexivity.
  split; [exact legal_cfg16|]. split; [exact hw_ok_hw11|].
  split; [exact (hw_ok_cfg16 2 0)|].
  split; [exact H1|]. split; [exact H2|]. split; [exact H3|]. split; [exact H4|].
  split.
  - destruct (C2_bounds_test_and_frame cfg16 hw11 (sample_args 32 32 32 2 3) 100
                (mkShared sample_lds sample_d) legal_cfg16 hw_ok_hw11 H1 H2 H3)
      as (_ & H & _).
    assert (Hp : 16 < 32 /\ 16 < 32 /\ 16 < 32) by (repeat split).
    destruct (H Hp) as (w' & sh' & E & Hst & _ & Hval & Hout).
    exists w', sh'. split; [exact E|]. split; [exact Hst|].
    split; [exact (Hval H4) | exact Hout].
  - destruct (C2_bounds_test_and_frame cfg16 hw20 (sample_args 32 32 32 2 3) 100
                (mkShared sample_lds sample_d) legal_cfg16 (hw_ok_cfg16 2 0) H1 H2 H3)
      as (H & _).
    apply H. intros (Hlt & _). revert Hlt. apply N.lt_irrefl.
Defined.

(** C2 as stated fails when N is not a multiple of BlockN.  In a 16 x 20
    output with 16 x 16 tiles, the tile of block (0, 1) covers the columns
    16 to 31: it is not inside the matrix, yet its wave passes the test,
    stores its tile, and overwrites element (1, 0) of the row-major D, which
    belongs to the tile of block (0, 0); after the launch that element
    differs from the reference. *)
Lemma C2_counterexample :
  ~ ((blockIdx_y hw01 * blockDim_y hw01 + threadIdx_y hw01) * BlockN cfg16 + BlockN cfg16
     <= arg_n (sample_args 16 20 32 1 0)) /\
  match mmaSyncLds cfg16 hw01 (sample_args 16 20 32 1 0) 100
          (mkShared sample_lds sample_d) with
  | Some (w', sh') =>
      count is_store_d (trace w') = 1%nat /\
      dmem sh' (MappingUtil.dataOffset row_major 20 (1, 0))
      <> sample_d (MappingUtil.dataOffset row_major 20 (1, 0))
  | None => False
  end /\
  match launch cfg16 (sample_args 16 20 32 1 0) 100 1 2 64 1 sample_lds sample_d with
  | Some d' =>
      d' (MappingUtil.dataOffset row_major 20 (1, 0))
      <> reference cfg16 (sample_args 16 20 32 1 0) sample_d
           (MappingUtil.dataOffset row_major 20 (1, 0))
  | None => False
  end.
Proof.
  split; [|split].
  - vm_compute. intros H. apply H. reflexivity.
  - vm_compute. split; [reflexivity | discriminate].
  - vm_compute. discriminate.
Qed.

(** ** The kernel for any element types *)

(** The integer model is the generic one at [Typed.Zexact]. *)
Definition typed_wave (w : Wave) : Typed.Wave Typed.Zexact :=
  Typed.mkWave (E := Typed.Zexact) (w_pc w) (fragA w) (fragB w) (fragANext w) (fragBNext w)
               (fragAcc w) (fragC w) (addrA w) (addrB w) (endA w) (trace w).
Definition typed_shared (sh : Shared) : Typed.Shared Typed.Zexact :=
  Typed.mkShared (E := Typed.Zexact) (lds sh) (dmem sh).
Definition typed_args (args : Args) : Typed.Args Typed.Zexact :=
  Typed.mkArgs (E := Typed.Zexact) (arg_m args) (arg_n args) (arg_k args)
    (arg_a args) (arg_b args) (arg_c args)
    (arg_lda args) (arg_ldb args) (arg_ldc args) (arg_ldd args)
    (arg_alpha args) (arg_beta args).

Lemma step_Zexact (cfg : Config) (hw : HwIdx) (args : Args) (sync : bool)
  (w : Wave) (sh : Shared) :
  Typed.step cfg hw (typed_args args) sync (typed_wave w) (typed_shared sh)
  = (typed_wave (fst (step cfg hw args sync w sh)),
     typed_shared (snd (step cfg hw args sync w sh))).
Proof.
  destruct w as [pc0 fA fB fAN fBN fAcc fC aA aB eA tr], sh as [l d].
  unfold Typed.step, step, typed_wave. cbn [w_pc Typed.w_pc].
  destruct pc0; try reflexivity.
  - change (Typed.in_bounds cfg hw (typed_args args)) with (in_bounds cfg hw args).
    destruct (in_bounds cfg hw args); [|reflexivity].
    change (Typed.as_bool Typed.Zexact (Typed.arg_alpha (typed_args args)))
      with (nonzero (arg_alpha args)).
    destruct (nonzero (arg_alpha args)); reflexivity.
  - cbn [addrA endA Typed.addrA Typed.endA].
    destruct (negb (aA =? eA)); reflexivity.
  - change (Typed.as_bool Typed.Zexact (Typed.arg_beta (typed_args args)))
      with (nonzero (arg_beta args)).
    destruct (nonzero (arg_beta args)); reflexivity.
Qed.

Lemma run_Zexact (cfg : Config) (hw : HwIdx) (args : Args) (sync : bool) (fuel : nat) :
  forall (w : Wave) (sh : Shared),
    Typed.run cfg hw (typed_args args) sync fuel (typed_wave w) (typed_shared sh)
    = option_map (fun r => (typed_wave (fst r), typed_shared (snd r)))
        (run cfg hw args sync fuel w sh).
Proof.
  induction fuel as [|f IH]; intros w sh.
  - cbn [Typed.run run]. change (Typed.w_pc (typed_wave w)) with (w_pc w).
    destruct (w_pc w); reflexivity.
  - cbn [Typed.run run]. change (Typed.w_pc (typed_wave w)) with (w_pc w).
    destruct (w_pc w); try reflexivity; rewrite step_Zexact; cbn [fst snd]; apply IH.
Qed.

(** A run of the integer kernel is a run of the generic kernel at exact
    integers, statement by statement. *)
Lemma mmaSyncLds_Zexact (cfg : Config) (hw : HwIdx) (args : Args) (fuel : nat)
  (sh : Shared) :
  Typed.mmaSyncLds cfg hw (typed_args args) fuel (typed_shared sh)
  = option_map (fun r => (typed_wave (fst r), typed_shared (snd r)))
      (mmaSyncLds cfg hw args fuel sh).
Proof. exact (run_Zexact cfg hw args true fuel wave_init sh). Qed.

Lemma typed_exec_S {E : Typed.ElemTypes} (cfg : Config) (hw : HwIdx) (args : Typed.Args E)
  (sync : bool) (n : nat) (w : Typed.Wave E) (sh : Typed.Shared E) :
  Typed.exec cfg hw args sync (S n) w sh
  = Typed.exec cfg hw args sync n (fst (Typed.step cfg hw args sync w sh))
      (snd (Typed.step cfg hw args sync w sh)).
Proof. reflexivity. Qed.

Ltac typed_cbn :=
  cbn [Typed.step fst snd Typed.w_pc Typed.fragA Typed.fragB Typed.fragANext
       Typed.fragBNext Typed.fragAcc Typed.fragC Typed.addrA Typed.addrB Typed.endA
       Typed.trace Typed.goto Typed.log Typed.log_when Typed.set_fragA Typed.set_fragB
       Typed.set_fragANext Typed.set_fragBNext Typed.set_fragAcc Typed.set_fragC
       Typed.set_addrA Typed.set_addrB Typed.set_endA
       Typed.lds Typed.dmem Typed.set_lds Typed.set_dmem negb].
Ltac typed_step := rewrite typed_exec_S; typed_cbn.
Ltac typed_stop :=
  change (Typed.exec ?c ?h ?a ?s O ?w ?sh) with (w, sh); typed_cbn.

Lemma typed_exec_done {E : Typed.ElemTypes} (cfg : Config) (hw : HwIdx)
  (args : Typed.Args E) (sync : bool) (n : nat) (w : Typed.Wave E) (sh : Typed.Shared E) :
  Typed.w_pc w = PcDone -> Typed.exec cfg hw args sync n w sh = (w, sh).
Proof.
  intros Hpc. induction n as [|n IH]; [reflexivity|].
  rewrite typed_exec_S. unfold Typed.step. rewrite Hpc. cbn [fst snd]. exact IH.
Qed.

Lemma typed_run_exec {E : Typed.ElemTypes} (cfg : Config) (hw : HwIdx)
  (args : Typed.Args E) (sync : bool) (n : nat) :
  forall (fuel : nat) (w : Typed.Wave E) (sh : Typed.Shared E),
    Typed.w_pc (fst (Typed.exec cfg hw args sync n w sh)) = PcDone ->
    (n <= fuel)%nat ->
    Typed.run cfg hw args sync fuel w sh
    = Some (fst (Typed.exec cfg hw args sync n w sh),
            snd (Typed.exec cfg hw args sync n w sh)).
Proof.
  induction n as [|n IH]; intros fuel w sh Hpc Hle.
  - cbn [Typed.exec fst snd] in *. destruct fuel; cbn [Typed.run]; now rewrite Hpc.
  - destruct (Typed.w_pc w) eqn:Ew;
      try (destruct fuel as [|f]; [lia|]; cbn [Typed.run]; rewrite Ew;
           rewrite typed_exec_S in *; apply IH; [exact Hpc | lia]).
    rewrite typed_exec_done by exact Ew. cbn [fst snd].
    destruct fuel; cbn [Typed.run]; now rewrite Ew.
Qed.

(** The statements after the accumulation: load of C, combination, store. *)
Lemma typed_epilogue {E : Typed.ElemTypes} (cfg : Config) (hw : HwIdx)
  (args : Typed.Args E) (sync : bool) (w : Typed.Wave E) (sh : Typed.Shared E) :
  0 < BlockN cfg ->
  Typed.w_pc w = PcLoadC ->
  let r := Typed.exec cfg hw args sync 3 w sh in
  Typed.w_pc (fst r) = PcDone /\
  Typed.lds (snd r) = Typed.lds sh /\
  Typed.fragAcc (fst r) = Typed.fragAcc w /\
  Typed.trace (fst r)
  = Typed.trace w
    ++ (if Typed.as_bool E (Typed.arg_beta args)
        then [EvLoadC (Typed.addrC cfg hw args)] else [])
    ++ [EvStoreD (Typed.addrD cfg hw args)] /\
  (ld_ok (LayoutD cfg) (BlockM cfg) (BlockN cfg) (Typed.arg_ldd args) ->
   forall p, p < BlockM cfg * BlockN cfg ->
     Typed.dmem (snd r)
       (MappingUtil.dataCoord (LayoutD cfg) (Typed.addrD cfg hw args) (Typed.arg_ldd args)
          (wmma.tileCoord (BlockN cfg) p))
     = Typed.OutputT_of_ComputeT E
         (Typed.plus E
            (Typed.times E (Typed.arg_alpha args) (Typed.fragAcc w p))
            (Typed.times E (Typed.arg_beta args)
               (Typed.ComputeT_of_OutputT E
                  (if Typed.as_bool E (Typed.arg_beta args)
                   then Typed.arg_c args
                          (MappingUtil.dataCoord (LayoutC cfg) (Typed.addrC cfg hw args)
                             (Typed.arg_ldc args) (wmma.tileCoord (BlockN cfg) p))
                   else Typed.OutputT_0 E))))) /\
  (forall x,
     (forall p, p < BlockM cfg * BlockN cfg ->
        MappingUtil.dataCoord (LayoutD cfg) (Typed.addrD cfg hw args) (Typed.arg_ldd args)
          (wmma.tileCoord (BlockN cfg) p) <> x) ->
     Typed.dmem (snd r) x = Typed.dmem sh x).
Proof.
  intros HBN Hpc r. subst r. destruct w as [pc0 fA fB fAN fBN fAcc fC aA aB eA tr].
  cbn [Typed.w_pc] in Hpc. subst pc0.
  typed_step. destruct (Typed.as_bool E (Typed.arg_beta args)) eqn:Hb; typed_cbn;
    do 2 typed_step; typed_stop.
  - repeat split.
    + now rewrite <- app_assoc.
    + intros Hld p Hp. rewrite store_matrix_sync_inside by auto.
      unfold num_elements. apply N.ltb_lt in Hp as Hp'. rewrite Hp'.
      unfold wmma.load_matrix_sync. rewrite Hp'. reflexivity.
    + intros x Hx. now apply store_matrix_sync_outside.
  - repeat split.
    + intros Hld p Hp. rewrite store_matrix_sync_inside by auto.
      unfold num_elements. apply N.ltb_lt in Hp as Hp'. rewrite Hp'.
      reflexivity.
    + intros x Hx. now apply store_matrix_sync_outside.
Qed.

(** Element [(r, c)] of a tile of a matrix in memory, from the address of
    the top-left element of the tile. *)
Lemma tile_elem_at (l : layout) (ld cols r0 c0 r c : N) :
  c < cols ->
  MappingUtil.dataCoord l (MappingUtil.dataCoord l 0 ld (r0, c0)) ld
    (wmma.tileCoord cols (r * cols + c))
  = MappingUtil.dataOffset l ld (r0 + r, c0 + c).
Proof.
  intros Hc. rewrite tileCoord_flat by exact Hc.
  unfold MappingUtil.dataCoord, MappingUtil.dataOffset. cbn [fst snd].
  destruct l; lia.
Qed.

Lemma tile_elem_of (l : layout) (ld rows cols r0 c0 p : N) :
  0 < cols -> p < rows * cols ->
  exists r c, r < rows /\ c < cols /\
    MappingUtil.dataCoord l (MappingUtil.dataCoord l 0 ld (r0, c0)) ld
      (wmma.tileCoord cols p)
    = MappingUtil.dataOffset l ld (r0 + r, c0 + c).
Proof.
  intros Hc Hp. exists (p / cols), (p mod cols).
  destruct (tileCoord_lt rows cols p Hc Hp) as [H1 H2].
  unfold wmma.tileCoord in *. cbn [fst snd] in H1, H2.
  split; [exact H1|]. split; [exact H2|].
  unfold MappingUtil.dataCoord, MappingUtil.dataOffset. cbn [fst snd].
  destruct l; lia.
Qed.

(** C3 (amended): when alpha compares equal to zero, for every element
    type and whatever the buffers a and b hold, a wave whose tile origin
    (row (blockIdx.x * (blockDim.x / W) + threadIdx.x / W) * BlockM, column
    (blockIdx.y * blockDim.y + threadIdx.y) * BlockN, W the wave size)
    passes the guard skips the accumulation: it loads no block of A or B,
    issues no multiply-accumulate, keeps the accumulator at zero and does
    not touch the shared memory; its only events are the load of the C tile
    (only when beta is nonzero) and the store of the D tile.  Element (r, c)
    of the tile receives OutputT(alpha * 0 + beta * ComputeT(c')), where c'
    is the element of C when beta is nonzero and 0 when beta is zero (C is
    then not read), and no other address of D changes.  That value is
    beta * C when alpha * 0 + x = x for every x and, for beta equal to zero,
    beta * v does not depend on v, as in exact arithmetic. *)
Theorem C3_zero_alpha_skips_accumulation
  (E : Typed.ElemTypes) (cfg : Config) (hw : HwIdx) (args : Typed.Args E)
  (a' b' : Mem (Typed.InputT E)) (fuel : nat) (sh : Typed.Shared E) :
  let r0 := (blockIdx_x hw * (blockDim_x hw / AMDGCN_WAVE_SIZE cfg)
             + threadIdx_x hw / AMDGCN_WAVE_SIZE cfg) * BlockM cfg in
  let c0 := (blockIdx_y hw * blockDim_y hw + threadIdx_y hw) * BlockN cfg in
  let at_C := fun r c =>
    MappingUtil.dataOffset (LayoutC cfg) (Typed.arg_ldc args) (r0 + r, c0 + c) in
  let at_D := fun r c =>
    MappingUtil.dataOffset (LayoutD cfg) (Typed.arg_ldd args) (r0 + r, c0 + c) in
  let alpha := Typed.arg_alpha args in
  let beta := Typed.arg_beta args in
  0 < BlockN cfg ->
  Typed.as_bool E alpha = false ->
  r0 < Typed.arg_m args -> c0 < Typed.arg_n args -> BlockK cfg < Typed.arg_k args ->
  ld_ok (LayoutD cfg) (BlockM cfg) (BlockN cfg) (Typed.arg_ldd args) ->
  (4 <= fuel)%nat ->
  exists w' sh',
    Typed.mmaSyncLds cfg hw (Typed.set_ab a' b' args) fuel sh = Some (w', sh') /\
    Typed.trace w'
    = (if Typed.as_bool E beta then [EvLoadC (at_C 0 0)] else []) ++ [EvStoreD (at_D 0 0)] /\
    count is_load_ab (Typed.trace w') = 0%nat /\
    count is_mma (Typed.trace w') = 0%nat /\
    (forall p, Typed.fragAcc w' p = Typed.ComputeT_0 E) /\
    Typed.lds sh' = Typed.lds sh /\
    (forall r c, r < BlockM cfg -> c < BlockN cfg ->
       Typed.dmem sh' (at_D r c)
       = Typed.OutputT_of_ComputeT E
           (Typed.plus E
              (Typed.times E alpha (Typed.ComputeT_0 E))
              (Typed.times E beta
                 (Typed.ComputeT_of_OutputT E
                    (if Typed.as_bool E beta then Typed.arg_c args (at_C r c)
                     else Typed.OutputT_0 E))))) /\
    ((forall x, Typed.plus E (Typed.times E alpha (Typed.ComputeT_0 E)) x = x) ->
     (Typed.as_bool E beta = false ->
      forall v, Typed.times E beta (Typed.ComputeT_of_OutputT E v)
                = Typed.times E beta (Typed.ComputeT_of_OutputT E (Typed.OutputT_0 E))) ->
     forall r c, r < BlockM cfg -> c < BlockN cfg ->
       Typed.dmem sh' (at_D r c)
       = Typed.OutputT_of_ComputeT E
           (Typed.times E beta
              (Typed.ComputeT_of_OutputT E (Typed.arg_c args (at_C r c))))) /\
    (forall x, (forall r c, r < BlockM cfg -> c < BlockN cfg -> at_D r c <> x) ->
       Typed.dmem sh' x = Typed.dmem sh x).
Proof.
  intros r0 c0 at_C at_D alpha beta HBN Ha Hr0 Hc0 Hk Hld Hfuel.
  set (args' := Typed.set_ab a' b' args).
  assert (Hmc : matrixCoordC cfg hw = (r0, c0)) by reflexivity.
  assert (Hin : Typed.in_bounds cfg hw args' = true).
  { unfold Typed.in_bounds. rewrite Hmc. cbn [fst snd args' Typed.set_ab
      Typed.arg_m Typed.arg_n Typed.arg_k].
    apply N.ltb_lt in Hr0, Hc0, Hk. rewrite Hr0, Hc0, Hk. reflexivity. }
  assert (HaC : Typed.addrC cfg hw args' = at_C 0 0).
  { unfold Typed.addrC, at_C, MappingUtil.dataCoord. rewrite Hmc, !N.add_0_r.
    reflexivity. }
  assert (HaD : Typed.addrD cfg hw args' = at_D 0 0).
  { unfold Typed.addrD, at_D, MappingUtil.dataCoord. rewrite Hmc, !N.add_0_r.
    reflexivity. }
  set (w1 := Typed.goto PcLoadC
               (Typed.set_fragAcc
                  (wmma.fill_fragment (Typed.fragAcc (Typed.wave_init (E := E)))
                     (Typed.ComputeT_0 E))
                  Typed.wave_init)).
  assert (Ex : Typed.exec cfg hw args' true 4 Typed.wave_init sh
               = Typed.exec cfg hw args' true 3 w1 sh).
  { rewrite typed_exec_S. unfold Typed.wave_init at 1 2. typed_cbn.
    rewrite Hin. change (Typed.arg_alpha args') with alpha. rewrite Ha. reflexivity. }
  pose proof (typed_epilogue cfg hw args' true w1 sh HBN eq_refl) as H.
  cbv zeta in H. rewrite <- Ex in H.
  destruct H as (Hpc & Hl & Hacc & Htr & Hval & Hout).
  change (Typed.arg_beta args') with beta in Htr, Hval.
  change (Typed.arg_alpha args') with alpha in Hval.
  change (Typed.arg_ldd args') with (Typed.arg_ldd args) in Hval, Hout.
  change (Typed.arg_ldc args') with (Typed.arg_ldc args) in Hval.
  change (Typed.arg_c args') with (Typed.arg_c args) in Hval.
  rewrite HaC, HaD in Htr. cbn [w1 Typed.trace Typed.goto Typed.set_fragAcc
    Typed.wave_init app] in Htr.
  assert (Hv : forall r c, r < BlockM cfg -> c < BlockN cfg ->
            Typed.dmem (snd (Typed.exec cfg hw args' true 4 Typed.wave_init sh)) (at_D r c)
            = Typed.OutputT_of_ComputeT E
                (Typed.plus E
                   (Typed.times E alpha (Typed.ComputeT_0 E))
                   (Typed.times E beta
                      (Typed.ComputeT_of_OutputT E
                         (if Typed.as_bool E beta then Typed.arg_c args (at_C r c)
                          else Typed.OutputT_0 E))))).
  { intros r c Hr Hc.
    pose proof (Hval Hld (r * BlockN cfg + c) (tile_flat_lt _ _ r c Hr Hc)) as Hp.
    unfold Typed.addrD, Typed.addrC in Hp. rewrite Hmc in Hp.
    rewrite !tile_elem_at in Hp by exact Hc. exact Hp. }
  exists (fst (Typed.exec cfg hw args' true 4 Typed.wave_init sh)),
         (snd (Typed.exec cfg hw args' true 4 Typed.wave_init sh)).
  split; [|split; [|split; [|split; [|split; [|split; [|split; [|split]]]]]]].
  - unfold Typed.mmaSyncLds. apply typed_run_exec; assumption.
  - exact Htr.
  - rewrite Htr. destruct (Typed.as_bool E beta); reflexivity.
  - rewrite Htr. destruct (Typed.as_bool E beta); reflexivity.
  - intros p. rewrite Hacc. reflexivity.
  - exact Hl.
  - exact Hv.
  - intros Hplus Hzero r c Hr Hc. rewrite (Hv r c Hr Hc), Hplus.
    destruct (Typed.as_bool E beta) eqn:Hb; [reflexivity|].
    symmetry. f_equal. apply Hzero. reflexivity.
  - intros x Hx. apply Hout. intros p Hp.
    unfold Typed.addrD. change (Typed.arg_ldd args') with (Typed.arg_ldd args).
    rewrite Hmc.
    destruct (tile_elem_of (LayoutD cfg) (Typed.arg_ldd args) (BlockM cfg) (BlockN cfg)
                r0 c0 p HBN Hp) as (r & c & Hr & Hc & Ea).
    rewrite Ea. apply Hx; assumption.
Qed.

(** Sample calls of the generic kernel: a 32 x 32 x 32 problem with dense
    matrices, at the integers and at binary64. *)
Definition sample_args_Z (alpha beta : Z) : Typed.Args Typed.Zexact :=
  Typed.mkArgs (E := Typed.Zexact) 32 32 32 sample_a sample_b sample_c 32 32 32 32
               alpha beta.
Definition sample_shared_Z : Typed.Shared Typed.Zexact :=
  Typed.mkShared (E := Typed.Zexact) sample_lds sample_d.
Definition sample_args_f64 (alpha beta : float) (c : Mem float)
  : Typed.Args Typed.float64 :=
  Typed.mkArgs (E := Typed.float64) 32 32 32 (fun _ => 1%float) (fun _ => 1%float) c
               32 32 32 32 alpha beta.
Definition sample_shared_f64 : Typed.Shared Typed.float64 :=
  Typed.mkShared (E := Typed.float64) (fun _ => 9%float) (fun _ => 7%float).

Lemma C3_witness :
  (0 < BlockN cfg16 /\
   Typed.as_bool Typed.Zexact 0%Z = false /\
   (16 < 32 /\ 16 < 32 /\ BlockK cfg16 < 32) /\
   ld_ok (LayoutD cfg16) (BlockM cfg16) (BlockN cfg16) 32 /\
   (4 <= 10)%nat /\
   exists w' sh',
     Typed.mmaSyncLds cfg16 hw11 (Typed.set_ab (E := Typed.Zexact) sample_c sample_d (sample_args_Z 0 3)) 10
       sample_shared_Z = Some (w', sh') /\
     Typed.trace w'
     = [EvLoadC (MappingUtil.dataOffset row_major 32 (16, 16));
        EvStoreD (MappingUtil.dataOffset row_major 32 (16, 16))] /\
     (forall p, Typed.fragAcc w' p = 0%Z) /\
     Typed.lds sh' = sample_lds /\
     (forall r c, r < 16 -> c < 16 ->
        Typed.dmem sh' (MappingUtil.dataOffset row_major 32 (16 + r, 16 + c))
        = (3 * sample_c (MappingUtil.dataOffset row_major 32 (16 + r, 16 + c)%N))%Z) /\
     (forall x,
        (forall r c, r < 16 -> c < 16 ->
           MappingUtil.dataOffset row_major 32 (16 + r, 16 + c) <> x) ->
        Typed.dmem sh' x = sample_d x)) /\
  (Typed.as_bool Typed.float64 (-0)%float = false /\
   exists w' sh',
     Typed.mmaSyncLds cfg16 hw11
       (Typed.set_ab (E := Typed.float64) (fun _ => nan) (fun _ => infinity)
          (sample_args_f64 (-0)%float 2%float (fun _ => 1.5%float))) 10
       sample_shared_f64 = Some (w', sh') /\
     count is_load_ab (Typed.trace w') = 0%nat /\
     count is_mma (Typed.trace w') = 0%nat /\
     (forall r c, r < 16 -> c < 16 ->
        Typed.dmem sh' (MappingUtil.dataOffset row_major 32 (16 + r, 16 + c)) = 3%float)).
Proof.
  assert (H1 : 0 < BlockN cfg16) by reflexivity.
  assert (H2 : Typed.as_bool Typed.Zexact 0%Z = false) by reflexivity.
  assert (H3 : 16 < 32) by reflexivity.
  assert (H4 : ld_ok (LayoutD cfg16) (BlockM cfg16) (BlockN cfg16) 32)
    by (cbn; discriminate).
  assert (H5 : (4 <= 10)%nat) by lia.
  assert (H6 : Typed.as_bool Typed.float64 (-0)%float = false) by reflexivity.
  split.
  - split; [exact H1|]. split; [exact H2|]. split; [repeat split|].
    split; [exact H4|]. split; [exact H5|].
    destruct (C3_zero_alpha_skips_accumulation Typed.Zexact cfg16 hw11 (sample_args_Z 0 3)
                sample_c sample_d 10 sample_shared_Z H1 H2 H3 H3 H3 H4 H5)
      as (w' & sh' & E & Htr & _ & _ & Hacc & Hl & _ & Hval & Hout).
    exists w', sh'. split; [exact E|]. split; [exact Htr|]. split; [exact Hacc|].
    split; [exact Hl|]. split; [|exact Hout].
    apply Hval.
    + intros x. reflexivity.
    + intros Hb. discriminate Hb.
  - split; [exact H6|].
    destruct (C3_zero_alpha_skips_accumulation Typed.float64 cfg16 hw11
                (sample_args_f64 (-0)%float 2%float (fun _ => 1.5%float))
                (fun _ => nan) (fun _ => infinity) 10 sample_shared_f64
                H1 H6 H3 H3 H3 H4 H5)
      as (w' & sh' & E & _ & Hc1 & Hc2 & _ & _ & Hval & _).
    exists w', sh'. split; [exact E|]. split; [exact Hc1|]. split; [exact Hc2|].
    exact Hval.
Defined.

(** C3 as stated fails in IEEE arithmetic.  With alpha = 0, beta = 0 and an
    infinite C the kernel does not read C and stores 0 in its tile, while
    beta * C is NaN.  With alpha = 0, beta = 1 and C = -0 the kernel stores
    0 * 0 + 1 * (-0) = +0, which is not the bit pattern of beta * C = -0. *)
Lemma C3_counterexample :
  Typed.as_bool Typed.float64 0%float = false /\
  match Typed.mmaSyncLds cfg16 hw11 (sample_args_f64 0 0 (fun _ => infinity)) 10
          sample_shared_f64 with
  | Some (w', sh') =>
      count is_mma (Typed.trace w') = 0%nat /\
      Typed.dmem sh' (MappingUtil.dataOffset row_major 32 (16, 16)) = 0%float /\
      is_nan (Typed.dmem sh' (MappingUtil.dataOffset row_major 32 (16, 16))) = false /\
      is_nan (0 * infinity)%float = true
  | None => False
  end /\
  match Typed.mmaSyncLds cfg16 hw11 (sample_args_f64 0 1 (fun _ => (-0)%float)) 10
          sample_shared_f64 with
  | Some (w', sh') =>
      count is_mma (Typed.trace w') = 0%nat /\
      Prim2SF (Typed.dmem sh' (MappingUtil.dataOffset row_major 32 (16, 16)))
      = S754_zero false /\
      Prim2SF (1 * (-0))%float = S754_zero true
  | None => False
  end.
Proof.
  split; [reflexivity|]. split.
  - vm_compute. repeat split.
  - vm_compute. repeat split.
Qed.

(** C4 (amended): when the bounds test passes (BlockK < K) and alpha is not
    zero, the steady-state loop ends after exactly K/BlockK - 1 iterations
    (one workgroup barrier each), one more multiply-accumulate follows the
    loop, K/BlockK multiply-accumulates are issued in all, and two blocks
    are loaded from global memory for each of them.  K/BlockK is the integer
    quotient: the loop also ends when K is not a multiple of BlockK. *)
Theorem C4_loop_trip_count
  (cfg : Config) (hw : HwIdx) (args : Args) (fuel : nat) (sh : Shared) :
  legal_config cfg -> hw_ok cfg hw ->
  (LayoutA cfg = col_major -> 0 < arg_lda args) ->
  in_bounds cfg hw args = true ->
  nonzero (arg_alpha args) = true ->
  enough_fuel cfg args fuel ->
  exists w' sh',
    mmaSyncLds cfg hw args fuel sh = Some (w', sh') /\
    count is_sync (trace w') = (N.to_nat (arg_k args / BlockK cfg) - 1)%nat /\
    count is_mma (trace w') = N.to_nat (arg_k args / BlockK cfg) /\
    count is_load_ab (trace w') = (2 * N.to_nat (arg_k args / BlockK cfg))%nat.
Proof.
  intros Hcfg Hhw HldA Hin Ha Hfuel.
  destruct (wave_result cfg hw args fuel sh Hcfg Hhw HldA Hin Hfuel)
    as (w' & sh' & E & _ & _ & _ & _ & Hc1 & Hc2 & Hc3 & _).
  rewrite Ha in Hc1, Hc2, Hc3. cbn [andb] in Hc2.
  exists w', sh'. auto.
Qed.

Lemma C4_witness :
  legal_config cfg16 /\ hw_ok cfg16 hw00 /\
  (LayoutA cfg16 = col_major -> 0 < arg_lda (sample_args 32 32 64 2 3)) /\
  in_bounds cfg16 hw00 (sample_args 32 32 64 2 3) = true /\
  nonzero (arg_alpha (sample_args 32 32 64 2 3)) = true /\
  enough_fuel cfg16 (sample_args 32 32 64 2 3) 100 /\
  exists w' sh',
    mmaSyncLds cfg16 hw00 (sample_args 32 32 64 2 3) 100
      (mkShared sample_lds sample_d) = Some (w', sh') /\
    count is_sync (trace w') = 3%nat /\
    count is_mma (trace w') = 4%nat /\
    count is_load_ab (trace w') = 8%nat.
Proof.
  assert (H1 : LayoutA cfg16 = col_major -> 0 < arg_lda (sample_args 32 32 64 2 3))
    by (intros _; reflexivity).
  assert (H2 : in_bounds cfg16 hw00 (sample_args 32 32 64 2 3) = true) by reflexivity.
  assert (H3 : nonzero (arg_alpha (sample_args 32 32 64 2 3)) = true) by reflexivity.
  assert (H4 : enough_fuel cfg16 (sample_args 32 32 64 2 3) 100)
    by (unfold enough_fuel; cbn; lia).
  split; [exact legal_cfg16|]. split; [exact (hw_ok_cfg16 0 0)|].
  split; [exact H1|]. split; [exact H2|]. split; [exact H3|]. split; [exact H4|].
  exact (C4_loop_trip_count cfg16 hw00 (sample_args 32 32 64 2 3) 100
           (mkShared sample_lds sample_d) legal_cfg16 (hw_ok_cfg16 0 0) H1 H2 H3 H4).
Defined.

(** C4 as stated fails in its last clause: with K = 40 and BlockK = 16, K is
    not a multiple of BlockK, and the kernel still terminates: the loop runs
    40/16 - 1 = 1 time and 2 multiply-accumulates are issued. *)
Lemma C4_counterexample :
  arg_k (sample_args 16 16 40 1 0) mod BlockK cfg16 <> 0 /\
  match mmaSyncLds cfg16 hw00 (sample_args 16 16 40 1 0) 30
          (mkShared sample_lds sample_d) with
  | Some (w', _) =>
      w_pc w' = PcDone /\
      count is_sync (trace w') = 1%nat /\ count is_mma (trace w') = 2%nat
  | None => False
  end.
Proof.
  split; [discriminate|]. vm_compute. repeat split.
Qed.

(** ** The round trip through the shared memory *)

Section TypedSlots.

Context {T : Type}.
Variable cfg : Config.
Variable hw : HwIdx.
Hypothesis Hcfg : legal_config cfg.
Hypothesis Hhw : hw_ok cfg hw.

Let stage (mem : Mem T) (fa fb : Frag T) : Mem T :=
  wmma.store_matrix_sync (FragLdsB_size cfg) (registerFileWidth cfg) row_major
    (wmma.store_matrix_sync (FragLdsA_size cfg) (registerFileWidth cfg) row_major
       mem (addrLdsA cfg hw) fa (ldLds cfg hw))
    (addrLdsB cfg hw) fb (ldLds cfg hw).

Lemma legal_width : 0 < registerFileWidth cfg.
Proof using Hcfg.
  clear stage. destruct Hcfg as (HW & _). unfold registerFileWidth. rewrite HW. lia.
Qed.

Lemma legal_sizes :
  FragLdsA_size cfg * registerFileWidth cfg = BlockM cfg * BlockK cfg /\
  FragLdsB_size cfg * registerFileWidth cfg = BlockK cfg * BlockN cfg.
Proof using Hcfg.
  clear stage. destruct Hcfg as (HW & Hasrt & _).
  destruct (asserts_eqs cfg Hasrt) as (E1 & E2 & E3 & E4).
  unfold registerFileWidth. rewrite HW. lia.
Qed.

(** After both stores, slot A holds [fa], slot B holds [fb], and the rest
    of the shared memory is as before. *)
Lemma stage_A (mem : Mem T) (fa fb : Frag T) (p : N) :
  p < BlockM cfg * BlockK cfg -> stage mem fa fb (ldsA_addr cfg hw p) = fa p.
Proof using Hcfg Hhw.
  intros Hp. destruct legal_sizes as [EA EB]. rewrite <- EA in Hp.
  destruct Hcfg as (_ & Hasrt & _). unfold stage.
  rewrite store_matrix_sync_outside.
  - unfold ldsA_addr. apply store_matrix_sync_inside; auto.
    + exact legal_width.
    + exact (ldLds_ge cfg hw legal_width Hhw).
  - intros p' Hp' Eq. symmetry in Eq. revert Eq.
    apply (ldsA_ldsB_disjoint cfg hw legal_width Hhw Hasrt); assumption.
Qed.

Lemma stage_B (mem : Mem T) (fa fb : Frag T) (p : N) :
  p < BlockK cfg * BlockN cfg -> stage mem fa fb (ldsB_addr cfg hw p) = fb p.
Proof using Hcfg Hhw.
  intros Hp. destruct legal_sizes as [EA EB]. rewrite <- EB in Hp.
  unfold stage, ldsB_addr. apply store_matrix_sync_inside; auto.
  - exact legal_width.
  - exact (ldLds_ge cfg hw legal_width Hhw).
Qed.

Lemma stage_outside (mem : Mem T) (fa fb : Frag T) (x : N) :
  (forall p, p < BlockM cfg * BlockK cfg -> ldsA_addr cfg hw p <> x) ->
  (forall p, p < BlockK cfg * BlockN cfg -> ldsB_addr cfg hw p <> x) ->
  stage mem fa fb x = mem x.
Proof using Hcfg.
  intros HA HB. destruct legal_sizes as [EA EB]. unfold stage.
  rewrite store_matrix_sync_outside.
  - apply store_matrix_sync_outside. intros p Hp. rewrite EA in Hp. now apply HA.
  - intros p Hp. rewrite EB in Hp. now apply HB.
Qed.

(** What the two loads of the next iteration put in the registers. *)
Lemma unstage_A (mem : Mem T) (fa fb dest : Frag T) (p : N) :
  p < BlockM cfg * BlockK cfg ->
  wmma.load_matrix_sync (FragLdsA_size cfg) (registerFileWidth cfg) row_major dest
    (stage mem fa fb) (addrLdsA cfg hw) (ldLds cfg hw) p
  = fa p.
Proof using Hcfg Hhw.
  intros Hp. unfold wmma.load_matrix_sync.
  destruct legal_sizes as [EA _]. rewrite EA.
  apply N.ltb_lt in Hp as Hp'. rewrite Hp'. now apply stage_A.
Qed.

Lemma unstage_B (mem : Mem T) (fa fb dest : Frag T) (p : N) :
  p < BlockK cfg * BlockN cfg ->
  wmma.load_matrix_sync (FragLdsB_size cfg) (registerFileWidth cfg) row_major dest
    (stage mem fa fb) (addrLdsB cfg hw) (ldLds cfg hw) p
  = fb p.
Proof using Hcfg Hhw.
  intros Hp. unfold wmma.load_matrix_sync.
  destruct legal_sizes as [_ EB]. rewrite EB.
  apply N.ltb_lt in Hp as Hp'. rewrite Hp'. now apply stage_B.
Qed.

End TypedSlots.

(** The slots written out from the hardware indices: row and column of
    register-file element [p] in the row-major shared array, whose rows hold
    [64 * blockDim.y] elements. *)
Lemma ldsA_addr_eq (cfg : Config) (hw : HwIdx) (p : N) :
  AMDGCN_WAVE_SIZE cfg = 64 ->
  ldsA_addr cfg hw p
  = (threadIdx_x hw / 64 * FragA_size cfg + p / 64) * (64 * blockDim_y hw)
    + (threadIdx_y hw * 64 + p mod 64).
Proof.
  intros HW.
  unfold ldsA_addr, addrLdsA, matrixCoordLdsA, baseAddrLdsA, ldLds, workgroupDim,
    MappingUtil.dataCoord, MappingUtil.dataOffset, MappingUtil.matrixCoord,
    MappingUtil.waveCoord, MappingUtil.workgroupDim, wmma.tileCoord, registerFileWidth.
  rewrite HW. cbn [fst snd]. lia.
Qed.

Lemma ldsB_addr_eq (cfg : Config) (hw : HwIdx) (p : N) :
  AMDGCN_WAVE_SIZE cfg = 64 ->
  ldsB_addr cfg hw p
  = blockDim_x hw / 64 * FragLdsA_size cfg * (64 * blockDim_y hw)
    + (threadIdx_x hw / 64 * FragB_size cfg + p / 64) * (64 * blockDim_y hw)
    + (threadIdx_y hw * 64 + p mod 64).
Proof.
  intros HW.
  unfold ldsB_addr, addrLdsB, matrixCoordLdsB, baseAddrLdsB, baseAddrLdsA, ldLds,
    workgroupDim, MappingUtil.dataCoord, MappingUtil.dataOffset,
    MappingUtil.matrixCoord, MappingUtil.waveCoord, MappingUtil.workgroupDim,
    wmma.tileCoord, registerFileWidth.
  rewrite HW. cbn [fst snd]. lia.
Qed.

(** What a wave stages and then reloads, from the program point of the
    first store ([PcStageA0] with the fragments [fa], [fb] of the first
    prefetch, or [PcStageA] with those of the running prefetch). *)
Lemma stage_then_unstage {E : Typed.ElemTypes} (cfg : Config) (hw : HwIdx)
  (args : Typed.Args E) (sync : bool) (w : Typed.Wave E) (sh : Typed.Shared E)
  (fa fb : Frag (Typed.InputT E)) (last : bool) :
  legal_config cfg -> hw_ok cfg hw ->
  (Typed.w_pc w = PcStageA0 /\ fa = Typed.fragA w /\ fb = Typed.fragB w /\
   last = (Typed.addrA w + Typed.incrA cfg args
           =? Typed.addrA w + Typed.incrA cfg args * (Typed.arg_k args / BlockK cfg))) \/
  (Typed.w_pc w = PcStageA /\ fa = Typed.fragANext w /\ fb = Typed.fragBNext w /\
   last = (Typed.addrA w + Typed.incrA cfg args =? Typed.endA w)) ->
  let r := Typed.exec cfg hw args sync (if last then 6 else 7) w sh in
  Typed.w_pc (fst r) = (if last then PcDrainMma else PcPrefetch) /\
  (forall p, p < BlockM cfg * BlockK cfg -> Typed.fragA (fst r) p = fa p) /\
  (forall p, p < BlockK cfg * BlockN cfg -> Typed.fragB (fst r) p = fb p) /\
  (forall p, p < BlockM cfg * BlockK cfg ->
     Typed.lds (snd r) (ldsA_addr cfg hw p) = fa p) /\
  (forall p, p < BlockK cfg * BlockN cfg ->
     Typed.lds (snd r) (ldsB_addr cfg hw p) = fb p) /\
  (forall x,
     (forall p, p < BlockM cfg * BlockK cfg -> ldsA_addr cfg hw p <> x) ->
     (forall p, p < BlockK cfg * BlockN cfg -> ldsB_addr cfg hw p <> x) ->
     Typed.lds (snd r) x = Typed.lds sh x) /\
  Typed.dmem (snd r) = Typed.dmem sh.
Proof.
  intros Hcfg Hhw Hw r. subst r.
  destruct w as [pc0 fA fB fAN fBN fAcc fC aA aB eA tr].
  cbn [Typed.w_pc Typed.fragA Typed.fragB Typed.fragANext Typed.fragBNext
       Typed.addrA Typed.endA] in Hw.
  destruct Hw as [(Hpc & -> & -> & Hl) | (Hpc & -> & -> & Hl)]; subst pc0.
  - destruct last.
    + do 4 typed_step. rewrite <- Hl. typed_cbn. do 2 typed_step. typed_stop.
      unfold Typed.load_lds, Typed.store_lds.
      split; [reflexivity|].
      split; [intros p Hp; now apply unstage_A|].
      split; [intros p Hp; now apply unstage_B|].
      split; [intros p Hp; now apply stage_A|].
      split; [intros p Hp; now apply stage_B|].
      split; [intros x HA HB; now apply stage_outside|reflexivity].
    + do 4 typed_step. rewrite <- Hl. typed_cbn. do 3 typed_step. typed_stop.
      unfold Typed.load_lds, Typed.store_lds.
      split; [reflexivity|].
      split; [intros p Hp; now apply unstage_A|].
      split; [intros p Hp; now apply unstage_B|].
      split; [intros p Hp; now apply stage_A|].
      split; [intros p Hp; now apply stage_B|].
      split; [intros x HA HB; now apply stage_outside|reflexivity].
  - destruct last.
    + do 4 typed_step. rewrite <- Hl. typed_cbn. do 2 typed_step. typed_stop.
      unfold Typed.load_lds, Typed.store_lds.
      split; [reflexivity|].
      split; [intros p Hp; now apply unstage_A|].
      split; [intros p Hp; now apply unstage_B|].
      split; [intros p Hp; now apply stage_A|].
      split; [intros p Hp; now apply stage_B|].
      split; [intros x HA HB; now apply stage_outside|reflexivity].
    + do 4 typed_step. rewrite <- Hl. typed_cbn. do 3 typed_step. typed_stop.
      unfold Typed.load_lds, Typed.store_lds.
      split; [reflexivity|].
      split; [intros p Hp; now apply unstage_A|].
      split; [intros p Hp; now apply unstage_B|].
      split; [intros p Hp; now apply stage_A|].
      split; [intros p Hp; now apply stage_B|].
      split; [intros x HA HB; now apply stage_outside|reflexivity].
Qed.

(** C6: for every element type, a fragment stored to the shared memory
    through its register-file view (rows of 64 elements in a row-major
    array with rows of 64 * blockDim.y elements) and loaded back through the
    same view into any fragment comes back unchanged, element by element.
    In the kernel, for a legal configuration: the fragments of A and B that
    a wave stores at its private offsets (before the loop, or at the end of
    an iteration) are in its slots of the shared memory after both stores,
    and they are what the loads of the next iteration (or of the drain)
    put in fragA and fragB, element by element. *)
Theorem C6_lds_roundtrip
  (E : Typed.ElemTypes) (cfg : Config) (hw : HwIdx) (args : Typed.Args E) :
  legal_config cfg -> hw_ok cfg hw ->
  let ld := 64 * blockDim_y hw in
  let slotA := fun p =>
    (threadIdx_x hw / 64 * FragA_size cfg + p / 64) * ld
    + (threadIdx_y hw * 64 + p mod 64) in
  let slotB := fun p =>
    blockDim_x hw / 64 * FragLdsA_size cfg * ld
    + (threadIdx_x hw / 64 * FragB_size cfg + p / 64) * ld
    + (threadIdx_y hw * 64 + p mod 64) in
  (forall (T : Type) (size addr : N) (frag dest : Frag T) (mem : Mem T) (p : N),
     wmma.load_matrix_sync size 64 row_major dest
       (wmma.store_matrix_sync size 64 row_major mem addr frag ld) addr ld p
     = if p <? size * 64 then frag p else dest p) /\
  (forall (sync : bool) (w : Typed.Wave E) (sh : Typed.Shared E),
     Typed.w_pc w = PcStageA0 ->
     let last :=
       Typed.addrA w + Typed.incrA cfg args
       =? Typed.addrA w + Typed.incrA cfg args * (Typed.arg_k args / BlockK cfg) in
     let r := Typed.exec cfg hw args sync (if last then 6 else 7) w sh in
     Typed.w_pc (fst r) = (if last then PcDrainMma else PcPrefetch) /\
     (forall p, p < BlockM cfg * BlockK cfg ->
        Typed.lds (snd r) (slotA p) = Typed.fragA w p /\
        Typed.fragA (fst r) p = Typed.fragA w p) /\
     (forall p, p < BlockK cfg * BlockN cfg ->
        Typed.lds (snd r) (slotB p) = Typed.fragB w p /\
        Typed.fragB (fst r) p = Typed.fragB w p)) /\
  (forall (sync : bool) (w : Typed.Wave E) (sh : Typed.Shared E),
     Typed.w_pc w = PcStageA ->
     let last := Typed.addrA w + Typed.incrA cfg args =? Typed.endA w in
     let r := Typed.exec cfg hw args sync (if last then 6 else 7) w sh in
     Typed.w_pc (fst r) = (if last then PcDrainMma else PcPrefetch) /\
     (forall p, p < BlockM cfg * BlockK cfg ->
        Typed.lds (snd r) (slotA p) = Typed.fragANext w p /\
        Typed.fragA (fst r) p = Typed.fragANext w p) /\
     (forall p, p < BlockK cfg * BlockN cfg ->
        Typed.lds (snd r) (slotB p) = Typed.fragBNext w p /\
        Typed.fragB (fst r) p = Typed.fragBNext w p)).
Proof.
  intros Hcfg Hhw ld slotA slotB.
  assert (HW : AMDGCN_WAVE_SIZE cfg = 64) by apply Hcfg.
  assert (HsA : forall p, ldsA_addr cfg hw p = slotA p)
    by (intros p; now apply ldsA_addr_eq).
  assert (HsB : forall p, ldsB_addr cfg hw p = slotB p)
    by (intros p; now apply ldsB_addr_eq).
  split; [|split].
  - intros T size addr frag dest mem p. unfold wmma.load_matrix_sync.
    destruct (p <? size * 64) eqn:Hp; [|reflexivity].
    apply N.ltb_lt in Hp. apply store_matrix_sync_inside; [lia| |exact Hp].
    destruct Hhw as (_ & Hy & _). unfold ld_ok, ld. nia.
  - intros sync w sh Hpc last r.
    destruct (stage_then_unstage cfg hw args sync w sh (Typed.fragA w) (Typed.fragB w)
                last Hcfg Hhw (or_introl (conj Hpc (conj eq_refl (conj eq_refl eq_refl)))))
      as (H1 & H2 & H3 & H4 & H5 & _).
    split; [exact H1|]. split.
    + intros p Hp. rewrite <- HsA. split; [now apply H4 | now apply H2].
    + intros p Hp. rewrite <- HsB. split; [now apply H5 | now apply H3].
  - intros sync w sh Hpc last r.
    destruct (stage_then_unstage cfg hw args sync w sh (Typed.fragANext w)
                (Typed.fragBNext w) last Hcfg Hhw
                (or_intror (conj Hpc (conj eq_refl (conj eq_refl eq_refl)))))
      as (H1 & H2 & H3 & H4 & H5 & _).
    split; [exact H1|]. split.
    + intros p Hp. rewrite <- HsA. split; [now apply H4 | now apply H2].
    + intros p Hp. rewrite <- HsB. split; [now apply H5 | now apply H3].
Qed.

(** A wave in binary64 whose buffers hold a NaN, infinities and a negative
    zero among ordinary numbers. *)
Definition sample_special : Mem float :=
  fun x => match x mod 5 with
           | 0 => nan
           | 1 => infinity
           | 2 => (-0)%float
           | 3 => neg_infinity
           | _ => 1.5%float
           end.

Definition sample_call_f64 : Typed.Args Typed.float64 :=
  Typed.mkArgs (E := Typed.float64) 32 32 32 sample_special sample_special
               (fun _ => 0%float) 32 32 32 32 1%float 1%float.

(** The wave [hw11] after [n] statements of that call. *)
Definition sample_run_f64 (n : nat)
  : Typed.Wave Typed.float64 * Typed.Shared Typed.float64 :=
  Typed.exec cfg16 hw11 sample_call_f64 true n Typed.wave_init sample_shared_f64.

Lemma C6_witness :
  legal_config cfg16 /\ hw_ok cfg16 hw11 /\
  Typed.w_pc (fst (sample_run_f64 2)) = PcStageA0 /\
  Typed.w_pc (fst (sample_run_f64 11)) = PcStageA /\
  (let w := fst (sample_run_f64 2) in
   let r := Typed.exec cfg16 hw11 sample_call_f64 true 7 w (snd (sample_run_f64 2)) in
   Typed.w_pc (fst r) = PcPrefetch /\
   (forall p, p < BlockM cfg16 * BlockK cfg16 ->
      Typed.lds (snd r)
        ((threadIdx_x hw11 / 64 * FragA_size cfg16 + p / 64) * (64 * blockDim_y hw11)
         + (threadIdx_y hw11 * 64 + p mod 64))
      = Typed.fragA w p /\
      Typed.fragA (fst r) p = Typed.fragA w p)) /\
  (let w := fst (sample_run_f64 11) in
   let r := Typed.exec cfg16 hw11 sample_call_f64 true 6 w (snd (sample_run_f64 11)) in
   Typed.w_pc (fst r) = PcDrainMma /\
   (forall p, p < BlockM cfg16 * BlockK cfg16 ->
      Typed.fragA (fst r) p = Typed.fragANext w p) /\
   (forall p, p < BlockK cfg16 * BlockN cfg16 ->
      Typed.fragB (fst r) p = Typed.fragBNext w p) /\
   is_nan (Typed.fragANext w 2) = true /\ is_nan (Typed.fragA (fst r) 2) = true).
Proof.
  assert (H1 : Typed.w_pc (fst (sample_run_f64 2)) = PcStageA0) by reflexivity.
  assert (H2 : Typed.w_pc (fst (sample_run_f64 11)) = PcStageA) by reflexivity.
  split; [exact legal_cfg16|]. split; [exact hw_ok_hw11|].
  split; [exact H1|]. split; [exact H2|].
  destruct (C6_lds_roundtrip Typed.float64 cfg16 hw11 sample_call_f64
              legal_cfg16 hw_ok_hw11) as (_ & Hfirst & Hloop).
  split.
  - pose proof (Hfirst true (fst (sample_run_f64 2)) (snd (sample_run_f64 2)) H1) as R.
    cbv zeta in R.
    assert (El : (Typed.addrA (fst (sample_run_f64 2)) + Typed.incrA cfg16 sample_call_f64
                  =? Typed.addrA (fst (sample_run_f64 2))
                     + Typed.incrA cfg16 sample_call_f64
                       * (Typed.arg_k sample_call_f64 / BlockK cfg16)) = false)
      by reflexivity.
    rewrite El in R. destruct R as (R1 & R2 & _).
    cbv zeta. split; [exact R1 | exact R2].
  - pose proof (Hloop true (fst (sample_run_f64 11)) (snd (sample_run_f64 11)) H2) as R.
    cbv zeta in R.
    assert (El : (Typed.addrA (fst (sample_run_f64 11)) + Typed.incrA cfg16 sample_call_f64
                  =? Typed.endA (fst (sample_run_f64 11))) = true)
      by reflexivity.
    rewrite El in R. destruct R as (R1 & R2 & R3).
    cbv zeta. split; [exact R1|].
    split; [intros p Hp; apply (R2 p Hp)|].
    split; [intros p Hp; apply (R3 p Hp)|].
    assert (En : is_nan (Typed.fragANext (fst (sample_run_f64 11)) 2) = true)
      by (vm_compute; reflexivity).
    split; [exact En|].
    rewrite (proj2 (R2 2 eq_refl)). exact En.
Defined.

(** C7: the B region starts where the A region ends, the A region holds
    [workgroupDim.x * FragLdsA::size() * ldLds] elements with
    [ldLds = registerFileWidth * workgroupDim.y], the A slot of every wave of
    the workgroup lies inside the A region and its B slot inside the B
    region; so no A slot meets a B slot. *)
Theorem C7_lds_regions_disjoint (cfg : Config) (hw : HwIdx) :
  0 < registerFileWidth cfg -> hw_ok cfg hw -> static_asserts cfg = true ->
  baseAddrLdsB cfg hw
  = baseAddrLdsA + fst (workgroupDim cfg hw) * FragLdsA_size cfg * ldLds cfg hw /\
  ldLds cfg hw = registerFileWidth cfg * snd (workgroupDim cfg hw) /\
  (forall p, p < FragLdsA_size cfg * registerFileWidth cfg ->
     baseAddrLdsA <= ldsA_addr cfg hw p /\ ldsA_addr cfg hw p < baseAddrLdsB cfg hw) /\
  (forall p, p < FragLdsB_size cfg * registerFileWidth cfg ->
     baseAddrLdsB cfg hw <= ldsB_addr cfg hw p /\
     ldsB_addr cfg hw p
     < baseAddrLdsB cfg hw
       + fst (workgroupDim cfg hw) * FragLdsB_size cfg * ldLds cfg hw) /\
  (forall hw' p q,
     hw_ok cfg hw' ->
     blockDim_x hw' = blockDim_x hw -> blockDim_y hw' = blockDim_y hw ->
     p < FragLdsA_size cfg * registerFileWidth cfg ->
     q < FragLdsB_size cfg * registerFileWidth cfg ->
     ldsA_addr cfg hw p <> ldsB_addr cfg hw' q).
Proof.
  intros HW Hhw Hasrt. split; [reflexivity|]. split; [reflexivity|].
  split; [|split].
  - intros p Hp. exact (ldsA_addr_range cfg hw HW Hhw Hasrt p Hp).
  - intros p Hp. exact (ldsB_addr_range cfg hw HW Hhw Hasrt p Hp).
  - intros hw' p q Hhw' Ex Ey Hp Hq.
    pose proof (ldsA_addr_range cfg hw HW Hhw Hasrt p Hp) as [_ H1].
    pose proof (ldsB_addr_range cfg hw' HW Hhw' Hasrt q Hq) as [H2 _].
    assert (E : baseAddrLdsB cfg hw' = baseAddrLdsB cfg hw).
    { unfold baseAddrLdsB, ldLds, workgroupDim, MappingUtil.workgroupDim.
      now rewrite Ex, Ey. }
    rewrite E in H2. lia.
Qed.

Lemma C7_witness :
  0 < registerFileWidth cfg16 /\ hw_ok cfg16 (mkHwIdx 0 0 64 1 128 2) /\
  static_asserts cfg16 = true /\
  (forall p, p < FragLdsA_size cfg16 * registerFileWidth cfg16 ->
     baseAddrLdsA <= ldsA_addr cfg16 (mkHwIdx 0 0 64 1 128 2) p /\
     ldsA_addr cfg16 (mkHwIdx 0 0 64 1 128 2) p
     < baseAddrLdsB cfg16 (mkHwIdx 0 0 64 1 128 2)).
Proof.
  assert (H1 : 0 < registerFileWidth cfg16) by reflexivity.
  assert (H2 : hw_ok cfg16 (mkHwIdx 0 0 64 1 128 2)) by (repeat split).
  assert (H3 : static_asserts cfg16 = true) by reflexivity.
  split; [exact H1|]. split; [exact H2|]. split; [exact H3|].
  exact (proj1 (proj2 (proj2
           (C7_lds_regions_disjoint cfg16 (mkHwIdx 0 0 64 1 128 2) H1 H2 H3)))).
Defined.

(** ** The kernel never reads the output buffer *)

(** A transformation of the output buffer that, cell by cell, either leaves
    the cell as it was or puts a value there that does not depend on the
    old content of the buffer. *)
Definition writes_only (F : Mem Z -> Mem Z) : Prop :=
  forall x, (forall d, F d x = d x) \/ (exists v, forall d, F d x = v).

Lemma writes_only_id : writes_only (fun d => d).
Proof. intros x. left. reflexivity. Qed.

Lemma writes_only_compose (F G : Mem Z -> Mem Z) :
  writes_only F -> writes_only G -> writes_only (fun d => G (F d)).
Proof.
  intros HF HG x. destruct (HG x) as [Hg|[v Hg]].
  - destruct (HF x) as [Hf|[v Hf]].
    + left. intros d. now rewrite Hg, Hf.
    + right. exists v. intros d. now rewrite Hg, Hf.
  - right. exists v. intros d. apply Hg.
Qed.

Lemma writes_only_store (rows cols : N) (l : layout) (addr : N) (frag : Frag Z) (ld : N) :
  writes_only (fun d => wmma.store_matrix_sync rows cols l d addr frag ld).
Proof. intros x. unfold wmma.store_matrix_sync. apply store_elems_cases. Qed.

Lemma writes_only_idem (F : Mem Z -> Mem Z) (d : Mem Z) (x : N) :
  writes_only F -> F (F d) x = F d x.
Proof.
  intros HF. destruct (HF x) as [H|[v H]].
  - apply H.
  - now rewrite !H.
Qed.

Lemma step_shape (cfg : Config) (hw : HwIdx) (args : Args) (sync : bool)
  (w : Wave) (l : Mem Z) :
  exists w' l' F,
    writes_only F /\
    forall d, step cfg hw args sync w (mkShared l d) = (w', mkShared l' (F d)).
Proof.
  unfold step.
  destruct (w_pc w);
    repeat match goal with
           | |- context [if ?c then _ else _] => destruct c
           end;
    unfold set_lds, set_dmem; cbn [lds dmem];
    try (do 2 eexists; exists (fun d => d); split;
         [apply writes_only_id | intros d; reflexivity]).
  do 2 eexists.
  exists (fun d => wmma.store_matrix_sync (BlockM cfg) (BlockN cfg) (LayoutD cfg) d
                     (addrD cfg hw args) (fragC w) (arg_ldd args)).
  split; [apply writes_only_store | intros d; reflexivity].
Qed.

Lemma run_shape (cfg : Config) (hw : HwIdx) (args : Args) (sync : bool) (fuel : nat) :
  forall (w : Wave) (l : Mem Z),
    (forall d, run cfg hw args sync fuel w (mkShared l d) = None) \/
    (exists w' l' F,
       writes_only F /\
       forall d, run cfg hw args sync fuel w (mkShared l d)
                 = Some (w', mkShared l' (F d))).
Proof.
  induction fuel as [|f IH]; intros w l.
  - cbn [run]. destruct (w_pc w); try (left; reflexivity).
    right. exists w, l, (fun d => d). split; [apply writes_only_id | reflexivity].
  - destruct (step_shape cfg hw args sync w l) as (w1 & l1 & F1 & HF1 & E1).
    destruct (IH w1 l1) as [Hn|(w' & l' & F2 & HF2 & E2)].
    + cbn [run]. destruct (w_pc w);
        try (left; intros d; rewrite E1; cbn [fst snd]; apply Hn).
      right. exists w, l, (fun d => d). split; [apply writes_only_id | reflexivity].
    + cbn [run]. destruct (w_pc w);
        try (right; exists w', l', (fun d => F2 (F1 d));
             split; [apply writes_only_compose; assumption
                    | intros d; rewrite E1; cbn [fst snd]; apply E2]).
      right. exists w, l, (fun d => d). split; [apply writes_only_id | reflexivity].
Qed.

Lemma run_waves_shape (cfg : Config) (args : Args) (fuel : nat) (hws : list HwIdx) :
  forall (l : Mem Z),
    (forall d, run_waves cfg args fuel hws (mkShared l d) = None) \/
    (exists l' F,
       writes_only F /\
       forall d, run_waves cfg args fuel hws (mkShared l d) = Some (mkShared l' (F d))).
Proof.
  induction hws as [|hw rest IH]; intros l.
  - right. exists l, (fun d => d). split; [apply writes_only_id | reflexivity].
  - cbn [run_waves]. unfold mmaSyncLds.
    destruct (run_shape cfg hw args true fuel wave_init l)
      as [Hn|(w1 & l1 & F1 & HF1 & E1)].
    + left. intros d. now rewrite Hn.
    + destruct (IH l1) as [Hn|(l' & F2 & HF2 & E2)].
      * left. intros d. rewrite E1. apply Hn.
      * right. exists l', (fun d => F2 (F1 d)).
        split; [apply writes_only_compose; assumption|].
        intros d. rewrite E1. apply E2.
Qed.

Lemma run_workgroups_shape (cfg : Config) (args : Args) (fuel : nat)
  (bdx bdy : N) (lds0 : Mem Z) (wgs : list (N * N)) :
  (forall d, run_workgroups cfg args fuel bdx bdy lds0 wgs d = None) \/
  (exists F,
     writes_only F /\
     forall d, run_workgroups cfg args fuel bdx bdy lds0 wgs d = Some (F d)).
Proof.
  induction wgs as [|wg rest IH].
  - right. exists (fun d => d). split; [apply writes_only_id | reflexivity].
  - cbn [run_workgroups].
    destruct (run_waves_shape cfg args fuel
                (workgroup_waves (AMDGCN_WAVE_SIZE cfg) (fst wg) (snd wg) bdx bdy) lds0)
      as [Hn|(l1 & F1 & HF1 & E1)].
    + left. intros d. now rewrite Hn.
    + destruct IH as [Hn|(F2 & HF2 & E2)].
      * left. intros d. rewrite E1. cbn [dmem]. apply Hn.
      * right. exists (fun d => F2 (F1 d)).
        split; [apply writes_only_compose; assumption|].
        intros d. rewrite E1. cbn [dmem]. apply E2.
Qed.

(** A launch of a legal configuration completes, whatever the buffers hold. *)
Lemma run_waves_completes (cfg : Config) (args : Args) (fuel : nat) (hws : list HwIdx) :
  legal_config cfg -> (LayoutA cfg = col_major -> 0 < arg_lda args) ->
  enough_fuel cfg args fuel ->
  (forall hw, In hw hws -> hw_ok cfg hw) ->
  forall sh, exists sh', run_waves cfg args fuel hws sh = Some sh'.
Proof.
  intros Hcfg HldA Hfuel. induction hws as [|hw rest IH]; intros Hok sh.
  - exists sh. reflexivity.
  - cbn [run_waves].
    assert (E : exists w' sh', mmaSyncLds cfg hw args fuel sh = Some (w', sh')).
    { destruct (in_bounds cfg hw args) eqn:Hin.
      - destruct (wave_result cfg hw args fuel sh Hcfg (Hok hw (or_introl eq_refl))
                    HldA Hin Hfuel) as (w' & sh' & E & _).
        exists w', sh'. exact E.
      - eexists _, _. apply wave_idle; [exact Hin|]. unfold enough_fuel in Hfuel.
        revert Hfuel. generalize (N.to_nat (arg_k args / BlockK cfg)). intros; lia. }
    destruct E as (w' & sh' & ->).
    apply IH. intros hw' Hin. apply Hok. now right.
Qed.

Lemma launch_completes (cfg : Config) (args : Args) (fuel : nat)
  (gdx gdy bdx bdy : N) (lds0 d : Mem Z) :
  legal_config cfg -> (LayoutA cfg = col_major -> 0 < arg_lda args) ->
  bdx mod 64 = 0 -> enough_fuel cfg args fuel ->
  exists d', launch cfg args fuel gdx gdy bdx bdy lds0 d = Some d'.
Proof.
  intros Hcfg HldA Hbdx Hfuel. unfold launch.
  generalize (list_prod (Nrange gdx) (Nrange gdy)). intros wgs. revert d.
  induction wgs as [|wg rest IH]; intros d.
  - exists d. reflexivity.
  - cbn [run_workgroups].
    destruct (run_waves_completes cfg args fuel
                (workgroup_waves (AMDGCN_WAVE_SIZE cfg) (fst wg) (snd wg) bdx bdy)
                Hcfg HldA Hfuel) with (sh := mkShared lds0 d) as (sh' & ->).
    { intros hw Hin. destruct Hcfg as (HW & _).
      exact (workgroup_waves_ok cfg HW bdx bdy Hbdx (fst wg) (snd wg) hw Hin). }
    apply IH.
Qed.

(** C9: a second launch on the same inputs, with the output of the first
    launch as the initial content of D, produces the same D; more generally
    the kernel never reads D: whatever D holds at the start, the launch
    completes all the same, and every cell of the result is either the cell
    of the initial D, untouched, or a value that does not depend on the
    initial D.  A launch of a legal configuration does complete. *)
Theorem C9_relaunch_is_idempotent
  (cfg : Config) (args : Args) (fuel : nat) (gdx gdy bdx bdy : N)
  (lds0 d0 : Mem Z) :
  (forall d1,
     launch cfg args fuel gdx gdy bdx bdy lds0 d0 = Some d1 ->
     (exists d2,
        launch cfg args fuel gdx gdy bdx bdy lds0 d1 = Some d2 /\
        forall x, d2 x = d1 x) /\
     (forall d0', exists d1',
        launch cfg args fuel gdx gdy bdx bdy lds0 d0' = Some d1' /\
        forall x, d1' x = d1 x \/ (d1 x = d0 x /\ d1' x = d0' x))) /\
  (legal_config cfg -> (LayoutA cfg = col_major -> 0 < arg_lda args) ->
   bdx mod 64 = 0 -> enough_fuel cfg args fuel ->
   exists d1, launch cfg args fuel gdx gdy bdx bdy lds0 d0 = Some d1).
Proof.
  split.
  2: { intros Hcfg HldA Hbdx Hfuel.
       exact (launch_completes cfg args fuel gdx gdy bdx bdy lds0 d0 Hcfg HldA Hbdx Hfuel). }
  intros d1 E. unfold launch in *.
  destruct (run_workgroups_shape cfg args fuel bdx bdy lds0
              (list_prod (Nrange gdx) (Nrange gdy))) as [Hn|(F & HF & EF)].
  - rewrite Hn in E. discriminate.
  - rewrite EF in E. injection E as <-. split.
    + exists (F (F d0)). split; [apply EF|].
      intros x. apply writes_only_idem. exact HF.
    + intros d0'. exists (F d0'). split; [apply EF|].
      intros x. destruct (HF x) as [H|[v H]].
      * right. now rewrite !H.
      * left. now rewrite !H.
Qed.

Lemma C9_witness :
  legal_config cfg16 /\
  enough_fuel cfg16 (sample_args 32 32 32 2 3) 100 /\
  exists d1,
    launch cfg16 (sample_args 32 32 32 2 3) 100 1 2 128 1 sample_lds sample_d = Some d1 /\
    exists d2,
      launch cfg16 (sample_args 32 32 32 2 3) 100 1 2 128 1 sample_lds d1 = Some d2 /\
      forall x, d2 x = d1 x.
Proof.
  assert (H1 : LayoutA cfg16 = col_major -> 0 < arg_lda (sample_args 32 32 32 2 3))
    by (intros _; reflexivity).
  assert (H2 : enough_fuel cfg16 (sample_args 32 32 32 2 3) 100)
    by (unfold enough_fuel; cbn; lia).
  destruct (C9_relaunch_is_idempotent cfg16 (sample_args 32 32 32 2 3) 100 1 2 128 1
              sample_lds sample_d) as [I C].
  destruct (C legal_cfg16 H1 eq_refl H2) as (d1 & E).
  split; [exact legal_cfg16|]. split; [exact H2|].
  exists d1. split; [exact E|]. exact (proj1 (I d1 E)).
Defined.

(** ** The waves of a workgroup running concurrently *)

(** The statements of a wave do not look at its log. *)
Definition strip (w : Wave) : Wave :=
  mkWave (w_pc w) (fragA w) (fragB w) (fragANext w) (fragBNext w) (fragAcc w)
         (fragC w) (addrA w) (addrB w) (endA w) [].

Lemma step_strip (cfg : Config) (hw : HwIdx) (args : Args) (s1 s2 : bool)
  (w1 w2 : Wave) (sh : Shared) :
  strip w1 = strip w2 ->
  strip (fst (step cfg hw args s1 w1 sh)) = strip (fst (step cfg hw args s2 w2 sh)) /\
  snd (step cfg hw args s1 w1 sh) = snd (step cfg hw args s2 w2 sh).
Proof.
  destruct w1 as [pc1 fA1 fB1 fAN1 fBN1 fAcc1 fC1 aA1 aB1 eA1 tr1].
  destruct w2 as [pc2 fA2 fB2 fAN2 fBN2 fAcc2 fC2 aA2 aB2 eA2 tr2].
  unfold strip. cbn [w_pc fragA fragB fragANext fragBNext fragAcc fragC addrA addrB endA].
  intros E. injection E as -> -> -> -> -> -> -> -> -> ->.
  unfold step. cbn [w_pc].
  destruct pc2; cbn [addrA endA];
    repeat match goal with
           | |- context [if ?c then _ else _] => destruct c
           end;
    split; reflexivity.
Qed.

Lemma exec_strip (cfg : Config) (hw : HwIdx) (args : Args) (s1 s2 : bool) (n : nat) :
  forall (w1 w2 : Wave) (sh : Shared),
    strip w1 = strip w2 ->
    strip (fst (exec cfg hw args s1 n w1 sh)) = strip (fst (exec cfg hw args s2 n w2 sh)) /\
    snd (exec cfg hw args s1 n w1 sh) = snd (exec cfg hw args s2 n w2 sh).
Proof.
  induction n as [|n IH]; intros w1 w2 sh E.
  - split; [exact E | reflexivity].
  - rewrite !exec_S. destruct (step_strip cfg hw args s1 s2 w1 w2 sh E) as [E1 E2].
    rewrite E2. apply IH. exact E1.
Qed.

(** Once at the end of the kernel, a wave stays as it is. *)
Lemma exec_done_unique (cfg : Config) (hw : HwIdx) (args : Args) (sync : bool)
  (n1 n2 : nat) (w : Wave) (sh : Shared) :
  w_pc (fst (exec cfg hw args sync n1 w sh)) = PcDone ->
  w_pc (fst (exec cfg hw args sync n2 w sh)) = PcDone ->
  exec cfg hw args sync n1 w sh = exec cfg hw args sync n2 w sh.
Proof.
  assert (H : forall a b,
             w_pc (fst (exec cfg hw args sync a w sh)) = PcDone ->
             exec cfg hw args sync (a + b) w sh = exec cfg hw args sync a w sh).
  { intros a b Ha. rewrite exec_add, exec_done by exact Ha.
    now rewrite <- surjective_pairing. }
  intros H1 H2. destruct (Nat.le_ge_cases n1 n2) as [L|L].
  - replace n2 with (n1 + (n2 - n1))%nat by lia. symmetry. apply H. exact H1.
  - replace n1 with (n2 + (n1 - n2))%nat by lia. apply H. exact H2.
Qed.

Lemma exec_snoc (cfg : Config) (hw : HwIdx) (args : Args) (sync : bool) (n : nat)
  (w : Wave) (sh : Shared) :
  exec cfg hw args sync (S n) w sh
  = step cfg hw args sync (fst (exec cfg hw args sync n w sh))
         (snd (exec cfg hw args sync n w sh)).
Proof.
  replace (S n) with (n + 1)%nat by lia. rewrite exec_add.
  rewrite exec_S. cbn [exec]. now rewrite <- surjective_pairing.
Qed.

(** *** The slots of different waves *)

Section CrossSlots.

Variable cfg : Config.
Variables hw hw' : HwIdx.

Hypothesis HW : 0 < registerFileWidth cfg.
Hypothesis Hhw : hw_ok cfg hw.
Hypothesis Hhw' : hw_ok cfg hw'.
Hypothesis Hbx : blockDim_x hw' = blockDim_x hw.
Hypothesis Hby : blockDim_y hw' = blockDim_y hw.
Hypothesis Hasrt : static_asserts cfg = true.

Lemma same_ldLds : ldLds cfg hw' = ldLds cfg hw.
Proof using Hby.
  unfold ldLds, workgroupDim, MappingUtil.workgroupDim. cbn [snd]. now rewrite Hby.
Qed.

Lemma same_baseAddrLdsB : baseAddrLdsB cfg hw' = baseAddrLdsB cfg hw.
Proof using Hbx Hby.
  unfold baseAddrLdsB. rewrite same_ldLds.
  unfold workgroupDim, MappingUtil.workgroupDim. cbn [fst]. now rewrite Hbx.
Qed.

(** Two elements of slots of the same kind at the same address belong to
    the same wave. *)
Lemma slot_same_wave (size rows0 p q : N) :
  size <= rows0 ->
  p < size * registerFileWidth cfg -> q < size * registerFileWidth cfg ->
  MappingUtil.dataOffset row_major (ldLds cfg hw)
    (MappingUtil.matrixCoord rows0 (registerFileWidth cfg)
       (MappingUtil.waveCoord (registerFileWidth cfg) hw))
  + MappingUtil.dataOffset row_major (ldLds cfg hw)
      (wmma.tileCoord (registerFileWidth cfg) p)
  = MappingUtil.dataOffset row_major (ldLds cfg hw')
      (MappingUtil.matrixCoord rows0 (registerFileWidth cfg)
         (MappingUtil.waveCoord (registerFileWidth cfg) hw'))
    + MappingUtil.dataOffset row_major (ldLds cfg hw')
        (wmma.tileCoord (registerFileWidth cfg) q) ->
  MappingUtil.waveCoord (registerFileWidth cfg) hw
  = MappingUtil.waveCoord (registerFileWidth cfg) hw'.
Proof using HW Hhw Hhw' Hby.
  intros Hsz Hp Hq.
  destruct (slot_bounds cfg hw HW Hhw size rows0 p Hp) as (E1 & R1 & C1).
  destruct (slot_bounds cfg hw' HW Hhw' size rows0 q Hq) as (E2 & R2 & C2).
  rewrite E1, E2. rewrite same_ldLds in *.
  destruct (divmod_spec p _ HW) as [_ Lp]. destruct (divmod_spec q _ HW) as [_ Lq].
  revert R1 R2 C1 C2 Lp Lq.
  generalize (p / registerFileWidth cfg) (p mod registerFileWidth cfg)
             (q / registerFileWidth cfg) (q mod registerFileWidth cfg).
  destruct (MappingUtil.waveCoord (registerFileWidth cfg) hw) as [wx wy].
  destruct (MappingUtil.waveCoord (registerFileWidth cfg) hw') as [wx' wy'].
  cbn [fst snd]. generalize (ldLds cfg hw) (registerFileWidth cfg) HW.
  clear - Hsz. intros L W HW r c r' c' R1 R2 C1 C2 Lp Lq E.
  assert (Er : wx * rows0 + r = wx' * rows0 + r') by nia.
  assert (Ec : wy * W + c = wy' * W + c') by nia.
  assert (wx = wx') by nia. assert (wy = wy') by nia. congruence.
Qed.

Lemma ldsA_cross (p q : N) :
  MappingUtil.waveCoord (registerFileWidth cfg) hw
  <> MappingUtil.waveCoord (registerFileWidth cfg) hw' ->
  p < FragLdsA_size cfg * registerFileWidth cfg ->
  q < FragLdsA_size cfg * registerFileWidth cfg ->
  ldsA_addr cfg hw p <> ldsA_addr cfg hw' q.
Proof using HW Hhw Hhw' Hbx Hby Hasrt.
  intros Hne Hp Hq E. apply Hne.
  destruct (asserts_eqs cfg Hasrt) as (_ & Es & _ & _).
  apply (slot_same_wave (FragLdsA_size cfg) (FragA_size cfg) p q); [lia | exact Hp | exact Hq |].
  unfold ldsA_addr, addrLdsA, MappingUtil.dataCoord, matrixCoordLdsA, baseAddrLdsA in E.
  lia.
Qed.

Lemma ldsB_cross (p q : N) :
  MappingUtil.waveCoord (registerFileWidth cfg) hw
  <> MappingUtil.waveCoord (registerFileWidth cfg) hw' ->
  p < FragLdsB_size cfg * registerFileWidth cfg ->
  q < FragLdsB_size cfg * registerFileWidth cfg ->
  ldsB_addr cfg hw p <> ldsB_addr cfg hw' q.
Proof using HW Hhw Hhw' Hbx Hby Hasrt.
  intros Hne Hp Hq E. apply Hne.
  destruct (asserts_eqs cfg Hasrt) as (_ & _ & _ & Es).
  apply (slot_same_wave (FragLdsB_size cfg) (FragB_size cfg) p q); [lia | exact Hp | exact Hq |].
  unfold ldsB_addr, addrLdsB, MappingUtil.dataCoord, matrixCoordLdsB in E.
  rewrite same_baseAddrLdsB in E. lia.
Qed.

Lemma ldsA_ldsB_cross (p q : N) :
  p < FragLdsA_size cfg * registerFileWidth cfg ->
  q < FragLdsB_size cfg * registerFileWidth cfg ->
  ldsA_addr cfg hw p <> ldsB_addr cfg hw' q.
Proof using HW Hhw Hhw' Hbx Hby Hasrt.
  intros Hp Hq.
  pose proof (ldsA_addr_range cfg hw HW Hhw Hasrt p Hp) as [_ H1].
  pose proof (ldsB_addr_range cfg hw' HW Hhw' Hasrt q Hq) as [H2 _].
  rewrite same_baseAddrLdsB in H2. lia.
Qed.

End CrossSlots.


(** *** What one statement reads and writes *)

Section StepFootprint.

Variable cfg : Config.
Variable hw : HwIdx.
Variable args : Args.
Variable sync : bool.

Ltac step_cases w :=
  unfold step; destruct (w_pc w);
  repeat match goal with
         | |- context [if ?c then _ else _] => destruct c
         end;
  cbn [fst snd lds dmem set_lds set_dmem].

(** A statement changes shared memory only inside the two slots of its
    wave. *)
Lemma step_lds_frame (w : Wave) (sh : Shared) (x : N) :
  outside_slots cfg hw x ->
  lds (snd (step cfg hw args sync w sh)) x = lds sh x.
Proof.
  intros [HA HB]. step_cases w; try reflexivity;
    unfold store_lds; apply store_matrix_sync_outside; assumption.
Qed.

(** A statement changes the output buffer only at the final store, inside
    the tile of its wave. *)
Lemma step_dmem_frame (w : Wave) (sh : Shared) (x : N) :
  (w_pc w = PcStoreD ->
   forall p, p < BlockM cfg * BlockN cfg -> d_addr cfg hw args p <> x) ->
  dmem (snd (step cfg hw args sync w sh)) x = dmem sh x.
Proof.
  intros H. unfold step. destruct (w_pc w) eqn:E;
    repeat match goal with
           | |- context [if ?c then _ else _] => destruct c
           end;
    cbn [fst snd lds dmem set_lds set_dmem]; try reflexivity.
  apply store_matrix_sync_outside. exact (H eq_refl).
Qed.

(** What a statement does to the registers depends on shared memory only
    through the two slots of its wave. *)
Lemma step_local (w : Wave) (sh sh' : Shared) :
  (forall p, p < FragLdsA_size cfg * registerFileWidth cfg ->
     lds sh (ldsA_addr cfg hw p) = lds sh' (ldsA_addr cfg hw p)) ->
  (forall p, p < FragLdsB_size cfg * registerFileWidth cfg ->
     lds sh (ldsB_addr cfg hw p) = lds sh' (ldsB_addr cfg hw p)) ->
  fst (step cfg hw args sync w sh) = fst (step cfg hw args sync w sh').
Proof.
  intros HA HB.
  assert (EA : load_lds cfg hw (FragLdsA_size cfg) (fragA w) (lds sh) (addrLdsA cfg hw)
               = load_lds cfg hw (FragLdsA_size cfg) (fragA w) (lds sh') (addrLdsA cfg hw)).
  { apply functional_extensionality. intros p.
    unfold load_lds, wmma.load_matrix_sync.
    destruct (p <? FragLdsA_size cfg * registerFileWidth cfg) eqn:Hp; [|reflexivity].
    apply N.ltb_lt in Hp. exact (HA p Hp). }
  assert (EB : load_lds cfg hw (FragLdsB_size cfg) (fragB w) (lds sh) (addrLdsB cfg hw)
               = load_lds cfg hw (FragLdsB_size cfg) (fragB w) (lds sh') (addrLdsB cfg hw)).
  { apply functional_extensionality. intros p.
    unfold load_lds, wmma.load_matrix_sync.
    destruct (p <? FragLdsB_size cfg * registerFileWidth cfg) eqn:Hp; [|reflexivity].
    apply N.ltb_lt in Hp. exact (HB p Hp). }
  step_cases w; rewrite ?EA, ?EB; reflexivity.
Qed.

(** Where two shared states agree before a statement, they agree after
    it. *)
Lemma step_agree_lds (w : Wave) (sh sh' : Shared) (x : N) :
  lds sh x = lds sh' x ->
  lds (snd (step cfg hw args sync w sh)) x = lds (snd (step cfg hw args sync w sh')) x.
Proof.
  intros H. step_cases w; try exact H;
    unfold store_lds, wmma.store_matrix_sync; apply store_elems_agree; exact H.
Qed.

Lemma step_agree_dmem (w : Wave) (sh sh' : Shared) (x : N) :
  dmem sh x = dmem sh' x ->
  dmem (snd (step cfg hw args sync w sh)) x = dmem (snd (step cfg hw args sync w sh')) x.
Proof.
  intros H. step_cases w; try exact H;
    unfold wmma.store_matrix_sync; apply store_elems_agree; exact H.
Qed.

(** Only a wave that passed the bounds test is inside the kernel body. *)
Definition proceeds (w : Wave) : Prop :=
  match w_pc w with
  | PcEntry | PcDone => True
  | _ => in_bounds cfg hw args = true
  end.

Lemma step_proceeds (w : Wave) (sh : Shared) :
  proceeds w -> proceeds (fst (step cfg hw args sync w sh)).
Proof.
  unfold proceeds, step. destruct (w_pc w) eqn:E; intros H;
    repeat match goal with
           | |- context [if ?c then _ else _] => destruct c eqn:?
           end;
    cbn [fst w_pc goto]; rewrite ?E;
    try exact H; try exact I; try reflexivity; assumption.
Qed.

Lemma exec_proceeds (n : nat) (sh : Shared) :
  proceeds (fst (exec cfg hw args sync n wave_init sh)).
Proof.
  induction n as [|n IH]; [exact I|]. rewrite exec_snoc. apply step_proceeds. exact IH.
Qed.

End StepFootprint.

(** *** The workgroup *)

(** The waves of a workgroup, numbered from 0, and the memory they share. *)
Record Workgroup : Type := mkWorkgroup {
  wg_waves : nat -> Wave;
  wg_shared : Shared
}.

Definition upd_wave (ws : nat -> Wave) (j : nat) (w : Wave) : nat -> Wave :=
  fun i => if Nat.eqb i j then w else ws i.

Definition is_done (w : Wave) : bool :=
  match w_pc w with PcDone => true | _ => false end.
Definition at_sync (w : Wave) : bool :=
  match w_pc w with PcSync => true | _ => false end.

(** Number of workgroup barriers that the wave has gone through. *)
Definition barriers_passed (w : Wave) : nat := count is_sync (trace w).

(** Modelled from the spec: [synchronize_workgroup] is not part of the given
    sources; section 4.3 (4a) calls it a full workgroup barrier.  Wave [j],
    waiting at the barrier, goes on when every wave of the workgroup has
    left the kernel, has gone through more barriers than [j], or waits at
    the same barrier. *)
Definition barrier_open (n : nat) (ws : nat -> Wave) (j : nat) : bool :=
  forallb (fun i =>
             is_done (ws i)
             || (barriers_passed (ws j) <? barriers_passed (ws i))%nat
             || ((barriers_passed (ws j) =? barriers_passed (ws i))%nat
                 && at_sync (ws i)))
          (seq 0 n).

(** Wave [j] can execute its next statement.  With [sync = false] the
    barrier is replaced by nothing and never holds a wave back. *)
Definition can_step (sync : bool) (n : nat) (ws : nat -> Wave) (j : nat) : bool :=
  (j <? n)%nat && (if sync && at_sync (ws j) then barrier_open n ws j else true).

Definition hw_dflt : HwIdx := mkHwIdx 0 0 0 0 0 0.

(** The scheduler picks wave [j]: it executes one statement if it can. *)
Definition wg_step (cfg : Config) (args : Args) (hws : list HwIdx) (sync : bool)
  (j : nat) (wg : Workgroup) : Workgroup :=
  if can_step sync (length hws) (wg_waves wg) j then
    mkWorkgroup
      (upd_wave (wg_waves wg) j
         (fst (step cfg (nth j hws hw_dflt) args sync (wg_waves wg j) (wg_shared wg))))
      (snd (step cfg (nth j hws hw_dflt) args sync (wg_waves wg j) (wg_shared wg)))
  else wg.

(** A schedule is the list of the waves picked, in order. *)
Fixpoint wg_run (cfg : Config) (args : Args) (hws : list HwIdx) (sync : bool)
  (schedule : list nat) (wg : Workgroup) : Workgroup :=
  match schedule with
  | [] => wg
  | j :: rest => wg_run cfg args hws sync rest (wg_step cfg args hws sync j wg)
  end.

Definition wg_init (sh : Shared) : Workgroup := mkWorkgroup (fun _ => wave_init) sh.

Definition wg_done (n : nat) (wg : Workgroup) : bool :=
  forallb (fun i => is_done (wg_waves wg i)) (seq 0 n).

(** The waves [hws] form one workgroup of [bdx x bdy] threads: each wave is
    a legal wave of it, no two waves have the same wave coordinate, and the
    output tiles of the waves that pass the bounds test do not overlap. *)
Definition workgroup_ok (cfg : Config) (args : Args) (hws : list HwIdx)
  (bdx bdy : N) : Prop :=
  (forall i, (i < length hws)%nat ->
     hw_ok cfg (nth i hws hw_dflt) /\
     blockDim_x (nth i hws hw_dflt) = bdx /\ blockDim_y (nth i hws hw_dflt) = bdy) /\
  (forall i j, (i < length hws)%nat -> (j < length hws)%nat -> i <> j ->
     MappingUtil.waveCoord (registerFileWidth cfg) (nth i hws hw_dflt)
     <> MappingUtil.waveCoord (registerFileWidth cfg) (nth j hws hw_dflt)) /\
  (forall i j, (i < length hws)%nat -> (j < length hws)%nat -> i <> j ->
     in_bounds cfg (nth i hws hw_dflt) args = true ->
     in_bounds cfg (nth j hws hw_dflt) args = true ->
     forall p q, p < BlockM cfg * BlockN cfg -> q < BlockM cfg * BlockN cfg ->
       d_addr cfg (nth i hws hw_dflt) args p <> d_addr cfg (nth j hws hw_dflt) args q).

Section Concurrent.

Variable cfg : Config.
Variable args : Args.
Variable hws : list HwIdx.
Variables bdx bdy : N.
Variable sh0 : Shared.
Variable sync : bool.

Hypothesis HW : 0 < registerFileWidth cfg.
Hypothesis Hasrt : static_asserts cfg = true.
Hypothesis Hwg : workgroup_ok cfg args hws bdx bdy.

Let hw (i : nat) : HwIdx := nth i hws hw_dflt.

(** Wave [i] after [k] statements, had it run alone from the start. *)
Let alone (i k : nat) : Wave * Shared := exec cfg (hw i) args sync k wave_init sh0.

(** Wave [i] is where it would be after [ks i] of its own statements, had
    it run alone; shared memory and the output buffer hold in the footprint
    of each wave what they would hold then, and the output buffer is
    untouched elsewhere. *)
Definition WgAt (ks : nat -> nat) (wg : Workgroup) : Prop :=
  (forall i, (i < length hws)%nat ->
     wg_waves wg i = fst (alone i (ks i)) /\
     (forall p, p < FragLdsA_size cfg * registerFileWidth cfg ->
        lds (wg_shared wg) (ldsA_addr cfg (hw i) p)
        = lds (snd (alone i (ks i))) (ldsA_addr cfg (hw i) p)) /\
     (forall p, p < FragLdsB_size cfg * registerFileWidth cfg ->
        lds (wg_shared wg) (ldsB_addr cfg (hw i) p)
        = lds (snd (alone i (ks i))) (ldsB_addr cfg (hw i) p)) /\
     (in_bounds cfg (hw i) args = true ->
      forall p, p < BlockM cfg * BlockN cfg ->
        dmem (wg_shared wg) (d_addr cfg (hw i) args p)
        = dmem (snd (alone i (ks i))) (d_addr cfg (hw i) args p))) /\
  (forall x,
     (forall i, (i < length hws)%nat -> in_bounds cfg (hw i) args = true ->
        forall p, p < BlockM cfg * BlockN cfg -> d_addr cfg (hw i) args p <> x) ->
     dmem (wg_shared wg) x = dmem sh0 x).

Definition WgInv (wg : Workgroup) : Prop := exists ks, WgAt ks wg.

(** Wave [j] has executed one more statement. *)
Definition bump (ks : nat -> nat) (j : nat) : nat -> nat :=
  fun i => if Nat.eqb i j then S (ks i) else ks i.

Lemma wg_init_at : WgAt (fun _ => O) (wg_init sh0).
Proof.
  split.
  - intros i Hi. repeat split.
  - intros x _. reflexivity.
Qed.

Lemma wg_init_inv : WgInv (wg_init sh0).
Proof. exists (fun _ => O). exact wg_init_at. Qed.

Lemma can_step_lt (ws : nat -> Wave) (j : nat) :
  can_step sync (length hws) ws j = true -> (j < length hws)%nat.
Proof.
  unfold can_step. intros H. apply andb_prop in H as [H _].
  now apply Nat.ltb_lt in H.
Qed.

(** A statement of wave [j] leaves the slots of another wave [i] alone. *)
Lemma other_slots_outside (i j : nat) :
  (i < length hws)%nat -> (j < length hws)%nat -> i <> j ->
  (forall p, p < FragLdsA_size cfg * registerFileWidth cfg ->
     outside_slots cfg (hw j) (ldsA_addr cfg (hw i) p)) /\
  (forall p, p < FragLdsB_size cfg * registerFileWidth cfg ->
     outside_slots cfg (hw j) (ldsB_addr cfg (hw i) p)).
Proof.
  intros Hi Hj Hne. destruct Hwg as (Hok & Hwc & _).
  destruct (Hok i Hi) as (Hoki & Hxi & Hyi). destruct (Hok j Hj) as (Hokj & Hxj & Hyj).
  fold (hw i) in Hoki, Hxi, Hyi. fold (hw j) in Hokj, Hxj, Hyj.
  assert (Ex : blockDim_x (hw i) = blockDim_x (hw j)) by congruence.
  assert (Ey : blockDim_y (hw i) = blockDim_y (hw j)) by congruence.
  assert (Hc : MappingUtil.waveCoord (registerFileWidth cfg) (hw j)
               <> MappingUtil.waveCoord (registerFileWidth cfg) (hw i)).
  { apply Hwc; auto. }
  split; intros p Hp; split; intros q Hq.
  - apply (ldsA_cross cfg (hw j) (hw i)); auto.
  - intros E. symmetry in E. revert E.
    apply (ldsA_ldsB_cross cfg (hw i) (hw j)); auto.
  - apply (ldsA_ldsB_cross cfg (hw j) (hw i)); auto.
  - apply (ldsB_cross cfg (hw j) (hw i)); auto.
Qed.

Lemma wg_step_at (j : nat) (ks : nat -> nat) (wg : Workgroup) :
  WgAt ks wg -> can_step sync (length hws) (wg_waves wg) j = true ->
  WgAt (bump ks j) (wg_step cfg args hws sync j wg).
Proof.
  intros [Hwaves Hrest] Hcan. unfold wg_step. rewrite Hcan.
  apply can_step_lt in Hcan as Hj. fold (hw j).
  destruct (Hwaves j Hj) as (Ewj & HAj & HBj & HDj).
  assert (Hfr : forall x,
            (in_bounds cfg (hw j) args = true ->
             forall p, p < BlockM cfg * BlockN cfg -> d_addr cfg (hw j) args p <> x) ->
            dmem (snd (step cfg (hw j) args sync (wg_waves wg j) (wg_shared wg))) x
            = dmem (wg_shared wg) x).
  { intros x Hx. apply step_dmem_frame. intros Hpc. apply Hx.
    pose proof (exec_proceeds cfg (hw j) args sync (ks j) sh0) as Hp.
    fold (alone j (ks j)) in Hp. rewrite <- Ewj in Hp. unfold proceeds in Hp.
    now rewrite Hpc in Hp. }
  split.
  - intros i Hi. cbn [wg_waves wg_shared]. unfold upd_wave, bump.
    destruct (Nat.eqb_spec i j) as [->|Hne].
    + unfold alone. rewrite exec_snoc. fold (alone j (ks j)).
      rewrite Ewj. split; [|split; [|split]].
      * apply step_local; assumption.
      * intros p Hp. apply step_agree_lds. apply HAj. exact Hp.
      * intros p Hp. apply step_agree_lds. apply HBj. exact Hp.
      * intros Hin p Hp. apply step_agree_dmem. apply HDj; assumption.
    + destruct (Hwaves i Hi) as (Ewi & HAi & HBi & HDi).
      destruct (other_slots_outside i j Hi Hj Hne) as [OA OB].
      split; [exact Ewi|]. split; [|split].
      * intros p Hp. rewrite step_lds_frame by (apply OA; exact Hp). apply HAi. exact Hp.
      * intros p Hp. rewrite step_lds_frame by (apply OB; exact Hp). apply HBi. exact Hp.
      * intros Hin p Hp. rewrite Hfr; [apply HDi; assumption|].
        intros Hinj q Hq. destruct Hwg as (_ & _ & Ht).
        apply (Ht j i); auto.
  - intros x Hx. cbn [wg_shared]. rewrite Hfr; [apply Hrest; exact Hx|].
    intros Hinj p Hp. apply (Hx j); assumption.
Qed.

Lemma wg_step_inv (j : nat) (wg : Workgroup) :
  WgInv wg -> WgInv (wg_step cfg args hws sync j wg).
Proof.
  intros [ks H].
  destruct (can_step sync (length hws) (wg_waves wg) j) eqn:Hcan.
  - exists (bump ks j). now apply wg_step_at.
  - exists ks. unfold wg_step. now rewrite Hcan.
Qed.

Lemma wg_run_inv (schedule : list nat) :
  forall wg, WgInv wg -> WgInv (wg_run cfg args hws sync schedule wg).
Proof.
  induction schedule as [|j rest IH]; intros wg H; [exact H|].
  cbn [wg_run]. apply IH. apply wg_step_inv. exact H.
Qed.

End Concurrent.

Lemma bounded_search (f : N -> N) (cnt x : N) :
  (exists p, p < cnt /\ f p = x) \/ (forall p, p < cnt -> f p <> x).
Proof.
  induction cnt as [|c IH] using N.peano_ind.
  - right. intros p Hp. lia.
  - destruct IH as [(p & Hp & E)|IH].
    + left. exists p. split; [lia | exact E].
    + destruct (N.eq_dec (f c) x) as [E|Hne].
      * left. exists c. split; [lia | exact E].
      * right. intros p Hp. destruct (N.eq_dec p c) as [->|Hpc]; [exact Hne|].
        apply IH. lia.
Qed.

(** An address of the output buffer belongs to the tile of a wave that
    passes the bounds test, or to none. *)
Lemma tile_search (cfg : Config) (args : Args) (hws : list HwIdx) (x : N) :
  (exists i, (i < length hws)%nat /\
     in_bounds cfg (nth i hws hw_dflt) args = true /\
     exists p, p < BlockM cfg * BlockN cfg /\ d_addr cfg (nth i hws hw_dflt) args p = x) \/
  (forall i, (i < length hws)%nat ->
     in_bounds cfg (nth i hws hw_dflt) args = true ->
     forall p, p < BlockM cfg * BlockN cfg -> d_addr cfg (nth i hws hw_dflt) args p <> x).
Proof.
  assert (H : forall n, (n <= length hws)%nat ->
    (exists i, (i < n)%nat /\
       in_bounds cfg (nth i hws hw_dflt) args = true /\
       exists p, p < BlockM cfg * BlockN cfg /\ d_addr cfg (nth i hws hw_dflt) args p = x) \/
    (forall i, (i < n)%nat ->
       in_bounds cfg (nth i hws hw_dflt) args = true ->
       forall p, p < BlockM cfg * BlockN cfg -> d_addr cfg (nth i hws hw_dflt) args p <> x)).
  { induction n as [|n IH]; intros Hn.
    - right. intros i Hi. lia.
    - destruct (IH ltac:(lia)) as [(i & Hi & Hin & Hp)|Hno].
      + left. exists i. split; [lia|]. split; assumption.
      + destruct (in_bounds cfg (nth n hws hw_dflt) args) eqn:Hin.
        * destruct (bounded_search (d_addr cfg (nth n hws hw_dflt) args)
                      (BlockM cfg * BlockN cfg) x) as [Hp|Hp].
          -- left. exists n. split; [lia|]. split; assumption.
          -- right. intros i Hi Hini. destruct (Nat.eq_dec i n) as [->|Hne]; [exact Hp|].
             apply Hno; [lia | exact Hini].
        * right. intros i Hi Hini. destruct (Nat.eq_dec i n) as [->|Hne]; [congruence|].
          apply Hno; [lia | exact Hini]. }
  destruct (H (length hws) (le_n _)) as [(i & Hi & R)|R]; [left; exists i|right]; auto.
Qed.

Lemma wg_done_all (n : nat) (wg : Workgroup) (i : nat) :
  wg_done n wg = true -> (i < n)%nat -> w_pc (wg_waves wg i) = PcDone.
Proof.
  unfold wg_done. rewrite forallb_forall. intros H Hi.
  specialize (H i). rewrite in_seq in H. specialize (H ltac:(lia)).
  unfold is_done in H. destruct (w_pc (wg_waves wg i)); congruence.
Qed.

(** *** Every workgroup has a complete schedule *)

(** Among the indices below [n] that satisfy [P], one has the least [f]. *)
Lemma least_index (P : nat -> bool) (f : nat -> nat) (n : nat) :
  (exists i, (i < n)%nat /\ P i = true) ->
  exists j, (j < n)%nat /\ P j = true /\
            forall i, (i < n)%nat -> P i = true -> (f j <= f i)%nat.
Proof.
  induction n as [|n IH]; intros (i & Hi & HP); [lia|].
  destruct (P n) eqn:En.
  - assert (D : (exists i, (i < n)%nat /\ P i = true) \/
                (forall i, (i < n)%nat -> P i = false)).
    { clear. induction n as [|m IHm]; [right; intros; lia|].
      destruct IHm as [(i & Hi & Hp)|Hno].
      - left. exists i. split; [lia | exact Hp].
      - destruct (P m) eqn:Em.
        + left. exists m. split; [lia | exact Em].
        + right. intros i Hi. destruct (Nat.eq_dec i m) as [->|Hne]; [exact Em|].
          apply Hno. lia. }
    destruct D as [Hex|Hno].
    + destruct (IH Hex) as (j & Hj & Pj & Hmin).
      destruct (Nat.le_gt_cases (f j) (f n)) as [Hle|Hgt].
      * exists j. split; [lia|]. split; [exact Pj|].
        intros i' Hi' Pi'. destruct (Nat.eq_dec i' n) as [->|Hne]; [exact Hle|].
        apply Hmin; [lia | exact Pi'].
      * exists n. split; [lia|]. split; [exact En|].
        intros i' Hi' Pi'. destruct (Nat.eq_dec i' n) as [->|Hne]; [lia|].
        specialize (Hmin i' ltac:(lia) Pi'). lia.
    + exists n. split; [lia|]. split; [exact En|].
      intros i' Hi' Pi'. destruct (Nat.eq_dec i' n) as [->|Hne]; [lia|].
      rewrite Hno in Pi' by lia. discriminate.
  - destruct (Nat.eq_dec i n) as [->|Hne]; [congruence|].
    assert (Hin : (i < n)%nat) by lia.
    destruct (IH (ex_intro _ i (conj Hin HP))) as (j & Hj & Pj & Hmin).
    exists j. split; [lia|]. split; [exact Pj|].
    intros i' Hi' Pi'. destruct (Nat.eq_dec i' n) as [->|Hne']; [congruence|].
    apply Hmin; [lia | exact Pi'].
Qed.

Lemma wg_not_done (n : nat) (wg : Workgroup) :
  wg_done n wg = false -> exists i, (i < n)%nat /\ is_done (wg_waves wg i) = false.
Proof.
  unfold wg_done. intros H.
  assert (G : forall l, forallb (fun i => is_done (wg_waves wg i)) l = false ->
                        exists i, In i l /\ is_done (wg_waves wg i) = false).
  { induction l as [|a l IH]; cbn; [discriminate|].
    destruct (is_done (wg_waves wg a)) eqn:E; cbn; intros Hl.
    - destruct (IH Hl) as (i & Hi & Hd). exists i. auto.
    - exists a. auto. }
  destruct (G _ H) as (i & Hi & Hd). apply in_seq in Hi. exists i. split; [lia | exact Hd].
Qed.

(** A wave that has not left the kernel, and that no barrier holds back. *)
Lemma deadlock_free (sync : bool) (n : nat) (ws : nat -> Wave) :
  (exists i, (i < n)%nat /\ is_done (ws i) = false) ->
  exists j, (j < n)%nat /\ is_done (ws j) = false /\ can_step sync n ws j = true.
Proof.
  intros Hex.
  destruct (least_index (fun i => negb (is_done (ws i)))
              (fun i => if at_sync (ws i) then S (barriers_passed (ws i)) else O) n)
    as (j & Hj & Pj & Hmin).
  { destruct Hex as (i & Hi & Hd). exists i. now rewrite Hd. }
  apply negb_true_iff in Pj.
  exists j. split; [exact Hj|]. split; [exact Pj|].
  unfold can_step. apply Nat.ltb_lt in Hj as Hj'. rewrite Hj'. cbn [andb].
  destruct sync; [|reflexivity]. cbn [andb].
  destruct (at_sync (ws j)) eqn:Es; [|reflexivity].
  unfold barrier_open. apply forallb_forall. intros i Hi. apply in_seq in Hi.
  destruct (is_done (ws i)) eqn:Ed; [reflexivity|]. cbn [orb].
  specialize (Hmin i ltac:(lia)). cbn beta in Hmin. rewrite Ed in Hmin.
  specialize (Hmin eq_refl).
  destruct (at_sync (ws i)) eqn:Esi; [|lia].
  rewrite andb_true_r.
  destruct (Nat.ltb_spec (barriers_passed (ws j)) (barriers_passed (ws i))) as [|Hge];
    [reflexivity|].
  cbn [orb]. apply Nat.eqb_eq. lia.
Qed.

Lemma sum_le (f g : nat -> nat) (l : list nat) :
  (forall i, In i l -> (g i <= f i)%nat) ->
  (list_sum (map g l) <= list_sum (map f l))%nat.
Proof.
  induction l as [|a l IH]; intros Hle; simpl; [lia|].
  pose proof (Hle a (or_introl eq_refl)).
  specialize (IH (fun i Hi => Hle i (or_intror Hi))). lia.
Qed.

Lemma sum_decreases (f g : nat -> nat) (l : list nat) (j : nat) :
  In j l -> (g j < f j)%nat -> (forall i, In i l -> (g i <= f i)%nat) ->
  (list_sum (map g l) < list_sum (map f l))%nat.
Proof.
  induction l as [|a l IH]; intros Hin Hlt Hle; [contradiction|]. simpl.
  pose proof (sum_le f g l (fun i Hi => Hle i (or_intror Hi))) as Hsum.
  destruct Hin as [->|Hin].
  - lia.
  - pose proof (Hle a (or_introl eq_refl)).
    specialize (IH Hin Hlt (fun i Hi => Hle i (or_intror Hi))). lia.
Qed.

Section Progress.

Variable cfg : Config.
Variable args : Args.
Variable hws : list HwIdx.
Variables bdx bdy : N.
Variable sh0 : Shared.
Variable sync : bool.

Hypothesis Hcfg : legal_config cfg.
Hypothesis Hwg : workgroup_ok cfg args hws bdx bdy.
Hypothesis HldA : LayoutA cfg = col_major -> 0 < arg_lda args.

(** Number of statements of wave [i]. *)
Definition steps_alone (i : nat) : nat :=
  if in_bounds cfg (nth i hws hw_dflt) args then wave_steps cfg args else 1%nat.

Lemma alone_done (i k : nat) :
  (i < length hws)%nat -> (steps_alone i <= k)%nat ->
  w_pc (fst (exec cfg (nth i hws hw_dflt) args sync k wave_init sh0)) = PcDone.
Proof using Hcfg Hwg HldA.
  intros Hi Hk.
  assert (H : w_pc (fst (exec cfg (nth i hws hw_dflt) args sync (steps_alone i)
                           wave_init sh0)) = PcDone).
  { unfold steps_alone. destruct (in_bounds cfg (nth i hws hw_dflt) args) eqn:Hin.
    - destruct Hcfg as (HW & Hasrt & HBM & HBN & HBK).
      destruct Hwg as (Hok & _). destruct (Hok i Hi) as (Hhw & _).
      exact (proj1 (wave_spec cfg (nth i hws hw_dflt) args sync HW Hhw Hasrt HBM HBN HBK
                      HldA sh0 Hin)).
    - rewrite exec_S. unfold wave_init. wave_cbn. rewrite Hin. reflexivity. }
  replace k with (steps_alone i + (k - steps_alone i))%nat by lia.
  rewrite exec_add, exec_done by exact H. exact H.
Qed.

Definition remaining (ks : nat -> nat) : nat :=
  list_sum (map (fun i => steps_alone i - ks i)%nat (seq 0 (length hws))).

Lemma wg_completes_from (m : nat) :
  forall (ks : nat -> nat) (wg : Workgroup),
    WgAt cfg args hws sh0 sync ks wg -> (remaining ks <= m)%nat ->
    exists schedule,
      wg_done (length hws) (wg_run cfg args hws sync schedule wg) = true.
Proof using Hcfg Hwg HldA.
  assert (HW : 0 < registerFileWidth cfg).
  { destruct Hcfg as (HW & _). unfold registerFileWidth. rewrite HW. reflexivity. }
  assert (Hasrt : static_asserts cfg = true) by (apply Hcfg).
  induction m as [|m IH]; intros ks wg Hat Hm;
    (destruct (wg_done (length hws) wg) eqn:Hd; [exists []; exact Hd|]);
    apply wg_not_done in Hd;
    destruct (deadlock_free sync (length hws) (wg_waves wg) Hd) as (j & Hj & Hnd & Hcan);
    pose proof (wg_step_at cfg args hws bdx bdy sh0 sync HW Hasrt Hwg j ks wg Hat Hcan)
      as Hat';
    assert (Hlt : (ks j < steps_alone j)%nat)
      by (destruct (Nat.lt_ge_cases (ks j) (steps_alone j)) as [|Hge]; [assumption|];
          exfalso; destruct Hat as [Hw _]; destruct (Hw j Hj) as (E & _);
          pose proof (alone_done j (ks j) Hj Hge) as Hp;
          rewrite <- E in Hp; unfold is_done in Hnd; rewrite Hp in Hnd; discriminate);
    assert (Hdec : (remaining (bump ks j) < remaining ks)%nat)
      by (unfold remaining; apply (sum_decreases _ _ _ j);
          [apply in_seq; lia
          | unfold bump; rewrite Nat.eqb_refl; lia
          | intros i _; unfold bump; destruct (Nat.eqb i j); lia]).
  - lia.
  - destruct (IH (bump ks j) (wg_step cfg args hws sync j wg) Hat' ltac:(lia)) as [s Hs].
    exists (j :: s). exact Hs.
Qed.

Lemma wg_completes :
  exists schedule,
    wg_done (length hws) (wg_run cfg args hws sync schedule (wg_init sh0)) = true.
Proof using Hcfg Hwg HldA.
  exact (wg_completes_from (remaining (fun _ => O)) (fun _ => O) (wg_init sh0)
           (wg_init_at cfg args hws sh0 sync) (le_n _)).
Qed.

End Progress.

(** C5: take the waves of one workgroup and run them under any schedule with
    the barrier in place until all are at the end of the kernel, and under
    any schedule with the barrier replaced by nothing until all are at the
    end: the two output buffers are equal, cell by cell.  For a legal
    configuration such complete runs exist, with the barrier and without. *)
Theorem C5_barrier_not_needed
  (cfg : Config) (args : Args) (hws : list HwIdx) (bdx bdy : N) (sh0 : Shared) :
  0 < registerFileWidth cfg -> static_asserts cfg = true ->
  workgroup_ok cfg args hws bdx bdy ->
  (forall schedule_sync schedule_free,
     wg_done (length hws) (wg_run cfg args hws true schedule_sync (wg_init sh0)) = true ->
     wg_done (length hws) (wg_run cfg args hws false schedule_free (wg_init sh0)) = true ->
     forall x,
       dmem (wg_shared (wg_run cfg args hws true schedule_sync (wg_init sh0))) x
       = dmem (wg_shared (wg_run cfg args hws false schedule_free (wg_init sh0))) x) /\
  (legal_config cfg -> (LayoutA cfg = col_major -> 0 < arg_lda args) ->
   forall sync, exists schedule,
     wg_done (length hws) (wg_run cfg args hws sync schedule (wg_init sh0)) = true).
Proof.
  intros HW Hasrt Hwg. split.
  2: { intros Hcfg HldA sync. exact (wg_completes cfg args hws bdx bdy sh0 sync Hcfg Hwg HldA). }
  intros schedule_sync schedule_free Hd1 Hd2 x.
  pose proof (wg_run_inv cfg args hws bdx bdy sh0 true HW Hasrt Hwg schedule_sync
                (wg_init sh0) (wg_init_inv cfg args hws sh0 true)) as (ks1 & W1 & R1).
  pose proof (wg_run_inv cfg args hws bdx bdy sh0 false HW Hasrt Hwg schedule_free
                (wg_init sh0) (wg_init_inv cfg args hws sh0 false)) as (ks2 & W2 & R2).
  set (wg1 := wg_run cfg args hws true schedule_sync (wg_init sh0)) in *.
  set (wg2 := wg_run cfg args hws false schedule_free (wg_init sh0)) in *.
  destruct (tile_search cfg args hws x) as [(i & Hi & Hin & p & Hp & <-)|Hout].
  - destruct (W1 i Hi) as (E1 & _ & _ & D1).
    destruct (W2 i Hi) as (E2 & _ & _ & D2).
    rewrite (D1 Hin p Hp), (D2 Hin p Hp).
    pose proof (wg_done_all _ _ i Hd1 Hi) as P1. rewrite E1 in P1.
    pose proof (wg_done_all _ _ i Hd2 Hi) as P2. rewrite E2 in P2.
    destruct (exec_strip cfg (nth i hws hw_dflt) args true false (ks1 i)
                wave_init wave_init sh0 eq_refl) as [S1 S2].
    rewrite S2.
    assert (P1' : w_pc (fst (exec cfg (nth i hws hw_dflt) args false (ks1 i)
                               wave_init sh0)) = PcDone).
    { apply (f_equal w_pc) in S1. cbn [strip w_pc] in S1. congruence. }
    now rewrite (exec_done_unique cfg (nth i hws hw_dflt) args false (ks1 i) (ks2 i)
                   wave_init sh0 P1' P2).
  - rewrite (R1 x Hout), (R2 x Hout). reflexivity.
Qed.

Definition sample_workgroup : list HwIdx :=
  [mkHwIdx 0 0 0 0 128 1; mkHwIdx 0 0 64 0 128 1].

Lemma sample_workgroup_ok :
  workgroup_ok cfg16 (sample_args 32 16 32 1 0) sample_workgroup 128 1.
Proof.
  split; [|split].
  - intros [|[|i]] Hi; cbn in Hi; try lia; repeat split.
  - intros [|[|i]] [|[|j]] Hi Hj Hne; cbn in Hi, Hj; try lia; try congruence;
      vm_compute; discriminate.
  - assert (H : forall p q, p < 256 -> q < 256 ->
                  d_addr cfg16 (mkHwIdx 0 0 0 0 128 1) (sample_args 32 16 32 1 0) p
                  <> d_addr cfg16 (mkHwIdx 0 0 64 0 128 1) (sample_args 32 16 32 1 0) q).
    { intros p q Hp Hq. rewrite !d_tile_elem.
      change (matrixCoordC cfg16 (mkHwIdx 0 0 0 0 128 1)) with (0, 0).
      change (matrixCoordC cfg16 (mkHwIdx 0 0 64 0 128 1)) with (16, 0).
      unfold MappingUtil.dataOffset. cbn [fst snd LayoutD cfg16 BlockN arg_ldd sample_args].
      destruct (tileCoord_lt 16 16 p eq_refl Hp) as [P1 P2].
      destruct (tileCoord_lt 16 16 q eq_refl Hq) as [Q1 Q2].
      unfold wmma.tileCoord in *. cbn [fst snd] in *.
      revert P1 P2 Q1 Q2. generalize (p / 16) (p mod 16) (q / 16) (q mod 16).
      intros; lia. }
    intros [|[|i]] [|[|j]] Hi Hj Hne _ _ p q Hp Hq; cbn in Hi, Hj; try lia; try congruence.
    + apply H; assumption.
    + intros E. symmetry in E. revert E. apply H; assumption.
Defined.

Lemma C5_witness :
  0 < registerFileWidth cfg16 /\ static_asserts cfg16 = true /\
  workgroup_ok cfg16 (sample_args 32 16 32 1 0) sample_workgroup 128 1 /\
  wg_done 2
    (wg_run cfg16 (sample_args 32 16 32 1 0) sample_workgroup true
       (concat (repeat [0%nat; 1%nat] 21)) (wg_init (mkShared sample_lds sample_d)))
  = true /\
  wg_done 2
    (wg_run cfg16 (sample_args 32 16 32 1 0) sample_workgroup false
       (repeat 0%nat 21 ++ repeat 1%nat 21) (wg_init (mkShared sample_lds sample_d)))
  = true /\
  (forall x,
    dmem (wg_shared
            (wg_run cfg16 (sample_args 32 16 32 1 0) sample_workgroup true
               (concat (repeat [0%nat; 1%nat] 21))
               (wg_init (mkShared sample_lds sample_d)))) x
    = dmem (wg_shared
              (wg_run cfg16 (sample_args 32 16 32 1 0) sample_workgroup false
                 (repeat 0%nat 21 ++ repeat 1%nat 21)
                 (wg_init (mkShared sample_lds sample_d)))) x) /\
  (forall sync, exists schedule,
     wg_done 2
       (wg_run cfg16 (sample_args 32 16 32 1 0) sample_workgroup sync schedule
          (wg_init (mkShared sample_lds sample_d))) = true).
Proof.
  assert (H1 : 0 < registerFileWidth cfg16) by reflexivity.
  assert (H2 : static_asserts cfg16 = true) by reflexivity.
  assert (H4 : wg_done 2
                 (wg_run cfg16 (sample_args 32 16 32 1 0) sample_workgroup true
                    (concat (repeat [0%nat; 1%nat] 21))
                    (wg_init (mkShared sample_lds sample_d))) = true)
    by (vm_compute; reflexivity).
  assert (H5 : wg_done 2
                 (wg_run cfg16 (sample_args 32 16 32 1 0) sample_workgroup false
                    (repeat 0%nat 21 ++ repeat 1%nat 21)
                    (wg_init (mkShared sample_lds sample_d))) = true)
    by (vm_compute; reflexivity).
  assert (H6 : LayoutA cfg16 = col_major -> 0 < arg_lda (sample_args 32 16 32 1 0))
    by (intros _; reflexivity).
  destruct (C5_barrier_not_needed cfg16 (sample_args 32 16 32 1 0) sample_workgroup 128 1
              (mkShared sample_lds sample_d) H1 H2 sample_workgroup_ok) as [E C].
  split; [exact H1|]. split; [exact H2|]. split; [exact sample_workgroup_ok|].
  split; [exact H4|]. split; [exact H5|]. split.
  - exact (E (concat (repeat [0%nat; 1%nat] 21)) (repeat 0%nat 21 ++ repeat 1%nat 21)
             H4 H5).
  - exact (C legal_cfg16 H6).
Defined.

(* ================================================================== *)
(** * The comparator *)

(** ** Order of binary64 values *)

Lemma SFcompare_rank (x y : spec_float) :
  x <> S754_nan -> y <> S754_nan ->
  SFcompare x y = Some (lex_compare (SFrank x) (SFrank y)).
Proof.
  destruct x as [sx|sx| |sx mx ex], y as [sy|sy| |sy my ey]; intros Hx Hy;
    try congruence; cbn -[Z.compare];
    try (destruct sx; reflexivity); try (destruct sy; reflexivity);
    try (destruct sx, sy; reflexivity); try reflexivity.
  destruct sx, sy; cbn -[Z.compare]; try reflexivity.
  all: try rewrite Z.compare_opp, (Z.compare_antisym ex ey).
  all: destruct (ex ?= ey)%Z; reflexivity.
Qed.

Lemma lex_compare_refl (p : Z * Z * Z) : lex_compare p p = Eq.
Proof. destruct p as [[a b] c]. cbn. now rewrite !Z.compare_refl. Qed.

Lemma lex_compare_antisym (p q : Z * Z * Z) :
  lex_compare q p = CompOpp (lex_compare p q).
Proof.
  destruct p as [[a b] c], q as [[a' b'] c']. cbn.
  rewrite (Z.compare_antisym a a'), (Z.compare_antisym b b'), (Z.compare_antisym c c').
  destruct (a ?= a')%Z, (b ?= b')%Z, (c ?= c')%Z; reflexivity.
Qed.

Lemma lex_compare_trans (p q r : Z * Z * Z) :
  lex_compare p q <> Gt -> lex_compare q r <> Gt -> lex_compare p r <> Gt.
Proof.
  destruct p as [[a1 b1] c1], q as [[a2 b2] c2], r as [[a3 b3] c3]. cbn.
  destruct (Z.compare_spec a1 a2), (Z.compare_spec a2 a3), (Z.compare_spec a1 a3);
    try congruence; try lia;
    destruct (Z.compare_spec b1 b2), (Z.compare_spec b2 b3), (Z.compare_spec b1 b3);
    try congruence; try lia;
    destruct (Z.compare_spec c1 c2), (Z.compare_spec c2 c3), (Z.compare_spec c1 c3);
    try congruence; lia.
Qed.

Lemma is_nan_false (x : float) : is_nan x = false -> Prim2SF x <> S754_nan.
Proof. unfold is_nan. rewrite eqb_spec. intros H E. rewrite E in H. discriminate. Qed.

Lemma float_leb_rank (x y : float) :
  is_nan x = false -> is_nan y = false ->
  (x <=? y)%float = true <-> lex_compare (SFrank (Prim2SF x)) (SFrank (Prim2SF y)) <> Gt.
Proof.
  intros Hx Hy. apply is_nan_false in Hx, Hy.
  rewrite leb_spec. unfold SFleb. rewrite (SFcompare_rank _ _ Hx Hy).
  destruct (lex_compare _ _); split; congruence.
Qed.

Lemma float_ltb_rank (x y : float) :
  is_nan x = false -> is_nan y = false ->
  (x <? y)%float = true <-> lex_compare (SFrank (Prim2SF x)) (SFrank (Prim2SF y)) = Lt.
Proof.
  intros Hx Hy. apply is_nan_false in Hx, Hy.
  rewrite ltb_spec. unfold SFltb. rewrite (SFcompare_rank _ _ Hx Hy).
  destruct (lex_compare _ _); split; congruence.
Qed.

Lemma float_leb_refl (x : float) : is_nan x = false -> (x <=? x)%float = true.
Proof.
  intros Hx. apply (float_leb_rank x x Hx Hx). rewrite lex_compare_refl. discriminate.
Qed.

Lemma float_leb_trans (x y z : float) :
  is_nan x = false -> is_nan y = false -> is_nan z = false ->
  (x <=? y)%float = true -> (y <=? z)%float = true -> (x <=? z)%float = true.
Proof.
  intros Hx Hy Hz Hxy Hyz.
  apply (float_leb_rank x y Hx Hy) in Hxy. apply (float_leb_rank y z Hy Hz) in Hyz.
  apply (float_leb_rank x z Hx Hz). eapply lex_compare_trans; eassumption.
Qed.

Lemma float_ltb_leb (x y : float) :
  is_nan x = false -> is_nan y = false ->
  (x <? y)%float = true -> (x <=? y)%float = true.
Proof.
  intros Hx Hy H. apply (float_ltb_rank x y Hx Hy) in H.
  apply (float_leb_rank x y Hx Hy). congruence.
Qed.

Lemma float_leb_negb_ltb (x y : float) :
  is_nan x = false -> is_nan y = false ->
  (x <=? y)%float = negb (y <? x)%float.
Proof.
  intros Hx Hy.
  pose proof (float_leb_rank x y Hx Hy) as L. pose proof (float_ltb_rank y x Hy Hx) as R.
  rewrite (lex_compare_antisym (SFrank (Prim2SF x)) (SFrank (Prim2SF y))) in R.
  destruct (x <=? y)%float, (y <? x)%float; cbn; try reflexivity; exfalso.
  - destruct L as [L _], R as [R _]. specialize (L eq_refl). specialize (R eq_refl).
    destruct (lex_compare _ _); cbn in R; congruence.
  - destruct L as [_ L], R as [_ R].
    destruct (lex_compare _ _) eqn:E; cbn in R.
    + specialize (L ltac:(discriminate)). discriminate.
    + specialize (L ltac:(discriminate)). discriminate.
    + specialize (R eq_refl). discriminate.
Qed.

Lemma is_nan_true (x : float) : is_nan x = true -> Prim2SF x = S754_nan.
Proof.
  unfold is_nan. rewrite eqb_spec. unfold SFeqb.
  destruct (Prim2SF x) as [s|s| |s m e]; cbn; try reflexivity; try discriminate.
  - destruct s; discriminate.
  - rewrite Z.compare_refl.
    change (PosDef.Pos.compare_cont Eq m m) with (Pos.compare_cont Eq m m).
    rewrite Pos.compare_cont_refl. destruct s; discriminate.
Qed.
Lemma is_infinity_true (x : float) :
  is_infinity x = true -> exists s, Prim2SF x = S754_infinity s.
Proof.
  unfold is_infinity. rewrite eqb_spec, abs_spec.
  change (Prim2SF infinity) with (S754_infinity false).
  destruct (Prim2SF x) as [s|s| |s m e]; cbn; try discriminate.
  intros _. now exists s.
Qed.

Lemma nonfinite_bad (x y : float) :
  is_infinity x || is_nan x || is_infinity y || is_nan y = true ->
  is_infinity (abs (x - y)) || is_infinity (abs x + abs y + 1)
  || is_nan (abs (x - y) / (abs x + abs y + 1)) = true.
Proof.
  intros H.
  assert (G : SFeqb (SFabs (SFabs (SF64sub (Prim2SF x) (Prim2SF y)))) (S754_infinity false)
              || SFeqb (SFabs (SF64add (SF64add (SFabs (Prim2SF x)) (SFabs (Prim2SF y)))
                                 (S754_finite false 4503599627370496 (-52))))
                   (S754_infinity false)
              || negb (SFeqb
                   (SF64div (SFabs (SF64sub (Prim2SF x) (Prim2SF y)))
                      (SF64add (SF64add (SFabs (Prim2SF x)) (SFabs (Prim2SF y)))
                         (S754_finite false 4503599627370496 (-52))))
                   (SF64div (SFabs (SF64sub (Prim2SF x) (Prim2SF y)))
                      (SF64add (SF64add (SFabs (Prim2SF x)) (SFabs (Prim2SF y)))
                         (S754_finite false 4503599627370496 (-52))))) = true).
  { rewrite !orb_true_iff in H. destruct H as [[[H|H]|H]|H].
    - apply is_infinity_true in H as [s ->].
      destruct (Prim2SF y) as [sy|sy| |sy my ey]; destruct s; try destruct sy; reflexivity.
    - apply is_nan_true in H as ->.
      destruct (Prim2SF y) as [sy|sy| |sy my ey]; reflexivity.
    - apply is_infinity_true in H as [s ->].
      destruct (Prim2SF x) as [sx|sx| |sx mx ex]; destruct s; try destruct sx; reflexivity.
    - apply is_nan_true in H as ->.
      destruct (Prim2SF x) as [sx|sx| |sx mx ex]; reflexivity. }
  unfold is_infinity, is_nan.
  rewrite !eqb_spec, !abs_spec, !div_spec, !abs_spec, !add_spec, !sub_spec, !abs_spec.
  exact G.
Qed.

(** ** The loop of [compareEqual] *)

Lemma raise_max_not_nan (m r : float) :
  is_nan m = false -> is_nan r = false -> is_nan (raise_max m r) = false.
Proof. unfold raise_max. destruct (m <? r)%float; intros; assumption. Qed.

Lemma raise_max_ge_left (m r : float) :
  is_nan m = false -> is_nan r = false -> (m <=? raise_max m r)%float = true.
Proof.
  intros Hm Hr. unfold raise_max. destruct (m <? r)%float eqn:E.
  - now apply float_ltb_leb.
  - now apply float_leb_refl.
Qed.

Lemma raise_max_ge_right (m r : float) :
  is_nan m = false -> is_nan r = false -> (r <=? raise_max m r)%float = true.
Proof.
  intros Hm Hr. unfold raise_max. destruct (m <? r)%float eqn:E.
  - now apply float_leb_refl.
  - rewrite (float_leb_negb_ltb r m Hr Hm), E. reflexivity.
Qed.

Lemma pair_bad_nonfinite {T : Type} (D : DataType T) (valA valB : T) :
  nonfinite (toDouble D valA) || nonfinite (toDouble D valB) = true ->
  pair_bad D valA valB = true.
Proof.
  intros H. apply (nonfinite_bad (toDouble D valA) (toDouble D valB)).
  unfold nonfinite in H. now rewrite <- orb_assoc, H.
Qed.

Section CompareEqualParFacts.
Context {T : Type} (D : DataType T) (exits : bool) (a b : Mem T) (size : N) (n : nat).

Lemma compare_body_cases (st : CompareState) (valA valB : T) :
  (pair_inf D valA valB = true /\
   compare_body D st valA valB
   = mkCompareState true (isNaN st) (max_relative_error st)) \/
  (pair_inf D valA valB = false /\ is_nan (relative_error D valA valB) = true /\
   compare_body D st valA valB
   = mkCompareState (isInf st) true (max_relative_error st)) \/
  (pair_bad D valA valB = false /\
   compare_body D st valA valB
   = mkCompareState (isInf st) (isNaN st)
       (raise_max (max_relative_error st) (relative_error D valA valB))).
Proof.
  unfold compare_body, pair_bad. fold (pair_inf D valA valB).
  destruct (pair_inf D valA valB); [left; auto|].
  destruct (is_nan (relative_error D valA valB)); [right; left; auto|].
  right. right. split; [reflexivity|]. unfold raise_max.
  destruct (max_relative_error st <? relative_error D valA valB)%float;
    [reflexivity | now destruct st].
Qed.

(** What holds of the threads and the shared variables all along a run:
    a raised flag has its pair, the maximum is 0 or the error of a pair and
    is not NaN, and, as long as no flag is raised, every pair either still
    waits in a thread or is clean and below the maximum. *)
Definition OmpInv (ths : nat -> OmpThread) (st : CompareState) : Prop :=
  (forall t i, (t < n)%nat -> In i (iterations (ths t)) -> i < size) /\
  (isInf st = true -> exists i, i < size /\ pair_inf D (a i) (b i) = true) /\
  (isNaN st = true ->
   exists i, i < size /\ pair_inf D (a i) (b i) = false
             /\ is_nan (relative_error D (a i) (b i)) = true) /\
  is_nan (max_relative_error st) = false /\
  (max_relative_error st = 0%float \/
   exists i, i < size /\ max_relative_error st = relative_error D (a i) (b i)) /\
  (isInf st || isNaN st = false ->
   forall i, i < size ->
     (exists t, (t < n)%nat /\ In i (iterations (ths t))) \/
     (pair_bad D (a i) (b i) = false /\
      (relative_error D (a i) (b i) <=? max_relative_error st)%float = true)).

Lemma omp_start_inv (chunks : list (list N)) :
  length chunks = n ->
  (forall i, i < size -> In i (concat chunks)) ->
  OmpInv (omp_start size chunks) (mkCompareState false false 0).
Proof.
  intros Hn Hcov. unfold OmpInv, omp_start. cbn [isInf isNaN max_relative_error iterations].
  split; [|split; [|split; [|split; [|split]]]]; try discriminate; try reflexivity.
  - intros t i _ Hi. apply filter_In in Hi as [_ Hi]. now apply N.ltb_lt in Hi.
  - now left.
  - intros _ i Hi. left. specialize (Hcov i Hi). apply in_concat in Hcov as (c & Hc & Hic).
    apply In_nth with (d := []) in Hc as (t & Ht & <-).
    exists t. split; [lia|]. apply filter_In. split; [exact Hic|]. now apply N.ltb_lt.
Qed.

Lemma omp_step_inv (t : nat) (ths : nat -> OmpThread) (st : CompareState) :
  OmpInv ths st ->
  OmpInv (fst (omp_step D exits a b n t ths st)) (snd (omp_step D exits a b n t ths st)).
Proof.
  intros (Hlt & Hinf & Hnan & Hmax & Hatt & Hrest). unfold omp_step.
  destruct (Nat.ltb_spec t n) as [Ht|Ht]; [|repeat split; assumption].
  destruct (at_exit_test (ths t)) eqn:Eexit.
  - cbn [fst snd]. split; [|split; [|split; [|split; [|split]]]]; try assumption.
    + intros u i Hu. unfold upd_thread. destruct (Nat.eqb_spec u t) as [->|Hne].
      * cbn [iterations]. destruct (exits && (isInf st || isNaN st)); [contradiction|].
        apply Hlt, Ht.
      * apply Hlt, Hu.
    + intros Hf i Hi. destruct (Hrest Hf i Hi) as [(u & Hu & Hin)|H]; [|now right].
      left. exists u. split; [exact Hu|]. unfold upd_thread.
      destruct (Nat.eqb_spec u t) as [->|Hne]; [|exact Hin].
      cbn [iterations]. now rewrite Hf, andb_false_r.
  - destruct (iterations (ths t)) as [|i rest] eqn:Eit; [repeat split; assumption|].
    cbn [fst snd].
    assert (Hi : i < size) by (apply (Hlt t i Ht); rewrite Eit; now left).
    assert (Hlt' : forall u j, (u < n)%nat ->
                     In j (iterations (upd_thread ths t (mkOmpThread true rest) u)) ->
                     j < size).
    { intros u j Hu. unfold upd_thread. destruct (Nat.eqb_spec u t) as [->|Hne].
      - cbn [iterations]. intros Hj. apply (Hlt t j Ht). rewrite Eit. now right.
      - apply Hlt, Hu. }
    destruct (compare_body_cases st (a i) (b i)) as [(Hpi & ->)|[(Hpi & Hn & ->)|(Hg & ->)]];
      cbn [isInf isNaN max_relative_error].
    + split; [exact Hlt'|]. split; [intros _; now exists i|]. split; [exact Hnan|].
      split; [exact Hmax|]. split; [exact Hatt|]. discriminate.
    + split; [exact Hlt'|]. split; [exact Hinf|]. split; [intros _; now exists i|].
      split; [exact Hmax|]. split; [exact Hatt|]. rewrite orb_true_r. discriminate.
    + assert (Hr : is_nan (relative_error D (a i) (b i)) = false).
      { unfold pair_bad in Hg. now apply orb_false_iff in Hg. }
      pose proof (raise_max_not_nan _ _ Hmax Hr) as Hmax'.
      split; [exact Hlt'|]. split; [exact Hinf|]. split; [exact Hnan|].
      split; [exact Hmax'|]. split.
      * unfold raise_max. destruct (_ <? _)%float; [right; now exists i | exact Hatt].
      * intros Hf j Hj. destruct (Hrest Hf j Hj) as [(u & Hu & Hin)|(Hgj & Hle)].
        -- destruct (Nat.eq_dec u t) as [->|Hne].
           ++ rewrite Eit in Hin. destruct Hin as [<-|Hin].
              ** right. split; [exact Hg|]. now apply raise_max_ge_right.
              ** left. exists t. split; [exact Ht|]. unfold upd_thread.
                 now rewrite Nat.eqb_refl.
           ++ left. exists u. split; [exact Hu|]. unfold upd_thread.
              destruct (Nat.eqb_spec u t); [contradiction | exact Hin].
        -- right. split; [exact Hgj|].
           assert (Hrj : is_nan (relative_error D (a j) (b j)) = false).
           { unfold pair_bad in Hgj. now apply orb_false_iff in Hgj. }
           eapply float_leb_trans; [exact Hrj | exact Hmax | exact Hmax' | exact Hle |].
           now apply raise_max_ge_left.
Qed.

Lemma omp_run_inv (schedule : list nat) :
  forall ths st, OmpInv ths st ->
    OmpInv (fst (omp_run D exits a b n schedule ths st)) (snd (omp_run D exits a b n schedule ths st)).
Proof.
  induction schedule as [|t rest IH]; intros ths st H; [exact H|].
  cbn [omp_run]. apply IH. apply omp_step_inv. exact H.
Qed.

Lemma omp_done_all (ths : nat -> OmpThread) (t : nat) :
  omp_done n ths = true -> (t < n)%nat -> iterations (ths t) = [].
Proof.
  unfold omp_done. rewrite forallb_forall. intros H Ht.
  specialize (H t). rewrite in_seq in H. specialize (H ltac:(lia)).
  unfold thread_done in H. apply andb_prop in H as [_ H].
  now destruct (iterations (ths t)).
Qed.

(** At the end of a run without a raised flag every pair has been examined. *)
Lemma omp_final (ths : nat -> OmpThread) (st : CompareState) :
  OmpInv ths st -> omp_done n ths = true ->
  isInf st || isNaN st = false ->
  forall i, i < size ->
    pair_bad D (a i) (b i) = false /\
    (relative_error D (a i) (b i) <=? max_relative_error st)%float = true.
Proof.
  intros (_ & _ & _ & _ & _ & Hrest) Hdone Hf i Hi.
  destruct (Hrest Hf i Hi) as [(t & Ht & Hin)|H]; [|exact H].
  rewrite (omp_done_all ths t Hdone Ht) in Hin. contradiction.
Qed.

(** *** Every distribution has a complete schedule *)

Definition omp_work (ths : nat -> OmpThread) : nat :=
  list_sum (map (fun t => (2 * length (iterations (ths t))
                           + if at_exit_test (ths t) then 1 else 0)%nat)
                (seq 0 n)).

Lemma omp_not_done (ths : nat -> OmpThread) :
  omp_done n ths = false -> exists t, (t < n)%nat /\ thread_done (ths t) = false.
Proof.
  unfold omp_done. intros H.
  assert (G : forall l, forallb (fun t => thread_done (ths t)) l = false ->
                        exists t, In t l /\ thread_done (ths t) = false).
  { induction l as [|u l IH]; cbn; [discriminate|].
    destruct (thread_done (ths u)) eqn:E; cbn; intros Hl.
    - destruct (IH Hl) as (t & Ht & Hd). exists t. auto.
    - exists u. auto. }
  destruct (G _ H) as (t & Ht & Hd). apply in_seq in Ht. exists t. split; [lia | exact Hd].
Qed.

Lemma omp_run_app (s1 s2 : list nat) :
  forall ths st,
    omp_run D exits a b n (s1 ++ s2) ths st
    = omp_run D exits a b n s2 (fst (omp_run D exits a b n s1 ths st))
        (snd (omp_run D exits a b n s1 ths st)).
Proof.
  induction s1 as [|t s1 IH]; intros ths st; [reflexivity|].
  cbn [app omp_run]. apply IH.
Qed.

Lemma omp_completes_from (m : nat) :
  forall ths st, (omp_work ths <= m)%nat ->
    exists schedule, omp_done n (fst (omp_run D exits a b n schedule ths st)) = true.
Proof.
  induction m as [|m IH]; intros ths st Hm;
    (destruct (omp_done n ths) eqn:Hd; [exists []; exact Hd|]);
    apply omp_not_done in Hd; destruct Hd as (t & Ht & Hnd);
    assert (Hdec : (omp_work (fst (omp_step D exits a b n t ths st)) < omp_work ths)%nat)
      by (unfold omp_work; apply (sum_decreases _ _ _ t);
          [apply in_seq; lia
          | unfold omp_step; apply Nat.ltb_lt in Ht as Ht'; rewrite Ht';
            unfold thread_done in Hnd;
            destruct (at_exit_test (ths t)) eqn:E1;
            [ cbn [fst]; unfold upd_thread; rewrite Nat.eqb_refl;
              cbn [iterations at_exit_test];
              destruct (exits && (isInf st || isNaN st)); cbn [length]; lia
            | destruct (iterations (ths t)) as [|i rest] eqn:E2;
              [ cbn in Hnd; discriminate
              | cbn [fst]; unfold upd_thread; rewrite Nat.eqb_refl;
                cbn [iterations at_exit_test length]; lia ] ]
          | intros u _; unfold omp_step; apply Nat.ltb_lt in Ht as Ht'; rewrite Ht';
            destruct (at_exit_test (ths t)) eqn:E1;
            [ cbn [fst]; unfold upd_thread; destruct (Nat.eqb_spec u t) as [->|];
              [ cbn [iterations at_exit_test]; rewrite E1;
                destruct (exits && (isInf st || isNaN st)); cbn [length]; lia
              | lia ]
            | destruct (iterations (ths t)) as [|i rest] eqn:E2;
              [ cbn [fst]; lia
              | cbn [fst]; unfold upd_thread; destruct (Nat.eqb_spec u t) as [->|];
                [ cbn [iterations at_exit_test]; rewrite E1, E2; cbn [length]; lia
                | lia ] ] ] ]).
  - lia.
  - destruct (IH (fst (omp_step D exits a b n t ths st)) (snd (omp_step D exits a b n t ths st))
                ltac:(lia)) as [s Hs].
    exists (t :: s). exact Hs.
Qed.

(** *** When [i = size] does not end a loop, every pair is examined *)

(** Every pair still waits in a thread, or has raised [isInf] if its
    numerator or divisor is infinite. *)
Definition OmpAll (ths : nat -> OmpThread) (st : CompareState) : Prop :=
  forall i, i < size ->
    (exists t, (t < n)%nat /\ In i (iterations (ths t))) \/
    (pair_inf D (a i) (b i) = true -> isInf st = true).

Lemma omp_start_all (chunks : list (list N)) :
  length chunks = n ->
  (forall i, i < size -> In i (concat chunks)) ->
  OmpAll (omp_start size chunks) (mkCompareState false false 0).
Proof.
  intros Hn Hcov i Hi. left.
  specialize (Hcov i Hi). apply in_concat in Hcov as (c & Hc & Hic).
  apply In_nth with (d := []) in Hc as (t & Ht & <-).
  exists t. split; [lia|]. unfold omp_start. cbn [iterations].
  apply filter_In. split; [exact Hic|]. now apply N.ltb_lt.
Qed.

Lemma compare_body_isInf (st : CompareState) (valA valB : T) :
  isInf (compare_body D st valA valB) = pair_inf D valA valB || isInf st.
Proof.
  destruct (compare_body_cases st valA valB) as [(Hp & ->)|[(Hp & _ & ->)|(Hg & ->)]];
    cbn [isInf].
  - now rewrite Hp.
  - now rewrite Hp.
  - unfold pair_bad in Hg. apply orb_false_iff in Hg as [-> _]. reflexivity.
Qed.

Lemma omp_step_all (t : nat) (ths : nat -> OmpThread) (st : CompareState) :
  exits = false ->
  OmpAll ths st ->
  OmpAll (fst (omp_step D exits a b n t ths st)) (snd (omp_step D exits a b n t ths st)).
Proof.
  intros He Hall. unfold omp_step. rewrite He.
  destruct (Nat.ltb_spec t n) as [Ht|Ht]; [|exact Hall].
  destruct (at_exit_test (ths t)) eqn:Eexit.
  - cbn [fst snd andb]. intros i Hi.
    destruct (Hall i Hi) as [(u & Hu & Hin)|H]; [|now right].
    left. exists u. split; [exact Hu|]. unfold upd_thread.
    destruct (Nat.eqb_spec u t) as [->|Hne]; exact Hin.
  - destruct (iterations (ths t)) as [|i rest] eqn:Eit; [exact Hall|].
    cbn [fst snd]. intros j Hj. rewrite compare_body_isInf.
    destruct (Hall j Hj) as [(u & Hu & Hin)|H].
    + destruct (Nat.eq_dec u t) as [->|Hne].
      * rewrite Eit in Hin. destruct Hin as [<-|Hin].
        -- right. intros ->. reflexivity.
        -- left. exists t. split; [exact Ht|]. unfold upd_thread.
           now rewrite Nat.eqb_refl.
      * left. exists u. split; [exact Hu|]. unfold upd_thread.
        destruct (Nat.eqb_spec u t); [contradiction | exact Hin].
    + right. intros Hp. rewrite (H Hp). apply orb_true_r.
Qed.

Lemma omp_run_all (schedule : list nat) :
  exits = false ->
  forall ths st, OmpAll ths st ->
    OmpAll (fst (omp_run D exits a b n schedule ths st))
           (snd (omp_run D exits a b n schedule ths st)).
Proof.
  intros He. induction schedule as [|t rest IH]; intros ths st H; [exact H|].
  cbn [omp_run]. apply IH. now apply omp_step_all.
Qed.

Lemma omp_final_all (ths : nat -> OmpThread) (st : CompareState) :
  OmpAll ths st -> omp_done n ths = true ->
  (exists i, i < size /\ pair_inf D (a i) (b i) = true) -> isInf st = true.
Proof.
  intros Hall Hdone (i & Hi & Hp).
  destruct (Hall i Hi) as [(t & Ht & Hin)|H]; [|exact (H Hp)].
  rewrite (omp_done_all ths t Hdone Ht) in Hin. contradiction.
Qed.

End CompareEqualParFacts.

(** C10 (amended): for arrays of fewer than 2^31 elements (the loop
    counter is an int), [compareEqual] computes the relative error of a
    pair as |a[i] - b[i]| / (|a[i]| + |b[i]| + 1.0).  Its loop is a parallel
    loop: the iterations are handed out to threads, the threads run in any
    order, and a thread leaves the loop at the end of the first iteration
    it finishes after a flag is raised (or runs all its iterations, when the
    OpenMP runtime does not let [i = size] end the loop).  Whatever the
    distribution, and however the threads have run so far, they can all
    finish and the call returns.  If some pair has an infinite numerator or
    divisor or a NaN relative error, it returns (false, infinity) or
    (false, signaling NaN): the first when no pair has a NaN error, the
    second when no pair has an infinite numerator or divisor, and one or the
    other, as the threads happen to run, when both kinds occur; it is
    always (false, infinity) for a pair with an infinite numerator or
    divisor when [i = size] does not end the loop.  With no
    such pair it returns the maximum M of the relative errors (an upper
    bound of all of them, 0 or one of them) and fails exactly when
    M > epsilon * tolerance, which is M <= epsilon * tolerance failing when
    that product is not NaN.  An element whose [toDouble] image is infinite
    or NaN makes the comparison fail for every tolerance, and the default
    tolerance is 10. *)
Theorem C10_compareEqual_under_any_schedule
  (T : Type) (D : DataType T) (exits : bool) (a b : Mem T) (size : N) (tolerance : float)
  (chunks : list (list N)) :
  size < 2 ^ 31 ->
  (forall i, i < size -> In i (concat chunks)) ->
  (forall started, exists rest r,
     compareEqual D exits a b size tolerance chunks (started ++ rest) = Some r) /\
  (forall schedule r,
     compareEqual D exits a b size tolerance chunks schedule = Some r ->
     ((exists i, i < size /\ pair_bad D (a i) (b i) = true) ->
      (r = (false, as_double D (limits_infinity D)) \/
       r = (false, as_double D (limits_signaling_NaN D))) /\
      ((forall i, i < size -> pair_inf D (a i) (b i) = false ->
                  is_nan (relative_error D (a i) (b i)) = false) ->
       r = (false, as_double D (limits_infinity D))) /\
      ((forall i, i < size -> pair_inf D (a i) (b i) = false) ->
       r = (false, as_double D (limits_signaling_NaN D)))) /\
     ((forall i, i < size -> pair_bad D (a i) (b i) = false) ->
      exists M,
        r = (negb (toDouble D (limits_epsilon D) * tolerance <? M)%float, M) /\
        (is_nan (toDouble D (limits_epsilon D) * tolerance) = false ->
         fst r = (M <=? toDouble D (limits_epsilon D) * tolerance)%float) /\
        (forall i, i < size -> (relative_error D (a i) (b i) <=? M)%float = true) /\
        (M = 0%float \/ exists i, i < size /\ M = relative_error D (a i) (b i))) /\
     (forall i, i < size ->
        nonfinite (toDouble D (a i)) || nonfinite (toDouble D (b i)) = true ->
        fst r = false)) /\
  (exits = false ->
   forall schedule r,
     compareEqual D exits a b size tolerance chunks schedule = Some r ->
     (exists i, i < size /\ pair_inf D (a i) (b i) = true) ->
     r = (false, as_double D (limits_infinity D))) /\
  (forall schedule,
     compareEqual_default D exits a b size chunks schedule
     = compareEqual D exits a b size 10 chunks schedule).
Proof.
  intros _ Hcov. split; [|split; [|split; [|reflexivity]]].
  - intros started.
    destruct (omp_completes_from D exits a b (length chunks) _
                (fst (omp_run D exits a b (length chunks) started (omp_start size chunks)
                        (mkCompareState false false 0)))
                (snd (omp_run D exits a b (length chunks) started (omp_start size chunks)
                        (mkCompareState false false 0))) (le_n _))
      as [s Hs].
    exists s. unfold compareEqual. rewrite omp_run_app, Hs. eexists. reflexivity.
  - intros schedule r Hr. unfold compareEqual in Hr.
    pose proof (omp_run_inv D exits a b size (length chunks) schedule _ _
                  (omp_start_inv D a b size (length chunks) chunks eq_refl Hcov)) as Hinv.
    destruct (omp_done (length chunks)
                (fst (omp_run D exits a b (length chunks) schedule (omp_start size chunks)
                        (mkCompareState false false 0)))) eqn:Hdone; [|discriminate].
    injection Hr as <-.
    set (st := snd (omp_run D exits a b (length chunks) schedule (omp_start size chunks)
                      (mkCompareState false false 0))) in *.
    pose proof (omp_final D a b size (length chunks) _ st Hinv Hdone) as Hfin.
    destruct Hinv as (_ & Hinf & Hnan & Hmax & Hatt & _).
    assert (Hbad : (exists i, i < size /\ pair_bad D (a i) (b i) = true) ->
      (compare_result D st tolerance = (false, as_double D (limits_infinity D)) \/
       compare_result D st tolerance = (false, as_double D (limits_signaling_NaN D))) /\
      ((forall i, i < size -> pair_inf D (a i) (b i) = false ->
                  is_nan (relative_error D (a i) (b i)) = false) ->
       compare_result D st tolerance = (false, as_double D (limits_infinity D))) /\
      ((forall i, i < size -> pair_inf D (a i) (b i) = false) ->
       compare_result D st tolerance = (false, as_double D (limits_signaling_NaN D)))).
    { intros (i & Hi & Hb). unfold compare_result.
      destruct (isInf st) eqn:E1.
      - split; [now left|]. split; [reflexivity|].
        intros Hno. destruct (Hinf eq_refl) as (j & Hj & Hpj).
        rewrite (Hno j Hj) in Hpj. discriminate.
      - destruct (isNaN st) eqn:E2.
        + split; [now right|]. split; [|reflexivity].
          intros Hno. destruct (Hnan eq_refl) as (j & Hj & Hpj & Hnj).
          rewrite (Hno j Hj Hpj) in Hnj. discriminate.
        + destruct (Hfin eq_refl i Hi) as [Hg _]. rewrite Hg in Hb. discriminate. }
    split; [exact Hbad|]. split.
    + intros Hgood. exists (max_relative_error st).
      assert (Hf : isInf st || isNaN st = false).
      { destruct (isInf st) eqn:E1.
        - destruct (Hinf eq_refl) as (j & Hj & Hpj).
          pose proof (Hgood j Hj) as Hg. unfold pair_bad in Hg. rewrite Hpj in Hg.
          discriminate.
        - destruct (isNaN st) eqn:E2; [|reflexivity].
          destruct (Hnan eq_refl) as (j & Hj & Hpj & Hnj).
          pose proof (Hgood j Hj) as Hg. unfold pair_bad in Hg. rewrite Hpj, Hnj in Hg.
          discriminate. }
      apply orb_false_iff in Hf as [E1 E2].
      assert (E : compare_result D st tolerance
                  = (negb (toDouble D (limits_epsilon D) * tolerance
                           <? max_relative_error st)%float, max_relative_error st)).
      { unfold compare_result. rewrite E1, E2. destruct (_ <? _)%float; reflexivity. }
      split; [exact E|]. split; [|split].
      * intros Hb. rewrite E. cbn [fst]. symmetry. now apply float_leb_negb_ltb.
      * intros i Hi. apply Hfin; [now rewrite E1, E2 | exact Hi].
      * exact Hatt.
    + intros i Hi Hnf. apply (pair_bad_nonfinite D) in Hnf.
      destruct (Hbad (ex_intro _ i (conj Hi Hnf))) as ([-> | ->] & _); reflexivity.
  - intros He schedule r Hr Hex. unfold compareEqual in Hr.
    pose proof (omp_run_all D exits a b size (length chunks) schedule He _ _
                  (omp_start_all D a b size (length chunks) chunks eq_refl Hcov)) as Hall.
    destruct (omp_done (length chunks)
                (fst (omp_run D exits a b (length chunks) schedule (omp_start size chunks)
                        (mkCompareState false false 0)))) eqn:Hdone; [|discriminate].
    injection Hr as <-.
    unfold compare_result.
    rewrite (omp_final_all D a b size (length chunks) _ _ Hall Hdone Hex). reflexivity.
Qed.

(** ** Sample runs: [DataT = float32_t], given by the doubles it converts to *)

Definition float32_t : DataType float :=
  mkDataType float (fun val => val) (fun val => val) 0x1p-23%float infinity nan.

Definition cmp_a : Mem float :=
  fun i => if i =? 0 then 1%float else if i =? 1 then infinity else 2%float.
Definition cmp_b : Mem float := fun _ => 1%float.
Definition cmp_c : Mem float := fun i => if i =? 0 then 1%float else 2.5%float.
Definition cmp_d : Mem float := fun i => if i =? 0 then 1%float else 2%float.

(** C10 on two threads: an array with an infinite element fails whatever
    the schedule, with error infinity since no pair has a NaN error; a clean
    run above the threshold returns its maximum. *)
Lemma C10_witness :
  3 < 2 ^ 31 /\ 2 < 2 ^ 31 /\
  (forall i, i < 3 -> In i (concat [[0; 1]; [2]])) /\
  (forall schedule r,
     compareEqual float32_t true cmp_a cmp_b 3 1000000 [[0; 1]; [2]] schedule = Some r ->
     r = (false, infinity)) /\
  (forall started, exists rest r,
     compareEqual float32_t true cmp_a cmp_b 3 1000000 [[0; 1]; [2]] (started ++ rest)
     = Some r) /\
  (forall schedule r,
     compareEqual float32_t true cmp_c cmp_d 2 10 [[0]; [1]] schedule = Some r ->
     exists M, r = (negb (0x1p-23 * 10 <? M)%float, M) /\
               (relative_error float32_t 2.5 2 <=? M)%float = true) /\
  (forall schedule r,
     compareEqual float32_t false cmp_a cmp_b 3 1000000 [[0; 1]; [2]] schedule = Some r ->
     r = (false, infinity)).
Proof.
  assert (H3 : forall i, i < 3 -> In i (concat [[0; 1]; [2]])).
  { intros i Hi. assert (i = 0 \/ i = 1 \/ i = 2) as [-> | [-> | ->]] by lia;
      cbn; auto. }
  assert (H2 : forall i, i < 2 -> In i (concat [[0]; [1]])).
  { intros i Hi. assert (i = 0 \/ i = 1) as [-> | ->] by lia; cbn; auto. }
  destruct (C10_compareEqual_under_any_schedule float float32_t true cmp_a cmp_b 3 1000000
              [[0; 1]; [2]] eq_refl H3) as (Hex & Hall & _).
  destruct (C10_compareEqual_under_any_schedule float float32_t true cmp_c cmp_d 2 10
              [[0]; [1]] eq_refl H2) as (_ & Hall' & _).
  destruct (C10_compareEqual_under_any_schedule float float32_t false cmp_a cmp_b 3 1000000
              [[0; 1]; [2]] eq_refl H3) as (_ & _ & Hone & _).
  split; [reflexivity|]. split; [reflexivity|]. split; [exact H3|].
  split; [|split; [exact Hex|split]].
  - intros schedule r Hr. destruct (Hall schedule r Hr) as (Hb & _).
    assert (Hex1 : exists i, i < 3 /\ pair_bad float32_t (cmp_a i) (cmp_b i) = true)
      by (exists 1; split; reflexivity).
    destruct (Hb Hex1) as (_ & Hinf & _).
    apply Hinf. intros i Hi Hp.
    assert (i = 0 \/ i = 1 \/ i = 2) as [-> | [-> | ->]] by lia;
      try reflexivity. vm_compute in Hp. discriminate.
  - intros schedule r Hr. destruct (Hall' schedule r Hr) as (_ & Hg & _).
    assert (Hgood : forall i, i < 2 -> pair_bad float32_t (cmp_c i) (cmp_d i) = false).
    { intros i Hi. assert (i = 0 \/ i = 1) as [-> | ->] by lia; reflexivity. }
    destruct (Hg Hgood) as (M & E & _ & Hub & _).
    exists M. split; [exact E|]. exact (Hub 1 eq_refl).
  - intros schedule r Hr. apply (Hone eq_refl schedule r Hr).
    exists 1. split; reflexivity.
Defined.

Definition cmp_nan_inf : Mem float :=
  fun i => if i =? 0 then nan else if i =? 3 then infinity else 1%float.
Definition cmp_ref : Mem float :=
  fun i => if i =? 0 then 0%float else if i =? 3 then 0%float else 1%float.

(** C10 as stated fails on a = [NaN, 1, 1, inf], b = [0, 1, 1, 0] with two
    threads that hold the iterations 0, 1 and 2, 3, when [i = size] ends
    the loop of a thread.  The pair 3 has an infinite numerator, but when
    the first thread finishes iteration 0 (a NaN error) before the second
    thread finishes iteration 2, the second thread leaves the loop without
    running iteration 3 and the result is (false, NaN), not
    (false, infinity); when the second thread runs first the result is
    (false, infinity).  One thread alone (or a build without OpenMP) on
    a = [NaN, inf], b = [0, 0] gives (false, NaN) as well.  When [i = size]
    does not end the loop, the first order gives (false, infinity) too. *)
Lemma C10_counterexample :
  is_infinity (numerator float32_t (cmp_nan_inf 3) (cmp_ref 3)) = true /\
  compareEqual float32_t true cmp_nan_inf cmp_ref 4 10 [[0; 1]; [2; 3]] [0; 0; 1; 1]%nat
  = Some (false, nan) /\
  compareEqual float32_t true cmp_nan_inf cmp_ref 4 10 [[0; 1]; [2; 3]] [1; 1; 1; 1; 0; 0]%nat
  = Some (false, infinity) /\
  is_infinity (numerator float32_t infinity 0%float) = true /\
  compareEqual float32_t true (fun i => if i =? 0 then nan else infinity) (fun _ => 0%float)
    2 10 [[0; 1]] [0; 0]%nat
  = Some (false, nan) /\
  compareEqual float32_t false cmp_nan_inf cmp_ref 4 10 [[0; 1]; [2; 3]]
    [0; 0; 1; 1; 0; 0; 1; 1]%nat
  = Some (false, infinity).
Proof. repeat split; vm_compute; reflexivity. Qed.

(** ** The verdict of [compareEqual] does not depend on the threads *)

Lemma lex_compare_eq (p q : Z * Z * Z) : lex_compare p q = Eq -> p = q.
Proof.
  destruct p as [[a b] c], q as [[a' b'] c']. cbn.
  destruct (Z.compare_spec a a'); try discriminate.
  destruct (Z.compare_spec b b'); try discriminate.
  destruct (Z.compare_spec c c'); try discriminate.
  intros _. congruence.
Qed.

Lemma lex_compare_lt_trans (p q r : Z * Z * Z) :
  lex_compare p q = Lt -> lex_compare q r = Lt -> lex_compare p r = Lt.
Proof.
  destruct p as [[a1 b1] c1], q as [[a2 b2] c2], r as [[a3 b3] c3]. cbn.
  destruct (Z.compare_spec a1 a2), (Z.compare_spec a2 a3), (Z.compare_spec a1 a3);
    try congruence; try lia;
    destruct (Z.compare_spec b1 b2), (Z.compare_spec b2 b3), (Z.compare_spec b1 b3);
    try congruence; try lia;
    destruct (Z.compare_spec c1 c2), (Z.compare_spec c2 c3), (Z.compare_spec c1 c3);
    try congruence; lia.
Qed.

Lemma float_ltb_not_nan (x y : float) :
  (x <? y)%float = true -> is_nan x = false /\ is_nan y = false.
Proof.
  intros H. rewrite ltb_spec in H. split.
  - destruct (is_nan x) eqn:E; [|reflexivity].
    apply is_nan_true in E. rewrite E in H. discriminate H.
  - destruct (is_nan y) eqn:E; [|reflexivity].
    apply is_nan_true in E. rewrite E in H.
    destruct (Prim2SF x) as [s|s| |s m e]; try destruct s; discriminate H.
Qed.

Lemma float_ltb_trans (x y z : float) :
  (x <? y)%float = true -> (y <? z)%float = true -> (x <? z)%float = true.
Proof.
  intros Hxy Hyz.
  destruct (float_ltb_not_nan x y Hxy) as [Hx Hy].
  destruct (float_ltb_not_nan y z Hyz) as [_ Hz].
  apply (float_ltb_rank x y Hx Hy) in Hxy. apply (float_ltb_rank y z Hy Hz) in Hyz.
  apply (float_ltb_rank x z Hx Hz). eapply lex_compare_lt_trans; eassumption.
Qed.

(** A value that the running maximum can take: the initial 0, or a value
    above it. *)
Definition zero_or_above (x : float) : Prop := x = 0%float \/ (0 <? x)%float = true.

Lemma raise_max_above (m r : float) :
  zero_or_above m -> zero_or_above (raise_max m r).
Proof.
  intros Hm. unfold raise_max. destruct (m <? r)%float eqn:E; [|exact Hm].
  right. destruct Hm as [->|Hm]; [exact E|]. eapply float_ltb_trans; eassumption.
Qed.

Lemma SFrank_inj (x y : spec_float) :
  SFrank x <> (0, 0, 0)%Z -> SFrank x = SFrank y -> x = y.
Proof.
  destruct x as [sx|sx| |sx mx ex], y as [sy|sy| |sy my ey]; cbn;
    try congruence; try (destruct sx; congruence); try (destruct sy; congruence);
    destruct sx, sy; intros _ E; try congruence; injection E; intros; subst;
    try reflexivity; try discriminate.
  - f_equal. lia.
Qed.

Lemma float_leb_antisym (x y : float) :
  zero_or_above x -> zero_or_above y ->
  is_nan x = false -> is_nan y = false ->
  (x <=? y)%float = true -> (y <=? x)%float = true -> x = y.
Proof.
  intros Zx Zy Hx Hy Hxy Hyx.
  apply (float_leb_rank x y Hx Hy) in Hxy. apply (float_leb_rank y x Hy Hx) in Hyx.
  rewrite (lex_compare_antisym (SFrank (Prim2SF x)) (SFrank (Prim2SF y))) in Hyx.
  assert (E : SFrank (Prim2SF x) = SFrank (Prim2SF y)).
  { apply lex_compare_eq.
    destruct (lex_compare (SFrank (Prim2SF x)) (SFrank (Prim2SF y)));
      cbn in Hyx; congruence. }
  assert (R0 : SFrank (Prim2SF 0%float) = (0, 0, 0)%Z) by reflexivity.
  assert (Rpos : forall z, (0 <? z)%float = true -> SFrank (Prim2SF z) <> (0, 0, 0)%Z).
  { intros z Hz. destruct (float_ltb_not_nan 0 z Hz) as [H0 Hzn].
    apply (float_ltb_rank 0 z H0 Hzn) in Hz. rewrite R0 in Hz. intros Ez.
    rewrite Ez in Hz. discriminate Hz. }
  destruct Zx as [->|Px], Zy as [->|Py]; try reflexivity.
  - exfalso. apply (Rpos y Py). rewrite <- E. exact R0.
  - exfalso. apply (Rpos x Px). rewrite E. exact R0.
  - apply Prim2SF_inj. apply SFrank_inj; [now apply Rpos | exact E].
Qed.

Section CompareEqualDeterministic.

Context {T : Type} (D : DataType T).
Variables (a b : Mem T) (size : N).

Lemma compare_body_above (st : CompareState) (valA valB : T) :
  zero_or_above (max_relative_error st) ->
  zero_or_above (max_relative_error (compare_body D st valA valB)).
Proof.
  intros H.
  destruct (compare_body_cases D st valA valB) as [(_ & ->)|[(_ & _ & ->)|(_ & ->)]];
    cbn [max_relative_error]; try exact H.
  now apply raise_max_above.
Qed.

Lemma omp_run_above (exits : bool) (n : nat) (schedule : list nat) :
  forall ths st,
    zero_or_above (max_relative_error st) ->
    zero_or_above (max_relative_error (snd (omp_run D exits a b n schedule ths st))).
Proof.
  induction schedule as [|t rest IH]; intros ths st H; [exact H|].
  cbn [omp_run]. apply IH. unfold omp_step.
  destruct (t <? n)%nat; [|exact H].
  destruct (at_exit_test (ths t)); [exact H|].
  destruct (iterations (ths t)) as [|i more]; [exact H|].
  cbn [snd]. now apply compare_body_above.
Qed.

Lemma bad_pair_search (cnt : N) :
  (exists i, i < cnt /\ pair_bad D (a i) (b i) = true) \/
  (forall i, i < cnt -> pair_bad D (a i) (b i) = false).
Proof.
  induction cnt as [|c IH] using N.peano_ind.
  - right. intros i Hi. lia.
  - destruct IH as [(i & Hi & E)|IH].
    + left. exists i. split; [lia | exact E].
    + destruct (pair_bad D (a c) (b c)) eqn:E.
      * left. exists c. split; [lia | exact E].
      * right. intros i Hi. destruct (N.eq_dec i c) as [->|Hne]; [exact E|].
        apply IH. lia.
Qed.

(** What a complete run leaves in the shared variables. *)
Lemma compareEqual_final (exits : bool) (tolerance : float) (chunks : list (list N))
  (schedule : list nat) (r : bool * float) :
  (forall i, i < size -> In i (concat chunks)) ->
  compareEqual D exits a b size tolerance chunks schedule = Some r ->
  exists st,
    r = compare_result D st tolerance /\
    zero_or_above (max_relative_error st) /\
    is_nan (max_relative_error st) = false /\
    (max_relative_error st = 0%float \/
     exists i, i < size /\ max_relative_error st = relative_error D (a i) (b i)) /\
    (isInf st || isNaN st = true -> exists i, i < size /\ pair_bad D (a i) (b i) = true) /\
    (isInf st || isNaN st = false ->
     forall i, i < size ->
       pair_bad D (a i) (b i) = false /\
       (relative_error D (a i) (b i) <=? max_relative_error st)%float = true).
Proof.
  intros Hcov Hr. unfold compareEqual in Hr.
  pose proof (omp_run_inv D exits a b size (length chunks) schedule _ _
                (omp_start_inv D a b size (length chunks) chunks eq_refl Hcov)) as Hinv.
  pose proof (omp_run_above exits (length chunks) schedule (omp_start size chunks)
                (mkCompareState false false 0) (or_introl eq_refl)) as Habove.
  destruct (omp_done (length chunks)
              (fst (omp_run D exits a b (length chunks) schedule (omp_start size chunks)
                      (mkCompareState false false 0)))) eqn:Hdone; [|discriminate].
  injection Hr as <-.
  set (st := snd (omp_run D exits a b (length chunks) schedule (omp_start size chunks)
                    (mkCompareState false false 0))) in *.
  exists st. split; [reflexivity|]. split; [exact Habove|].
  pose proof (omp_final D a b size (length chunks) _ st Hinv Hdone) as Hfin.
  destruct Hinv as (_ & Hinf & Hnan & Hmax & Hatt & _).
  split; [exact Hmax|]. split; [exact Hatt|]. split; [|exact Hfin].
  intros Hf. apply orb_prop in Hf as [Hf|Hf].
  - destruct (Hinf Hf) as (i & Hi & Hp). exists i. split; [exact Hi|].
    unfold pair_bad. now rewrite Hp.
  - destruct (Hnan Hf) as (i & Hi & _ & Hp). exists i. split; [exact Hi|].
    unfold pair_bad. rewrite Hp. apply orb_true_r.
Qed.

End CompareEqualDeterministic.

(** X9: the loop of [compareEqual] is parallel, yet its verdict does not
    depend on how the iterations are distributed, on how the threads
    interleave, nor on whether [i = size] ends a thread's loop: any two
    complete runs on the same arrays return the same
    pass flag, and on arrays without an infinite or NaN pair they return
    the same maximum relative error as well. *)
Theorem X9_compareEqual_verdict_is_deterministic
  (T : Type) (D : DataType T) (exits1 exits2 : bool) (a b : Mem T) (size : N)
  (tolerance : float) (chunks1 chunks2 : list (list N)) (schedule1 schedule2 : list nat)
  (r1 r2 : bool * float) :
  (forall i, i < size -> In i (concat chunks1)) ->
  (forall i, i < size -> In i (concat chunks2)) ->
  compareEqual D exits1 a b size tolerance chunks1 schedule1 = Some r1 ->
  compareEqual D exits2 a b size tolerance chunks2 schedule2 = Some r2 ->
  fst r1 = fst r2 /\
  ((forall i, i < size -> pair_bad D (a i) (b i) = false) -> r1 = r2).
Proof.
  intros Hc1 Hc2 E1 E2.
  destruct (compareEqual_final D a b size exits1 tolerance chunks1 schedule1 r1 Hc1 E1)
    as (st1 & -> & A1 & N1 & T1 & B1 & G1).
  destruct (compareEqual_final D a b size exits2 tolerance chunks2 schedule2 r2 Hc2 E2)
    as (st2 & -> & A2 & N2 & T2 & B2 & G2).
  assert (Hclean : (forall i, i < size -> pair_bad D (a i) (b i) = false) ->
            compare_result D st1 tolerance = compare_result D st2 tolerance).
  { intros Hgood.
    assert (F1 : isInf st1 || isNaN st1 = false).
    { destruct (isInf st1 || isNaN st1) eqn:F; [|reflexivity].
      destruct (B1 eq_refl) as (i & Hi & Hb). rewrite (Hgood i Hi) in Hb. discriminate. }
    assert (F2 : isInf st2 || isNaN st2 = false).
    { destruct (isInf st2 || isNaN st2) eqn:F; [|reflexivity].
      destruct (B2 eq_refl) as (i & Hi & Hb). rewrite (Hgood i Hi) in Hb. discriminate. }
    assert (L12 : (max_relative_error st1 <=? max_relative_error st2)%float = true).
    { destruct T1 as [->|(i & Hi & ->)].
      - destruct A2 as [->|P]; [now apply float_leb_refl|].
        apply float_ltb_leb; [reflexivity | exact N2 | exact P].
      - apply (G2 F2 i Hi). }
    assert (L21 : (max_relative_error st2 <=? max_relative_error st1)%float = true).
    { destruct T2 as [->|(i & Hi & ->)].
      - destruct A1 as [->|P]; [now apply float_leb_refl|].
        apply float_ltb_leb; [reflexivity | exact N1 | exact P].
      - apply (G1 F1 i Hi). }
    pose proof (float_leb_antisym _ _ A1 A2 N1 N2 L12 L21) as EM.
    apply orb_false_iff in F1 as [I1 J1]. apply orb_false_iff in F2 as [I2 J2].
    unfold compare_result. rewrite I1, J1, I2, J2, EM. reflexivity. }
  split; [|exact Hclean].
  destruct (bad_pair_search D a b size) as [(i & Hi & Hb)|Hgood].
  - assert (F1 : isInf st1 || isNaN st1 = true).
    { destruct (isInf st1 || isNaN st1) eqn:F; [reflexivity|].
      destruct (G1 eq_refl i Hi) as [Hg _]. rewrite Hg in Hb. discriminate. }
    assert (F2 : isInf st2 || isNaN st2 = true).
    { destruct (isInf st2 || isNaN st2) eqn:F; [reflexivity|].
      destruct (G2 eq_refl i Hi) as [Hg _]. rewrite Hg in Hb. discriminate. }
    unfold compare_result.
    destruct (isInf st1), (isNaN st1), (isInf st2), (isNaN st2);
      try discriminate; reflexivity.
  - now rewrite (Hclean Hgood).
Qed.

Lemma X9_witness :
  (forall i, i < 2 -> In i (concat [[0]; [1]])) /\
  (forall i, i < 2 -> In i (concat [[1; 0]])) /\
  compareEqual float32_t true cmp_c cmp_d 2 10 [[0]; [1]] [1; 0; 0; 1]%nat
  = Some (false, relative_error float32_t 2.5%float 2%float) /\
  compareEqual float32_t false cmp_c cmp_d 2 10 [[1; 0]] [0; 0; 0; 0]%nat
  = Some (false, relative_error float32_t 2.5%float 2%float).
Proof.
  assert (H1 : forall i, i < 2 -> In i (concat [[0]; [1]])).
  { intros i Hi. assert (i = 0 \/ i = 1) as [-> | ->] by lia; cbn; auto. }
  assert (H2 : forall i, i < 2 -> In i (concat [[1; 0]])).
  { intros i Hi. assert (i = 0 \/ i = 1) as [-> | ->] by lia; cbn; auto. }
  assert (E1 : compareEqual float32_t true cmp_c cmp_d 2 10 [[0]; [1]] [1; 0; 0; 1]%nat
               = Some (false, relative_error float32_t 2.5%float 2%float))
    by (vm_compute; reflexivity).
  split; [exact H1|]. split; [exact H2|]. split; [exact E1|].
  assert (E2 : exists r, compareEqual float32_t false cmp_c cmp_d 2 10 [[1; 0]]
                           [0; 0; 0; 0]%nat = Some r)
    by (eexists; vm_compute; reflexivity).
  destruct E2 as [r E2]. rewrite E2. f_equal. symmetry.
  apply (X9_compareEqual_verdict_is_deterministic float float32_t true false cmp_c cmp_d 2 10
           [[0]; [1]] [[1; 0]] [1; 0; 0; 1]%nat [0; 0; 0; 0]%nat _ r H1 H2 E1 E2).
  intros i Hi. assert (i = 0 \/ i = 1) as [-> | ->] by lia; reflexivity.
Defined.

(** * Further properties of the kernel *)

(** ** The zero-beta shortcut *)

Lemma typed_step_set_c {E : Typed.ElemTypes} (cfg : Config) (hw : HwIdx)
  (args : Typed.Args E) (c' : Mem (Typed.OutputT E)) (sync : bool)
  (w : Typed.Wave E) (sh : Typed.Shared E) :
  Typed.as_bool E (Typed.arg_beta args) = false ->
  Typed.step cfg hw (typed_set_c c' args) sync w sh = Typed.step cfg hw args sync w sh.
Proof.
  intros Hb. unfold Typed.step. destruct (Typed.w_pc w); try reflexivity.
  change (Typed.arg_beta (typed_set_c c' args)) with (Typed.arg_beta args).
  rewrite Hb. reflexivity.
Qed.

Lemma count_snoc_c (tr : list event) (e : event) :
  count is_load_c (tr ++ [e])
  = (count is_load_c tr + if is_load_c e then 1 else 0)%nat.
Proof.
  unfold count. rewrite filter_app, length_app. cbn [filter].
  destruct (is_load_c e); reflexivity.
Qed.

Lemma typed_step_no_load_c {E : Typed.ElemTypes} (cfg : Config) (hw : HwIdx)
  (args : Typed.Args E) (sync : bool) (w : Typed.Wave E) (sh : Typed.Shared E) :
  Typed.as_bool E (Typed.arg_beta args) = false ->
  count is_load_c (Typed.trace (fst (Typed.step cfg hw args sync w sh)))
  = count is_load_c (Typed.trace w).
Proof.
  intros Hb. destruct w as [pc0 fA fB fAN fBN fAcc fC aA aB eA tr].
  unfold Typed.step. cbn [Typed.w_pc]. destruct pc0;
    repeat match goal with
           | |- context [if Typed.as_bool E (Typed.arg_beta args) then _ else _] =>
               rewrite Hb
           | |- context [if ?c then _ else _] => destruct c
           end;
    typed_cbn; rewrite ?count_snoc_c; cbn [is_load_c]; rewrite ?app_nil_r; try lia.
  destruct sync; [rewrite count_snoc_c; cbn [is_load_c]; lia | now rewrite app_nil_r].
Qed.

(** X1: when beta compares equal to zero the buffer c is never read, for
    every element type: from any state and for any number of statements a
    wave ends with the same registers, trace and memories whatever c holds
    (a NaN in c cannot reach D), and it logs no load of the C tile. *)
Theorem X1_zero_beta_never_reads_c
  (E : Typed.ElemTypes) (cfg : Config) (hw : HwIdx) (args : Typed.Args E) :
  Typed.as_bool E (Typed.arg_beta args) = false ->
  (forall c' sync fuel w sh,
     Typed.run cfg hw (typed_set_c c' args) sync fuel w sh
     = Typed.run cfg hw args sync fuel w sh) /\
  (forall sync n w sh,
     count is_load_c (Typed.trace (fst (Typed.exec cfg hw args sync n w sh)))
     = count is_load_c (Typed.trace w)).
Proof.
  intros Hb. split.
  - intros c' sync fuel. induction fuel as [|f IH]; intros w sh; cbn [Typed.run].
    + reflexivity.
    + rewrite typed_step_set_c by exact Hb. destruct (Typed.w_pc w); try apply IH.
      reflexivity.
  - intros sync n. induction n as [|n IH]; intros w sh; [reflexivity|].
    rewrite typed_exec_S, IH. now apply typed_step_no_load_c.
Qed.

Lemma X1_witness :
  Typed.as_bool Typed.float64 0%float = false /\
  Typed.mmaSyncLds cfg16 hw11
    (typed_set_c (E := Typed.float64) (fun _ => nan) (sample_args_f64 2 0 (fun _ => 1%float)))
    30 sample_shared_f64
  = Typed.mmaSyncLds cfg16 hw11 (sample_args_f64 2 0 (fun _ => 1%float)) 30
      sample_shared_f64 /\
  match Typed.mmaSyncLds cfg16 hw11
          (sample_args_f64 2 0 (fun _ => nan)) 30 sample_shared_f64 with
  | Some (w', sh') =>
      Typed.w_pc w' = PcDone /\
      Typed.dmem sh' (MappingUtil.dataOffset row_major 32 (16, 16)) = 64%float
  | None => False
  end.
Proof.
  assert (H : Typed.as_bool Typed.float64 0%float = false) by reflexivity.
  split; [exact H|]. split.
  - apply (X1_zero_beta_never_reads_c Typed.float64 cfg16 hw11
             (sample_args_f64 2 0 (fun _ => 1%float)) H).
  - vm_compute. split; reflexivity.
Defined.

(** ** The footprint of a wave *)

(** X2: whatever state a wave starts from and however many statements it
    executes, the shared memory outside its own A and B slots and the
    output buffer outside its own tile keep their content.  The slots and
    the tile are written out from the hardware indices. *)
Theorem X2_wave_footprint
  (cfg : Config) (hw : HwIdx) (args : Args) (sync : bool) (n : nat)
  (w : Wave) (sh : Shared) (x : N) :
  AMDGCN_WAVE_SIZE cfg = 64 -> 0 < BlockN cfg ->
  let ld := 64 * blockDim_y hw in
  let slotA := fun p =>
    (threadIdx_x hw / 64 * FragA_size cfg + p / 64) * ld
    + (threadIdx_y hw * 64 + p mod 64) in
  let slotB := fun p =>
    blockDim_x hw / 64 * FragLdsA_size cfg * ld
    + (threadIdx_x hw / 64 * FragB_size cfg + p / 64) * ld
    + (threadIdx_y hw * 64 + p mod 64) in
  let r0 := (blockIdx_x hw * (blockDim_x hw / 64) + threadIdx_x hw / 64) * BlockM cfg in
  let c0 := (blockIdx_y hw * blockDim_y hw + threadIdx_y hw) * BlockN cfg in
  ((forall p, p < FragLdsA_size cfg * 64 -> slotA p <> x) ->
   (forall p, p < FragLdsB_size cfg * 64 -> slotB p <> x) ->
   lds (snd (exec cfg hw args sync n w sh)) x = lds sh x) /\
  ((forall r c, r < BlockM cfg -> c < BlockN cfg ->
      MappingUtil.dataOffset (LayoutD cfg) (arg_ldd args) (r0 + r, c0 + c) <> x) ->
   dmem (snd (exec cfg hw args sync n w sh)) x = dmem sh x).
Proof.
  intros HW HBN ld slotA slotB r0 c0.
  assert (Hmc : matrixCoordC cfg hw = (r0, c0)).
  { rewrite matrixCoordC_eq, HW. reflexivity. }
  split.
  - intros HA HB.
    assert (Hx : outside_slots cfg hw x).
    { unfold outside_slots, registerFileWidth. rewrite HW. split; intros p Hp.
      - rewrite ldsA_addr_eq by exact HW. now apply HA.
      - rewrite ldsB_addr_eq by exact HW. now apply HB. }
    induction n as [|n IH]; [reflexivity|].
    rewrite exec_snoc. rewrite step_lds_frame by exact Hx. exact IH.
  - intros Hx.
    assert (Hx' : forall p, p < BlockM cfg * BlockN cfg -> d_addr cfg hw args p <> x).
    { intros p Hp. destruct (d_addr_elem cfg hw args p HBN Hp) as (r & c & Hr & Hc & Ea).
      rewrite Ea, Hmc. now apply Hx. }
    induction n as [|n IH]; [reflexivity|].
    rewrite exec_snoc. rewrite step_dmem_frame by (intros _; exact Hx'). exact IH.
Qed.

Lemma X2_witness :
  AMDGCN_WAVE_SIZE cfg16 = 64 /\ 0 < BlockN cfg16 /\
  lds (snd (exec cfg16 hw11 (sample_args 32 32 32 2 3) true 21 wave_init
              (mkShared sample_lds sample_d))) 255 = sample_lds 255 /\
  dmem (snd (exec cfg16 hw11 (sample_args 32 32 32 2 3) true 21 wave_init
               (mkShared sample_lds sample_d))) 527 = sample_d 527.
Proof.
  assert (H1 : AMDGCN_WAVE_SIZE cfg16 = 64) by reflexivity.
  assert (H2 : 0 < BlockN cfg16) by reflexivity.
  split; [exact H1|]. split; [exact H2|].
  destruct (X2_wave_footprint cfg16 hw11 (sample_args 32 32 32 2 3) true 21 wave_init
              (mkShared sample_lds sample_d) 255 H1 H2) as [L _].
  destruct (X2_wave_footprint cfg16 hw11 (sample_args 32 32 32 2 3) true 21 wave_init
              (mkShared sample_lds sample_d) 527 H1 H2) as [_ D].
  split.
  - apply L; intros p Hp;
      cbn [hw11 cfg16 threadIdx_x threadIdx_y blockDim_x blockDim_y
           FragA_size FragB_size FragLdsA_size FragLdsB_size] in *;
      change (64 / 64) with 1; change (128 / 64) with 2;
      generalize (p / 64) (p mod 64); intros; lia.
  - apply D. intros r c Hr Hc.
    cbn [hw11 cfg16 threadIdx_x threadIdx_y blockDim_x blockDim_y blockIdx_x blockIdx_y
         BlockM BlockN LayoutD sample_args arg_ldd MappingUtil.dataOffset fst snd] in *.
    change (64 / 64) with 1. change (128 / 64) with 2. lia.
Defined.

(** ** Uninitialised shared memory *)

Lemma wave_lds_irrelevant (cfg : Config) (hw : HwIdx) (args : Args) (fuel : nat)
  (sh1 sh2 : Shared) :
  legal_config cfg -> hw_ok cfg hw ->
  (LayoutA cfg = col_major -> 0 < arg_lda args) ->
  ld_ok (LayoutD cfg) (BlockM cfg) (BlockN cfg) (arg_ldd args) ->
  enough_fuel cfg args fuel ->
  (forall x, dmem sh1 x = dmem sh2 x) ->
  exists w1 sh1' w2 sh2',
    mmaSyncLds cfg hw args fuel sh1 = Some (w1, sh1') /\
    mmaSyncLds cfg hw args fuel sh2 = Some (w2, sh2') /\
    forall x, dmem sh1' x = dmem sh2' x.
Proof.
  intros Hcfg Hhw HldA HldD Hfuel Hd.
  destruct (in_bounds cfg hw args) eqn:Hin.
  - destruct (wave_result cfg hw args fuel sh1 Hcfg Hhw HldA Hin Hfuel)
      as (w1 & sh1' & E1 & _ & V1 & F1 & _).
    destruct (wave_result cfg hw args fuel sh2 Hcfg Hhw HldA Hin Hfuel)
      as (w2 & sh2' & E2 & _ & V2 & F2 & _).
    exists w1, sh1', w2, sh2'. split; [exact E1|]. split; [exact E2|].
    intros x.
    destruct (bounded_search (d_addr cfg hw args) (BlockM cfg * BlockN cfg) x)
      as [(p & Hp & <-)|Hout].
    + now rewrite (V1 HldD p Hp), (V2 HldD p Hp).
    + now rewrite (F1 x Hout), (F2 x Hout), Hd.
  - assert (H1 : (1 <= fuel)%nat) by (apply enough_fuel_ge in Hfuel; lia).
    exists (goto PcDone wave_init), sh1, (goto PcDone wave_init), sh2.
    split; [now apply wave_idle|]. split; [now apply wave_idle|]. exact Hd.
Qed.

Lemma run_waves_lds_irrelevant (cfg : Config) (args : Args) (fuel : nat)
  (hws : list HwIdx) :
  legal_config cfg ->
  (LayoutA cfg = col_major -> 0 < arg_lda args) ->
  ld_ok (LayoutD cfg) (BlockM cfg) (BlockN cfg) (arg_ldd args) ->
  enough_fuel cfg args fuel ->
  (forall hw, In hw hws -> hw_ok cfg hw) ->
  forall sh1 sh2,
    (forall x, dmem sh1 x = dmem sh2 x) ->
    exists sh1' sh2',
      run_waves cfg args fuel hws sh1 = Some sh1' /\
      run_waves cfg args fuel hws sh2 = Some sh2' /\
      forall x, dmem sh1' x = dmem sh2' x.
Proof.
  intros Hcfg HldA HldD Hfuel. induction hws as [|hw rest IH]; intros Hok sh1 sh2 Hd.
  - exists sh1, sh2. repeat split. exact Hd.
  - cbn [run_waves].
    destruct (wave_lds_irrelevant cfg hw args fuel sh1 sh2 Hcfg
                (Hok hw (or_introl eq_refl)) HldA HldD Hfuel Hd)
      as (w1 & sh1' & w2 & sh2' & -> & -> & Hd').
    apply IH; [|exact Hd']. intros hw' Hin. apply Hok. now right.
Qed.

(** X3: the shared memory is not initialised when a workgroup starts, and
    its content does not reach the output: two launches that differ only in
    what the shared memory holds at the start of each workgroup both
    complete and leave the same D, cell by cell. *)
Theorem X3_initial_lds_irrelevant
  (cfg : Config) (args : Args) (fuel : nat) (gdx gdy bdx bdy : N)
  (lds1 lds2 d : Mem Z) :
  legal_config cfg ->
  (LayoutA cfg = col_major -> 0 < arg_lda args) ->
  ld_ok (LayoutD cfg) (BlockM cfg) (BlockN cfg) (arg_ldd args) ->
  bdx mod 64 = 0 -> enough_fuel cfg args fuel ->
  exists d1 d2,
    launch cfg args fuel gdx gdy bdx bdy lds1 d = Some d1 /\
    launch cfg args fuel gdx gdy bdx bdy lds2 d = Some d2 /\
    forall x, d1 x = d2 x.
Proof.
  intros Hcfg HldA HldD Hbdx Hfuel. unfold launch.
  generalize (list_prod (Nrange gdx) (Nrange gdy)). intros wgs.
  assert (G : forall da db, (forall x, da x = db x) ->
            exists d1 d2,
              run_workgroups cfg args fuel bdx bdy lds1 wgs da = Some d1 /\
              run_workgroups cfg args fuel bdx bdy lds2 wgs db = Some d2 /\
              forall x, d1 x = d2 x).
  { induction wgs as [|wg rest IH]; intros da db Hd.
    - exists da, db. repeat split. exact Hd.
    - cbn [run_workgroups].
      destruct (run_waves_lds_irrelevant cfg args fuel
                  (workgroup_waves (AMDGCN_WAVE_SIZE cfg) (fst wg) (snd wg) bdx bdy)
                  Hcfg HldA HldD Hfuel) with (sh1 := mkShared lds1 da)
                                              (sh2 := mkShared lds2 db)
        as (sh1' & sh2' & -> & -> & Hd').
      + intros hw Hin. destruct Hcfg as (HW & _).
        exact (workgroup_waves_ok cfg HW bdx bdy Hbdx (fst wg) (snd wg) hw Hin).
      + exact Hd.
      + apply IH. exact Hd'. }
  apply G. reflexivity.
Qed.

Lemma X3_witness :
  legal_config cfg16 /\
  (LayoutA cfg16 = col_major -> 0 < arg_lda (sample_args 32 32 32 2 3)) /\
  ld_ok (LayoutD cfg16) (BlockM cfg16) (BlockN cfg16) (arg_ldd (sample_args 32 32 32 2 3)) /\
  128 mod 64 = 0 /\ enough_fuel cfg16 (sample_args 32 32 32 2 3) 100 /\
  exists d1 d2,
    launch cfg16 (sample_args 32 32 32 2 3) 100 1 2 128 1 sample_lds sample_d = Some d1 /\
    launch cfg16 (sample_args 32 32 32 2 3) 100 1 2 128 1 sample_a sample_d = Some d2 /\
    forall x, d1 x = d2 x.
Proof.
  assert (H1 : LayoutA cfg16 = col_major -> 0 < arg_lda (sample_args 32 32 32 2 3))
    by (intros _; reflexivity).
  assert (H2 : ld_ok (LayoutD cfg16) (BlockM cfg16) (BlockN cfg16)
                 (arg_ldd (sample_args 32 32 32 2 3)))
    by (cbn; discriminate).
  assert (H3 : 128 mod 64 = 0) by reflexivity.
  assert (H4 : enough_fuel cfg16 (sample_args 32 32 32 2 3) 100)
    by (unfold enough_fuel; cbn; lia).
  split; [exact legal_cfg16|]. split; [exact H1|]. split; [exact H2|].
  split; [exact H3|]. split; [exact H4|].
  exact (X3_initial_lds_irrelevant cfg16 (sample_args 32 32 32 2 3) 100 1 2 128 1
           sample_lds sample_a sample_d legal_cfg16 H1 H2 H3 H4).
Defined.

(** ** The software pipeline *)

(** X4: the pipeline invariant.  When a wave that accumulates reaches the
    loop test for the time [t] (after [5 + 9 t] statements), its A slot in
    the shared memory holds block [t] of its row panel of A, its B slot
    block [t] of its column panel of B, the accumulator holds the inner
    products over the first [t] blocks of K, [t] multiply-accumulates and
    [2 (t + 1)] global loads have been issued, and D is untouched. *)
Theorem X4_pipeline_invariant
  (cfg : Config) (hw : HwIdx) (args : Args) (sync : bool) (sh0 : Shared) (t : nat) :
  legal_config cfg -> hw_ok cfg hw ->
  (LayoutA cfg = col_major -> 0 < arg_lda args) ->
  let ld := 64 * blockDim_y hw in
  let slotA := fun p =>
    (threadIdx_x hw / 64 * FragA_size cfg + p / 64) * ld
    + (threadIdx_y hw * 64 + p mod 64) in
  let slotB := fun p =>
    blockDim_x hw / 64 * FragLdsA_size cfg * ld
    + (threadIdx_x hw / 64 * FragB_size cfg + p / 64) * ld
    + (threadIdx_y hw * 64 + p mod 64) in
  let r0 := (blockIdx_x hw * (blockDim_x hw / 64) + threadIdx_x hw / 64) * BlockM cfg in
  let c0 := (blockIdx_y hw * blockDim_y hw + threadIdx_y hw) * BlockN cfg in
  let A := fun i h =>
    arg_a args (MappingUtil.dataOffset (LayoutA cfg) (arg_lda args) (i, h)) in
  let B := fun h j =>
    arg_b args (MappingUtil.dataOffset (LayoutB cfg) (arg_ldb args) (h, j)) in
  r0 < arg_m args -> c0 < arg_n args -> BlockK cfg < arg_k args ->
  arg_alpha args <> 0%Z ->
  N.of_nat t + 1 <= arg_k args / BlockK cfg ->
  let w := fst (exec cfg hw args sync (5 + 9 * t) wave_init sh0) in
  let sh := snd (exec cfg hw args sync (5 + 9 * t) wave_init sh0) in
  w_pc w = PcLoopTest /\
  (forall p, p < BlockM cfg * BlockK cfg ->
     lds sh (slotA p)
     = A (r0 + p / BlockK cfg) (N.of_nat t * BlockK cfg + p mod BlockK cfg)) /\
  (forall p, p < BlockK cfg * BlockN cfg ->
     lds sh (slotB p)
     = B (N.of_nat t * BlockK cfg + p / BlockN cfg) (c0 + p mod BlockN cfg)) /\
  (forall r c, r < BlockM cfg -> c < BlockN cfg ->
     fragAcc w (r * BlockN cfg + c)
     = sum_upto (fun h => (A (r0 + r)%N h * B h (c0 + c)%N)%Z)
         (N.to_nat (N.of_nat t * BlockK cfg))) /\
  count is_mma (trace w) = t /\
  count is_load_ab (trace w) = (2 * (t + 1))%nat /\
  dmem sh = dmem sh0.
Proof.
  intros Hcfg Hhw HldA ld slotA slotB r0 c0 A B Hr0 Hc0 Hk Ha Ht w sh.
  destruct Hcfg as (HW & Hasrt & HBM & HBN & HBK).
  assert (Hmc : matrixCoordC cfg hw = (r0, c0)).
  { rewrite matrixCoordC_eq, HW. reflexivity. }
  assert (Hin : in_bounds cfg hw args = true).
  { apply in_bounds_iff. rewrite Hmc. cbn [fst snd]. auto. }
  assert (Hnz : nonzero (arg_alpha args) = true).
  { unfold nonzero. apply negb_true_iff, Z.eqb_neq. exact Ha. }
  pose proof (prologue_spec cfg hw args sync HW Hhw Hasrt HBM HBN HBK HldA sh0 Hin Hnz)
    as H0.
  pose proof (loop_run cfg hw args sync HW Hhw Hasrt HBM HBN HBK HldA sh0 t _ _ H0 Ht)
    as H.
  rewrite <- exec_add in H. fold w sh in H.
  destruct H as (Hpc & _ & _ & _ & HlA & HlB & Hacc & Hrest).
  rewrite Hmc in HlA, HlB, Hacc. cbn [fst snd] in HlA, HlB, Hacc.
  split; [exact Hpc|].
  assert (HsA : forall p, ldsA_addr cfg hw p = slotA p)
    by (intros p; now apply ldsA_addr_eq).
  assert (HsB : forall p, ldsB_addr cfg hw p = slotB p)
    by (intros p; now apply ldsB_addr_eq).
  split; [intros p Hp; rewrite <- HsA; now apply HlA|].
  split; [intros p Hp; rewrite <- HsB; now apply HlB|].
  split.
  { intros r c Hr Hc. rewrite (Hacc _ (tile_flat_lt _ _ r c Hr Hc)).
    pose proof (tileCoord_flat (BlockN cfg) r c Hc) as Et.
    unfold wmma.tileCoord in Et. injection Et as -> ->. reflexivity. }
  destruct Hrest as (_ & Hd & Hc1 & _ & Hc2 & _).
  split; [exact Hc1|]. split; [exact Hc2 | exact Hd].
Qed.

Lemma X4_witness :
  legal_config cfg16 /\ hw_ok cfg16 hw11 /\
  (LayoutA cfg16 = col_major -> 0 < arg_lda (sample_args 32 32 64 2 3)) /\
  (16 < 32 /\ 16 < 32 /\ BlockK cfg16 < 64) /\ 2%Z <> 0%Z /\
  N.of_nat 2 + 1 <= arg_k (sample_args 32 32 64 2 3) / BlockK cfg16 /\
  let w := fst (exec cfg16 hw11 (sample_args 32 32 64 2 3) true (5 + 9 * 2) wave_init
                  (mkShared sample_lds sample_d)) in
  let sh := snd (exec cfg16 hw11 (sample_args 32 32 64 2 3) true (5 + 9 * 2) wave_init
                   (mkShared sample_lds sample_d)) in
  w_pc w = PcLoopTest /\
  (forall r c, r < 16 -> c < 16 ->
     fragAcc w (r * 16 + c)
     = sum_upto
         (fun h =>
            (sample_a (MappingUtil.dataOffset row_major 64 (16 + r, h)%N)
             * sample_b (MappingUtil.dataOffset col_major 64 (h, 16 + c)%N))%Z) 32) /\
  count is_mma (trace w) = 2%nat /\
  dmem sh = sample_d.
Proof.
  assert (H1 : LayoutA cfg16 = col_major -> 0 < arg_lda (sample_args 32 32 64 2 3))
    by (intros _; reflexivity).
  assert (H2 : 16 < 32) by reflexivity.
  assert (H3 : BlockK cfg16 < 64) by reflexivity.
  assert (H4 : 2%Z <> 0%Z) by discriminate.
  assert (H5 : N.of_nat 2 + 1 <= arg_k (sample_args 32 32 64 2 3) / BlockK cfg16)
    by (cbn; discriminate).
  split; [exact legal_cfg16|]. split; [exact hw_ok_hw11|]. split; [exact H1|].
  split; [repeat split|]. split; [exact H4|]. split; [exact H5|].
  destruct (X4_pipeline_invariant cfg16 hw11 (sample_args 32 32 64 2 3) true
              (mkShared sample_lds sample_d) 2 legal_cfg16 hw_ok_hw11 H1 H2 H2 H3 H4 H5)
    as (Hpc & _ & _ & Hacc & Hc & _ & Hd).
  cbv zeta. split; [exact Hpc|]. split; [exact Hacc|]. split; [exact Hc | exact Hd].
Defined.

(** ** Problems that no wave accepts *)

Lemma run_waves_idle (cfg : Config) (args : Args) (fuel : nat) (hws : list HwIdx)
  (sh : Shared) :
  (forall hw, in_bounds cfg hw args = false) -> (1 <= fuel)%nat ->
  run_waves cfg args fuel hws sh = Some sh.
Proof.
  intros Hin Hfuel. induction hws as [|hw rest IH]; [reflexivity|].
  cbn [run_waves]. rewrite (wave_idle cfg hw args fuel sh (Hin hw) Hfuel). exact IH.
Qed.

(** X5: a problem whose reduction extent has no second block (K <= BlockK),
    or with no row or no column, is left to idle waves: for every
    configuration, grid and workgroup shape the launch completes and
    returns the output buffer as it was, whatever alpha, beta and the
    inputs are. *)
Theorem X5_degenerate_problem_is_a_no_op
  (cfg : Config) (args : Args) (fuel : nat) (gdx gdy bdx bdy : N) (lds0 d : Mem Z) :
  arg_m args = 0 \/ arg_n args = 0 \/ arg_k args <= BlockK cfg ->
  (1 <= fuel)%nat ->
  launch cfg args fuel gdx gdy bdx bdy lds0 d = Some d.
Proof.
  intros Hdeg Hfuel.
  assert (Hin : forall hw, in_bounds cfg hw args = false).
  { intros hw. unfold in_bounds. destruct Hdeg as [H|[H|H]].
    - rewrite H. destruct (fst (matrixCoordC cfg hw)); reflexivity.
    - rewrite H. destruct (snd (matrixCoordC cfg hw)); cbn; now rewrite andb_false_r.
    - apply N.ltb_ge in H. rewrite H. now rewrite andb_false_r. }
  unfold launch. generalize (list_prod (Nrange gdx) (Nrange gdy)). intros wgs.
  induction wgs as [|wg rest IH]; [reflexivity|].
  cbn [run_workgroups]. rewrite (run_waves_idle cfg args fuel _ _ Hin Hfuel).
  exact IH.
Qed.

Lemma X5_witness :
  arg_k (sample_args 32 32 16 2 3) <= BlockK cfg16 /\
  launch cfg16 (sample_args 32 32 16 2 3) 1 2 2 64 1 sample_lds sample_d = Some sample_d.
Proof.
  assert (H : arg_k (sample_args 32 32 16 2 3) <= BlockK cfg16) by (cbn; discriminate).
  split; [exact H|].
  exact (X5_degenerate_problem_is_a_no_op cfg16 (sample_args 32 32 16 2 3) 1 2 2 64 1
           sample_lds sample_d (or_intror (or_intror H)) (le_n 1)).
Defined.

(** * Host helpers *)

(** ** [fillRand] *)

Lemma fillRand_snoc (is_signed : bool) (rand_row : N -> N) (n : N)
  (cells : list (N * N)) (ij : N * N) (mat : Mem Z) :
  fillRand is_signed rand_row n (cells ++ [ij]) mat
  = fillRand_cell is_signed rand_row n (fillRand is_signed rand_row n cells mat) ij.
Proof. unfold fillRand. now rewrite fold_left_app. Qed.

Lemma fillRand_outside (is_signed : bool) (rand_row : N -> N) (n : N)
  (cells : list (N * N)) (mat : Mem Z) (x : N) :
  (forall ij, In ij cells -> wrap32 (fst ij * n + snd ij) <> x) ->
  fillRand is_signed rand_row n cells mat x = mat x.
Proof.
  induction cells as [|ij cells IH] using rev_ind; intros H; [reflexivity|].
  rewrite fillRand_snoc. unfold fillRand_cell, mem_write.
  destruct (N.eqb_spec x (wrap32 (fst ij * n + snd ij))) as [E|_].
  - exfalso. apply (H ij); [apply in_or_app; right; now left | now symmetry].
  - apply IH. intros ij' Hin. apply H. apply in_or_app. now left.
Qed.

Lemma fillRand_inside (is_signed : bool) (rand_row : N -> N) (n : N)
  (cells : list (N * N)) (mat : Mem Z) (i j : N) :
  In (i, j) cells ->
  (forall ij, In ij cells ->
     wrap32 (fst ij * n + snd ij) = wrap32 (i * n + j) -> ij = (i, j)) ->
  fillRand is_signed rand_row n cells mat (wrap32 (i * n + j))
  = fillRand_value is_signed rand_row i j.
Proof.
  induction cells as [|ij cells IH] using rev_ind; intros Hin Hinj; [destruct Hin|].
  rewrite fillRand_snoc. unfold fillRand_cell, mem_write.
  destruct (N.eqb_spec (wrap32 (i * n + j)) (wrap32 (fst ij * n + snd ij))) as [E|Hne].
  - rewrite (Hinj ij); [reflexivity | apply in_or_app; right; now left | now symmetry].
  - apply IH.
    + apply in_app_or in Hin as [H|[H|[]]]; [exact H|]. subst ij. now elim Hne.
    + intros ij' Hin' E'. apply Hinj; [apply in_or_app; now left | exact E'].
Qed.

Lemma fillRand_value_range (is_signed : bool) (rand_row : N -> N) (i j : N) :
  let v := fillRand_value is_signed rand_row i j in
  if is_signed
  then v = (-3)%Z \/ v = 0%Z \/ v = 1%Z \/ v = 2%Z \/ v = 4%Z
  else v = 0%Z \/ v = 1%Z \/ v = 2%Z \/ v = 3%Z \/ v = 4%Z.
Proof.
  unfold fillRand_value. cbv zeta.
  assert (H : wrap32 (rand_row i mod 5 + j) mod 5 < 5) by (apply N.mod_lt; discriminate).
  revert H. generalize (wrap32 (rand_row i mod 5 + j) mod 5). intros v Hv.
  assert (v = 0 \/ v = 1 \/ v = 2 \/ v = 3 \/ v = 4) as [-> | [-> | [-> | [-> | ->]]]]
    by lia; destruct is_signed; cbn; auto 10.
Qed.

Lemma fillRand_cells_spec (m n i j : N) :
  In (i, j) (fillRand_cells m n) <-> i < m /\ j < n.
Proof. unfold fillRand_cells. rewrite in_prod_iff, !In_Nrange. reflexivity. Qed.

(** X6: [fillRand] on an [m x n] matrix that fits the 32-bit index
    ([m * n <= 2^32], [m] and [n] below 2^31 for the int loop counters), in
    whatever order the parallel loop writes the cells: cell [(i, j)] ends
    with [(rand_row i mod 5 + j) mod 5], negated when it is a multiple of 3
    and the type is signed; so every value is one of -3, 0, 1, 2, 4 for a
    signed type and one of 0, 1, 2, 3, 4 for an unsigned one, the result
    does not depend on the order of the writes, a row repeats with period
    5, and nothing is written from offset [m * n] on. *)
Theorem X6_fillRand_values
  (is_signed : bool) (rand_row : N -> N) (m n : N) (cells : list (N * N)) (mat : Mem Z) :
  m < 2 ^ 31 -> n < 2 ^ 31 -> m * n <= 2 ^ 32 ->
  (forall i j, In (i, j) cells <-> i < m /\ j < n) ->
  let mat' := fillRand is_signed rand_row n cells mat in
  (forall i j, i < m -> j < n ->
     mat' (i * n + j)
     = (let value := (rand_row i mod 5 + j) mod 5 in
        if (value mod 3 =? 0) && is_signed then (- Z.of_N value)%Z else Z.of_N value)) /\
  (forall i j, i < m -> j < n ->
     if is_signed
     then In (mat' (i * n + j)) [(-3)%Z; 0%Z; 1%Z; 2%Z; 4%Z]
     else In (mat' (i * n + j)) [0%Z; 1%Z; 2%Z; 3%Z; 4%Z]) /\
  (forall i j, i < m -> j + 5 < n -> mat' (i * n + (j + 5)) = mat' (i * n + j)) /\
  (forall x, m * n <= x -> mat' x = mat x) /\
  (forall x, mat' x = fillRand is_signed rand_row n (fillRand_cells m n) mat x).
Proof.
  intros Hm Hn Hmn Hcells mat'.
  assert (Hw : forall i j, i < m -> j < n -> wrap32 (i * n + j) = i * n + j).
  { intros i j Hi Hj. unfold wrap32. apply N.mod_small. nia. }
  assert (Hinj : forall i j i' j', i < m -> j < n -> i' < m -> j' < n ->
            i' * n + j' = i * n + j -> (i', j') = (i, j)).
  { intros i j i' j' Hi Hj Hi' Hj' E. assert (i' = i) by nia. subst. f_equal. lia. }
  assert (Hval : forall cs, (forall i j, In (i, j) cs <-> i < m /\ j < n) ->
            forall i j, i < m -> j < n ->
              fillRand is_signed rand_row n cs mat (i * n + j)
              = fillRand_value is_signed rand_row i j).
  { intros cs Hcs i j Hi Hj. rewrite <- (Hw i j Hi Hj). apply fillRand_inside.
    - apply Hcs. auto.
    - intros [i' j'] Hin E. apply Hcs in Hin as [Hi' Hj']. cbn [fst snd] in E.
      rewrite !Hw in E by assumption. now apply Hinj. }
  assert (Hout : forall cs, (forall i j, In (i, j) cs <-> i < m /\ j < n) ->
            forall x, (forall i j, i < m -> j < n -> i * n + j <> x) ->
              fillRand is_signed rand_row n cs mat x = mat x).
  { intros cs Hcs x Hx. apply fillRand_outside. intros [i j] Hin.
    apply Hcs in Hin as [Hi Hj]. cbn [fst snd]. rewrite Hw by assumption. now apply Hx. }
  assert (Hseq : forall i j, In (i, j) (fillRand_cells m n) <-> i < m /\ j < n)
    by (intros i j; apply fillRand_cells_spec).
  assert (Hv : forall i j, i < m -> j < n ->
            fillRand_value is_signed rand_row i j
            = (let value := (rand_row i mod 5 + j) mod 5 in
               if (value mod 3 =? 0) && is_signed then (- Z.of_N value)%Z
               else Z.of_N value)).
  { intros i j Hi Hj. unfold fillRand_value. cbv zeta.
    replace (wrap32 (rand_row i mod 5 + j)) with (rand_row i mod 5 + j); [reflexivity|].
    unfold wrap32. symmetry. apply N.mod_small.
    assert (rand_row i mod 5 < 5) by (apply N.mod_lt; discriminate).
    assert (2 ^ 31 + 5 <= 2 ^ 32) by (cbn; lia). lia. }
  split; [|split; [|split; [|split]]].
  - intros i j Hi Hj. unfold mat'. rewrite (Hval cells Hcells i j Hi Hj). now apply Hv.
  - intros i j Hi Hj. unfold mat'. rewrite (Hval cells Hcells i j Hi Hj).
    pose proof (fillRand_value_range is_signed rand_row i j) as R. cbv zeta in R.
    destruct is_signed; cbn [In]; intuition auto.
  - intros i j Hi Hj. unfold mat'.
    rewrite (Hval cells Hcells i (j + 5)), (Hval cells Hcells i j) by lia.
    rewrite !Hv by lia. cbv zeta.
    replace ((rand_row i mod 5 + (j + 5)) mod 5) with ((rand_row i mod 5 + j) mod 5);
      [reflexivity|].
    replace (rand_row i mod 5 + (j + 5)) with (rand_row i mod 5 + j + 1 * 5) by lia.
    now rewrite N.Div0.mod_add.
  - intros x Hx. unfold mat'. apply (Hout cells Hcells). intros i j Hi Hj. nia.
  - intros x. unfold mat'.
    destruct (bounded_search (fun p => p) (m * n) x) as [(p & Hp & E)|Hno].
    + subst p.
      assert (Hn0 : 0 < n) by nia.
      destruct (divmod_spec x n Hn0) as [Ex Hr].
      assert (Hq : x / n < m).
      { apply N.Div0.div_lt_upper_bound. lia. }
      replace x with (x / n * n + x mod n) by lia.
      rewrite (Hval cells Hcells), (Hval _ Hseq); auto.
    + assert (Hx : forall i j, i < m -> j < n -> i * n + j <> x).
      { intros i j Hi Hj E. apply (Hno (i * n + j)); [nia | exact E]. }
      now rewrite (Hout cells Hcells x Hx), (Hout _ Hseq x Hx).
Qed.

Lemma X6_witness :
  2 < 2 ^ 31 /\ 7 < 2 ^ 31 /\ 2 * 7 <= 2 ^ 32 /\
  (forall i j, In (i, j) (rev (fillRand_cells 2 7)) <-> i < 2 /\ j < 7) /\
  let mat' := fillRand true (fun i => 13 + i) 7 (rev (fillRand_cells 2 7)) sample_d in
  (forall i j, i < 2 -> j < 7 -> In (mat' (i * 7 + j)) [(-3)%Z; 0%Z; 1%Z; 2%Z; 4%Z]) /\
  mat' 0 = (-3)%Z /\ mat' 2 = 0%Z /\ mat' 7 = 4%Z /\ mat' 14 = sample_d 14 /\
  (forall x, mat' x = fillRand true (fun i => 13 + i) 7 (fillRand_cells 2 7) sample_d x).
Proof.
  assert (H1 : 2 < 2 ^ 31) by reflexivity.
  assert (H2 : 7 < 2 ^ 31) by reflexivity.
  assert (H3 : 2 * 7 <= 2 ^ 32) by (cbn; discriminate).
  assert (H4 : forall i j, In (i, j) (rev (fillRand_cells 2 7)) <-> i < 2 /\ j < 7).
  { intros i j. rewrite <- in_rev. apply fillRand_cells_spec. }
  split; [exact H1|]. split; [exact H2|]. split; [exact H3|]. split; [exact H4|].
  destruct (X6_fillRand_values true (fun i => 13 + i) 2 7 (rev (fillRand_cells 2 7))
              sample_d H1 H2 H3 H4) as (_ & Hset & _ & Hout & Hord).
  cbv zeta. split; [exact Hset|].
  split; [reflexivity|]. split; [reflexivity|]. split; [reflexivity|].
  split; [apply Hout; cbn; discriminate | exact Hord].
Defined.

(** ** Device queries and [canRun] *)

Ltac bool_hyps :=
  repeat match goal with
         | H : _ && _ = true |- _ => apply andb_prop in H; destruct H
         | H : _ || _ = true |- _ => apply orb_prop in H; destruct H
         | H : negb _ = true |- _ => apply negb_true_iff in H
         | H : (_ =? _) = true |- _ => apply N.eqb_eq in H
         | H : (_ <=? _) = true |- _ => apply N.leb_le in H
         | H : true = false |- _ => discriminate H
         | H : false = true |- _ => discriminate H
         end.

Lemma getWarpSize_some (warpSize W : N) :
  Host.getWarpSize warpSize = Some W <-> (warpSize = 32 \/ warpSize = 64) /\ W = warpSize.
Proof.
  unfold Host.getWarpSize, Host.Wave32, Host.Wave64, Host.UNSUPPORTED_WARP_SIZE.
  destruct (N.eqb_spec warpSize 32) as [->|H32]; cbn [orb].
  - cbn. split; [intros [= <-]; auto | intros [_ ->]; reflexivity].
  - destruct (N.eqb_spec warpSize 64) as [->|H64].
    + cbn. split; [intros [= <-]; auto | intros [_ ->]; reflexivity].
    + cbn. split; [discriminate | intros [[?|?] _]; contradiction].
Qed.

(** X7: what [canRun] guarantees when it answers yes.  The warp size is 32
    or 64, the x extent of the thread block is a whole, positive number of
    waves and the y extent is at least 1; the device is a gfx9 part with 64
    lanes or a gfx11 part with 32 lanes; the 32-bit product of the block
    extents is between the wave size and 1024; the tile is 16 x 16 or
    32 x 32 (16 x 16 on gfx11, and for double) and BlockK is a positive even
    number (a multiple of 16 on gfx11); double is refused on gfx908.  When
    the device query fails [canRun] does not return ([None]).  The thread
    count is tested modulo 2^32: a block of 2^31 + 64 by 2 threads is
    accepted. *)
Theorem X7_canRun_guarantees
  (warpSize : N) (gcnArchName : string) (InputT : Host.elem_type)
  (BlockM BlockN BlockK TBlockX TBlockY BlocksX BlocksY : N) :
  Host.canRun warpSize gcnArchName InputT BlockM BlockN BlockK TBlockX TBlockY
    BlocksX BlocksY = Some true ->
  let arch := Host.getGCNArchId gcnArchName in
  let gfx9 := arch = Host.AMDGCN_ARCH_ID_GFX908 \/ arch = Host.AMDGCN_ARCH_ID_GFX90A \/
              arch = Host.AMDGCN_ARCH_ID_GFX940 \/ arch = Host.AMDGCN_ARCH_ID_GFX941 \/
              arch = Host.AMDGCN_ARCH_ID_GFX942 in
  let gfx11 := arch = Host.AMDGCN_ARCH_ID_GFX1100 \/ arch = Host.AMDGCN_ARCH_ID_GFX1101 \/
               arch = Host.AMDGCN_ARCH_ID_GFX1102 in
  (warpSize = 32 \/ warpSize = 64) /\
  TBlockX mod warpSize = 0 /\ warpSize <= TBlockX /\ 1 <= TBlockY /\
  ((gfx9 /\ warpSize = 64) \/
   (gfx11 /\ warpSize = 32 /\ BlockM = 16 /\ BlockK mod 16 = 0 /\
    (InputT = Host.int8_t \/ InputT = Host.float16_t \/ InputT = Host.hfloat16_t \/
     InputT = Host.bfloat16_t))) /\
  warpSize <= (TBlockX * TBlockY) mod 2 ^ 32 <= 1024 /\
  (TBlockX * TBlockY < 2 ^ 32 -> TBlockX * TBlockY <= 1024) /\
  BlockM = BlockN /\ (BlockM = 16 \/ BlockM = 32) /\
  2 <= BlockK /\ BlockK mod 2 = 0 /\
  InputT <> Host.other_t /\
  (InputT = Host.float64_t ->
   arch <> Host.AMDGCN_ARCH_ID_GFX908 /\ BlockM = 16 /\ BlockK mod 4 = 0) /\
  Host.canRun 64 "gfx90a"%string Host.float32_t 16 16 4 (2 ^ 31 + 64) 2 1 1 = Some true.
Proof.
  intros H arch gfx9 gfx11. unfold Host.canRun in H.
  destruct (Host.getWarpSize warpSize) as [W|] eqn:EW; [|discriminate].
  apply getWarpSize_some in EW as [HW ->].
  fold arch in H. cbv zeta in H. injection H as H.
  unfold Host.AMDGCN_WAVE_SIZE_32, Host.AMDGCN_WAVE_SIZE_64, wrap32 in H.
  assert (Hmod : forall k, BlockK mod (2 * k) = 0 -> BlockK mod 2 = 0).
  { intros k E. apply N.Div0.mod_divides in E as [c Ec]. apply N.Div0.mod_divides.
    exists (k * c). lia. }
  assert (M4 : BlockK mod 4 = 0 -> BlockK mod 2 = 0) by exact (Hmod 2).
  assert (M8 : BlockK mod 8 = 0 -> BlockK mod 2 = 0) by exact (Hmod 4).
  assert (M16 : BlockK mod 16 = 0 -> BlockK mod 2 = 0) by exact (Hmod 8).
  assert (M32 : BlockK mod 32 = 0 -> BlockK mod 2 = 0) by exact (Hmod 16).
  clear Hmod.
  assert (Hsmall : forall x, x < 2 ^ 32 -> x mod 2 ^ 32 = x)
    by (intros x Hx; now apply N.mod_small).
  subst gfx9 gfx11. clearbody arch.
  split; [exact HW|].
  destruct InputT, arch; cbn [Host.is_same_v Host.ArchId_eqb orb andb negb] in H;
    rewrite ?andb_false_r, ?andb_true_r, ?orb_false_r, ?orb_true_r in H;
    cbn [orb andb negb] in H; try discriminate H;
    bool_hyps; subst;
    repeat match goal with
           | |- _ /\ _ => split
           end;
    try reflexivity; try assumption; try discriminate; try lia;
    try (intros E; try discriminate E; repeat split; try discriminate; auto; lia);
    try (left; repeat split; auto 10; lia);
    try (right; repeat split; auto 10; lia);
    auto 10.
  all: try (intros Hx; rewrite Hsmall in * by exact Hx; lia).
  all: try (destruct HW; subst; lia).
Qed.

Lemma X7_witness :
  Host.canRun 64 "gfx90a:sramecc+:xnack-"%string Host.float64_t 16 16 4 128 2 1 1 = Some true /\
  128 mod 64 = 0 /\ 64 <= (128 * 2) mod 2 ^ 32 <= 1024 /\ 4 mod 2 = 0 /\
  Host.getGCNArchId "gfx90a:sramecc+:xnack-"%string <> Host.AMDGCN_ARCH_ID_GFX908 /\
  Host.canRun 64 "gfx908"%string Host.float64_t 16 16 4 128 2 1 1 = Some false /\
  Host.canRun 48 "gfx90a"%string Host.float32_t 16 16 4 128 2 1 1 = None.
Proof.
  assert (H : Host.canRun 64 "gfx90a:sramecc+:xnack-"%string Host.float64_t 16 16 4 128 2 1 1
              = Some true) by (vm_compute; reflexivity).
  destruct (X7_canRun_guarantees 64 "gfx90a:sramecc+:xnack-"%string Host.float64_t
              16 16 4 128 2 1 1 H)
    as (_ & H1 & _ & _ & _ & H2 & _ & _ & _ & _ & H3 & _ & H4 & _).
  split; [exact H|]. split; [exact H1|]. split; [exact H2|]. split; [exact H3|].
  split; [exact (proj1 (H4 eq_refl))|].
  split; vm_compute; reflexivity.
Defined.

(** X8: [isGfx9] and [getGCNArchId] agree: [isGfx9] holds exactly when
    [getGCNArchId] returns one of the five gfx9 identifiers, and the gfx9
    names take precedence over the gfx11 names in [getGCNArchId]; a name
    with none of the eight substrings gives [AMDGCN_ARCH_ID_NONE] and is
    not gfx9. *)
Theorem X8_isGfx9_agrees_with_getGCNArchId (gcnArchName : string) :
  let arch := Host.getGCNArchId gcnArchName in
  (Host.isGfx9 gcnArchName = true <->
   arch = Host.AMDGCN_ARCH_ID_GFX908 \/ arch = Host.AMDGCN_ARCH_ID_GFX90A \/
   arch = Host.AMDGCN_ARCH_ID_GFX940 \/ arch = Host.AMDGCN_ARCH_ID_GFX941 \/
   arch = Host.AMDGCN_ARCH_ID_GFX942) /\
  (Host.find "gfx908"%string gcnArchName = true -> arch = Host.AMDGCN_ARCH_ID_GFX908) /\
  (arch = Host.AMDGCN_ARCH_ID_GFX1100 \/ arch = Host.AMDGCN_ARCH_ID_GFX1101 \/
   arch = Host.AMDGCN_ARCH_ID_GFX1102 -> Host.isGfx9 gcnArchName = false) /\
  (arch = Host.AMDGCN_ARCH_ID_NONE <->
   forall s, In s ["gfx908"%string; "gfx90a"%string; "gfx940"%string; "gfx941"%string; "gfx942"%string;
                   "gfx1100"%string; "gfx1101"%string; "gfx1102"%string] ->
             Host.find s gcnArchName = false).
Proof.
  intros arch. subst arch. unfold Host.isGfx9, Host.getGCNArchId.
  assert (Hall : (forall s, In s ["gfx908"%string; "gfx90a"%string; "gfx940"%string; "gfx941"%string; "gfx942"%string;
                                  "gfx1100"%string; "gfx1101"%string; "gfx1102"%string] ->
                            Host.find s gcnArchName = false) <->
                 Host.find "gfx908"%string gcnArchName = false /\
                 Host.find "gfx90a"%string gcnArchName = false /\
                 Host.find "gfx940"%string gcnArchName = false /\
                 Host.find "gfx941"%string gcnArchName = false /\
                 Host.find "gfx942"%string gcnArchName = false /\
                 Host.find "gfx1100"%string gcnArchName = false /\
                 Host.find "gfx1101"%string gcnArchName = false /\
                 Host.find "gfx1102"%string gcnArchName = false).
  { split.
    - intros H. repeat split; apply H; cbn; auto 10.
    - intros (H1 & H2 & H3 & H4 & H5 & H6 & H7 & H8) s Hs. cbn in Hs.
      repeat (destruct Hs as [<-|Hs]; [assumption|]). destruct Hs. }
  rewrite Hall. clear Hall.
  generalize (Host.find "gfx908"%string gcnArchName) (Host.find "gfx90a"%string gcnArchName)
             (Host.find "gfx940"%string gcnArchName) (Host.find "gfx941"%string gcnArchName)
             (Host.find "gfx942"%string gcnArchName) (Host.find "gfx1100"%string gcnArchName)
             (Host.find "gfx1101"%string gcnArchName) (Host.find "gfx1102"%string gcnArchName).
  intros f1 f2 f3 f4 f5 f6 f7 f8.
  destruct f1, f2, f3, f4, f5, f6, f7, f8; cbn [orb]; intuition congruence.
Qed.

Lemma X8_witness :
  Host.getGCNArchId "gfx90a:sramecc+:xnack-"%string = Host.AMDGCN_ARCH_ID_GFX90A /\
  Host.isGfx9 "gfx90a:sramecc+:xnack-"%string = true /\
  Host.getGCNArchId "gfx1100"%string = Host.AMDGCN_ARCH_ID_GFX1100 /\
  Host.isGfx9 "gfx1100"%string = false /\
  Host.getGCNArchId "gfx1030"%string = Host.AMDGCN_ARCH_ID_NONE.
Proof.
  assert (E1 : Host.getGCNArchId "gfx90a:sramecc+:xnack-"%string = Host.AMDGCN_ARCH_ID_GFX90A)
    by (vm_compute; reflexivity).
  assert (E2 : Host.getGCNArchId "gfx1100"%string = Host.AMDGCN_ARCH_ID_GFX1100)
    by (vm_compute; reflexivity).
  destruct (X8_isGfx9_agrees_with_getGCNArchId "gfx90a:sramecc+:xnack-"%string) as ([_ Ha] & _).
  destruct (X8_isGfx9_agrees_with_getGCNArchId "gfx1100"%string) as (_ & _ & Hb & _).
  split; [exact E1|]. split; [apply Ha; right; left; exact E1|].
  split; [exact E2|]. split; [apply Hb; left; exact E2|].
  vm_compute. reflexivity.
Defined.
